(** * CottDAW: scheduling and playback-state core

  A shallow embedding of the stores ([transportStore], [historyStore],
  [projectStore]), the time helpers, the realtime scheduler
  ([audio/engine.ts]) and the offline renderer ([audio/recorder.ts]).

  JavaScript numbers are modelled by exact rationals ([Q]); equality of
  computed numbers is therefore [Qeq] ([==]).  The rounding of IEEE
  doubles is modelled where a property is about it: the conversions
  between beats and seconds ([Double]).  [NaN] appears where the tick
  converts the pieces of a position string and where the tempo is
  set. *)

From Stdlib Require Import ZArith QArith Qminmax Qround Qabs Qpower Lqa.
From Stdlib Require Floats.
From Stdlib Require Import Ascii String DecimalString DecimalN DecimalFacts.
From stdpp Require Import gmap strings list.

Local Open Scope Q_scope.

(** ** JavaScript numeric primitives used by the sources *)

Module JS.

(** [a > b] on numbers. *)
Definition gt (a b : Q) : bool := negb (Qle_bool a b).

(** [a >= b] on numbers. *)
Definition ge (a b : Q) : bool := Qle_bool b a.

(** [Math.ceil]. *)
Definition Math_ceil (x : Q) : Q := inject_Z (Qceiling x).

(** [Math.max] and [Math.min] on two arguments. *)
Definition Math_max (a b : Q) : Q := Qmax a b.
Definition Math_min (a b : Q) : Q := Qmin a b.

End JS.

(** ** utils/timeHelpers.ts *)

Module TimeHelpers.

Definition beatsToSeconds (beats bpm : Q) : Q := (beats / bpm) * 60.

Definition secondsToBeats (seconds bpm : Q) : Q := (seconds / 60) * bpm.

End TimeHelpers.

(** ** types/index.ts *)

Inductive WaveType := sine | square | sawtooth | triangle.
Inductive FilterType := lowpass | highpass.

Record Envelope := mkEnvelope {
attack : Q; decay : Q; sustain : Q; release : Q }.

Record TrackEffects := mkEffects {
reverb_wet : Q;
delay_time : string; delay_feedback : Q; delay_wet : Q;
filter_type : FilterType; filter_frequency : Q; filter_Q : Q;
distortion_amount : Q }.

Record Note := mkNote {
note_id : string;
pitch : Q;
start : Q;
duration : Q;
velocity : Q }.

Record Track := mkTrack {
track_id : string;
name : string;
color : string;
waveType : WaveType;
volume : Q;
pan : Q;
muted : bool;
solo : bool;
envelope : Envelope;
effects : TrackEffects;
notes : list Note }.

Record LoopRegion := mkLoop {
loop_start : Q;
loop_end : Q;
loop_enabled : bool }.

(** [{ ...track, notes: ns }] *)
Definition with_notes (t : Track) (ns : list Note) : Track :=
mkTrack (track_id t) (name t) (color t) (waveType t) (volume t) (pan t)
        (muted t) (solo t) (envelope t) (effects t) ns.

(** [{ ...n, id: i }] *)
Definition with_id (n : Note) (i : string) : Note :=
mkNote i (pitch n) (start n) (duration n) (velocity n).

(** ** stores/transportStore.ts *)

Module Transport.

Record TransportState := mkTransport {
  isPlaying : bool;
  isPaused : bool;
  currentBeat : Q;
  loop : LoopRegion;
  metronomeEnabled : bool;
  metronomeVolume : Q }.

(** What [loadFromStorage] may have found; absent entries take the
    defaults of the store's initialiser. *)
Record Stored := mkStored {
  stored_loop : option LoopRegion;
  stored_metronomeEnabled : option bool;
  stored_metronomeVolume : option Q }.

Definition initial (s : Stored) : TransportState :=
  mkTransport false false 0
    (default (mkLoop 0 16 false) (stored_loop s))
    (default false (stored_metronomeEnabled s))
    (default (1 # 2) (stored_metronomeVolume s)).

Definition play (s : TransportState) : TransportState :=
  mkTransport true false (currentBeat s) (loop s)
              (metronomeEnabled s) (metronomeVolume s).

Definition pause (s : TransportState) : TransportState :=
  mkTransport false true (currentBeat s) (loop s)
              (metronomeEnabled s) (metronomeVolume s).

Definition stop (s : TransportState) : TransportState :=
  mkTransport false false 0 (loop s)
              (metronomeEnabled s) (metronomeVolume s).

Definition togglePlay (s : TransportState) : TransportState :=
  if isPlaying s then pause s else play s.

Definition set_currentBeat (s : TransportState) (b : Q) : TransportState :=
  mkTransport (isPlaying s) (isPaused s) b (loop s)
              (metronomeEnabled s) (metronomeVolume s).

Definition set_loop (s : TransportState) (l : LoopRegion) : TransportState :=
  mkTransport (isPlaying s) (isPaused s) (currentBeat s) l
              (metronomeEnabled s) (metronomeVolume s).

Definition setCurrentBeat (beat : Q) (s : TransportState) : TransportState :=
  if loop_enabled (loop s) && JS.ge beat (loop_end (loop s))
  then set_currentBeat s (loop_start (loop s))
  else set_currentBeat s beat.

(** [seek] also calls the registered [seekCallback], which repositions
    the audio engine and does not touch this store. *)
Definition seek (beat : Q) (s : TransportState) : TransportState :=
  set_currentBeat s (JS.Math_max 0 beat).

Definition setLoopEnabled (enabled : bool) (s : TransportState) : TransportState :=
  set_loop s (mkLoop (loop_start (loop s)) (loop_end (loop s)) enabled).

Definition setLoopRegion (start_ end_ : Q) (s : TransportState) : TransportState :=
  set_loop s (mkLoop (JS.Math_min start_ end_) (JS.Math_max start_ end_)
                     (loop_enabled (loop s))).

Definition toggleLoop (s : TransportState) : TransportState :=
  set_loop s (mkLoop (loop_start (loop s)) (loop_end (loop s))
                     (negb (loop_enabled (loop s)))).

Definition toggleMetronome (s : TransportState) : TransportState :=
  mkTransport (isPlaying s) (isPaused s) (currentBeat s) (loop s)
              (negb (metronomeEnabled s)) (metronomeVolume s).

Definition setMetronomeVolume (v : Q) (s : TransportState) : TransportState :=
  mkTransport (isPlaying s) (isPaused s) (currentBeat s) (loop s)
              (metronomeEnabled s) (JS.Math_max 0 (JS.Math_min 1 v)).

(** The actions of the store. *)
Inductive Action :=
| APlay | APause | AStop | ATogglePlay
| ASetCurrentBeat (beat : Q) | ASeek (beat : Q)
| ASetLoopEnabled (enabled : bool) | ASetLoopRegion (start_ end_ : Q)
| AToggleLoop | AToggleMetronome | ASetMetronomeVolume (v : Q).

Definition step (a : Action) (s : TransportState) : TransportState :=
  match a with
  | APlay => play s
  | APause => pause s
  | AStop => stop s
  | ATogglePlay => togglePlay s
  | ASetCurrentBeat b => setCurrentBeat b s
  | ASeek b => seek b s
  | ASetLoopEnabled e => setLoopEnabled e s
  | ASetLoopRegion a b => setLoopRegion a b s
  | AToggleLoop => toggleLoop s
  | AToggleMetronome => toggleMetronome s
  | ASetMetronomeVolume v => setMetronomeVolume v s
  end.

(** States reachable from a freshly created store. *)
Inductive reachable : TransportState -> Prop :=
| reach_init st : reachable (initial st)
| reach_step a s : reachable s -> reachable (step a s).

End Transport.

(** ** JavaScript numbers as IEEE 754 doubles

  Where a claim is about the rounding of the implementation, a number
  is a finite double: a rational [m * 2^e] with [|m| < 2^53] and
  [e >= -1074].  An operation computes the exact result and rounds it
  to the nearest double, a tie going to the even significand.  A result
  that is not a finite double ([Infinity], [NaN]) is [None]; the sign
  of zero is not kept. *)

Module Double.

Definition prec : Z := 53.
Definition emin : Z := -1074.
Definition emax : Z := 1024.

Definition pow2 (e : Z) : Q := 2 ^ e.

(** The unit of round-off, [2^-53]: half the machine epsilon [2^-52]. *)
Definition unit_roundoff : Q := 1 # 9007199254740992.
Definition epsilon : Q := 1 # 4503599627370496.

(** The exponent of the binade of [x]: [2^(ilog2 x) <= |x| < 2^(ilog2 x + 1)]. *)
Definition ilog2 (x : Q) : Z :=
  let k := (Z.log2 (Z.abs (Qnum x)) - Z.log2 (Z.pos (Qden x)))%Z in
  if Qle_bool (pow2 k) (Qabs x) then k else (k - 1)%Z.

(** The nearest integer, a tie going to the even one. *)
Definition round_half_even (x : Q) : Z :=
  let f := Qfloor x in
  match Qcompare (x - inject_Z f) (1 # 2) with
  | Lt => f
  | Gt => (f + 1)%Z
  | Eq => if Z.even f then f else (f + 1)%Z
  end.

(** The exponent of the last place of the doubles around [x]: 53
    significant bits, and no exponent below that of the subnormals. *)
Definition ulp_exponent (x : Q) : Z := Z.max (ilog2 x - (prec - 1)) emin.

(** The double nearest to [x], the range of the exponent left aside. *)
Definition nearest (x : Q) : Q :=
  if Qeq_bool x 0 then 0
  else let e := ulp_exponent x in
       inject_Z (round_half_even (x / pow2 e)) * pow2 e.

(** Rounding: a result of magnitude [2^1024] or more is an infinity. *)
Definition round (x : Q) : option Q :=
  let r := nearest x in
  if Qle_bool (pow2 emax) (Qabs r) then None else Some r.

(** [x * y] and [x / y] on finite doubles. *)
Definition mul (x y : Q) : option Q := round (x * y).

Definition div (x y : Q) : option Q :=
  if Qeq_bool y 0 then None else round (x / y).

(** utils/timeHelpers.ts on doubles. *)
Definition beatsToSeconds (beats bpm : Q) : option Q :=
  q ← div beats bpm; mul q 60.

Definition secondsToBeats (seconds bpm : Q) : option Q :=
  q ← div seconds 60; mul q bpm.

End Double.

(** The same two functions on the primitive floats of Rocq, which are
    the binary64 numbers of IEEE 754 with the arithmetic of the machine:
    they serve to check the rounding of [Double] on concrete inputs. *)

Module Binary64.
Import Floats.

Definition beatsToSeconds (beats bpm : float) : float := ((beats / bpm) * 60)%float.

Definition secondsToBeats (seconds bpm : float) : float := ((seconds / 60) * bpm)%float.

(** The rational a float stands for; [None] for infinities and [NaN]. *)
Definition value (f : float) : option Q :=
  match Prim2SF f with
  | S754_zero _ => Some 0
  | S754_finite s m e =>
      Some ((if s then -1 else 1) * inject_Z (Z.pos m) * Double.pow2 e)
  | _ => None
  end.

(** The float of a natural number below [2^53] (exact). *)
Definition of_Z (z : Z) : float := PrimFloat.of_uint63 (Uint63.of_Z z).

Definition same (a b : option Q) : bool :=
  match a, b with
  | Some x, Some y => Qeq_bool x y
  | None, None => true
  | _, _ => false
  end.

(** For [k] eighths of a beat at tempo [bpm], the two conversions and
    the round trip give the same numbers in both models. *)
Definition agree (k bpm : Z) : bool :=
  let fb := (of_Z k / of_Z 8)%float in
  let b := inject_Z k / 8 in
  same (value fb) (Some b)
  && same (value (beatsToSeconds fb (of_Z bpm)))
          (Double.beatsToSeconds b (inject_Z bpm))
  && same (value (secondsToBeats (beatsToSeconds fb (of_Z bpm)) (of_Z bpm)))
          (s ← Double.beatsToSeconds b (inject_Z bpm);
           Double.secondsToBeats s (inject_Z bpm)).

Definition range (lo n : nat) : list Z := map Z.of_nat (seq lo n).

End Binary64.

(** ** Array and JSON primitives *)

Module JSArray.

(** [a.pop()]: the last element (if any) and the array without it. *)
Fixpoint pop {A} (l : list A) : option A * list A :=
  match l with
  | [] => (None, [])
  | [x] => (Some x, [])
  | x :: l' => let '(r, rest) := pop l' in (r, x :: rest)
  end.

(** [a.shift()]: the first element (if any) and the array without it. *)
Definition shift {A} (l : list A) : option A * list A :=
  match l with
  | [] => (None, [])
  | x :: l' => (Some x, l')
  end.

End JSArray.

(** [JSON.parse(JSON.stringify(notes))]: a fresh array of fresh note
    objects carrying the same fields. *)
Definition JSON_clone (ns : list Note) : list Note :=
  map (fun n => mkNote (note_id n) (pitch n) (start n) (duration n) (velocity n)) ns.

(** ** stores/historyStore.ts *)

Module History.

(** [Map<string, Note[]>], track id to notes. *)
Abbreviation NotesSnapshot := (gmap string (list Note)).

Record HistoryState := mkHistory {
  past : list NotesSnapshot;
  future : list NotesSnapshot;
  maxHistory : nat }.

Definition MAX_HISTORY : nat := 50.

Definition initial : HistoryState := mkHistory [] [] MAX_HISTORY.

(** The loop [tracks.forEach(track => snapshot.set(track.id, clone))]. *)
Definition take_snapshot (tracks : list Track) : NotesSnapshot :=
  fold_left (fun snapshot track => <[track_id track := JSON_clone (notes track)]> snapshot)
            tracks ∅.

Definition pushState (tracks : list Track) (h : HistoryState) : HistoryState :=
  let snapshot := take_snapshot tracks in
  let newPast := past h ++ [snapshot] in
  let newPast :=
    if (maxHistory h <? length newPast)%nat
    then snd (JSArray.shift newPast) else newPast in
  mkHistory newPast [] (maxHistory h).

Definition undo (currentState : option NotesSnapshot) (h : HistoryState)
  : option NotesSnapshot * HistoryState :=
  if (length (past h) =? 0)%nat then (None, h)
  else
    let '(previousState, newPast) := JSArray.pop (past h) in
    let newFuture :=
      match currentState with
      | Some c => c :: future h
      | None => future h
      end in
    (previousState, mkHistory newPast newFuture (maxHistory h)).

Definition redo (currentState : option NotesSnapshot) (h : HistoryState)
  : option NotesSnapshot * HistoryState :=
  if (length (future h) =? 0)%nat then (None, h)
  else
    let '(nextState, newFuture) := JSArray.shift (future h) in
    let newPast :=
      match currentState with
      | Some c => past h ++ [c]
      | None => past h
      end in
    (nextState, mkHistory newPast newFuture (maxHistory h)).

Definition canUndo (h : HistoryState) : bool := (0 <? length (past h))%nat.
Definition canRedo (h : HistoryState) : bool := (0 <? length (future h))%nat.

Definition clear (h : HistoryState) : HistoryState :=
  mkHistory [] [] (maxHistory h).

(** Calls made on the store. *)
Inductive Op :=
| OPush (tracks : list Track)
| OUndo (currentState : option NotesSnapshot)
| ORedo (currentState : option NotesSnapshot)
| OClear.

Definition step (h : HistoryState) (o : Op) : HistoryState :=
  match o with
  | OPush tracks => pushState tracks h
  | OUndo c => snd (undo c h)
  | ORedo c => snd (redo c h)
  | OClear => clear h
  end.

Definition run (ops : list Op) (h : HistoryState) : HistoryState :=
  fold_left step ops h.

End History.

(** ** stores/projectStore.ts *)

(** [uuidv4]: an external source of identifiers, modelled as an oracle
    that is read at successive positions. *)
Record Uuid := mkUuid {
  draws : nat -> string;
  drawn : nat }.

Definition uuidv4 (g : Uuid) : string * Uuid :=
  (draws g (drawn g), mkUuid (draws g) (S (drawn g))).

Module Project.

Record ProjectState := mkProject {
  projectName : string;
  bpm : Q;
  timeSignature : Q * Q;
  tracks : list Track;
  selectedTrackId : option string }.

Definition set_tracks (p : ProjectState) (ts : list Track) : ProjectState :=
  mkProject (projectName p) (bpm p) (timeSignature p) ts (selectedTrackId p).

(** The two stores the undo and redo actions work on. *)
Definition Stores : Type := ProjectState * History.HistoryState.

(** [notesToDuplicate.map(n => ({ ...n, id: uuidv4() }))], left to right. *)
Fixpoint copy_notes (ns : list Note) (g : Uuid) : list Note * Uuid :=
  match ns with
  | [] => ([], g)
  | n :: ns' =>
      let '(i, g1) := uuidv4 g in
      let '(rest, g2) := copy_notes ns' g1 in
      (with_id n i :: rest, g2)
  end.

Definition duplicateNotes (trackId : string) (noteIds : list string)
    (p : ProjectState) (g : Uuid) : list string * ProjectState * Uuid :=
  match List.find (fun t => bool_decide (track_id t = trackId)) (tracks p) with
  | None => ([], p, g)
  | Some track =>
      let noteIdSet : gset string := list_to_set noteIds in
      let notesToDuplicate :=
        List.filter (fun n => bool_decide (note_id n ∈ noteIdSet)) (notes track) in
      let '(newNotes, g') := copy_notes notesToDuplicate g in
      let p' := set_tracks p
        (map (fun t => if bool_decide (track_id t = trackId)
                       then with_notes t (notes t ++ newNotes) else t)
             (tracks p)) in
      (map note_id newNotes, p', g')
  end.

Definition saveToHistory (st : Stores) : Stores :=
  let '(p, h) := st in (p, History.pushState (tracks p) h).

(** [tracks.map(track => snapshot.has(track.id) ? {...track, notes} : track)] *)
Definition apply_snapshot (snapshot : History.NotesSnapshot) (ts : list Track)
  : list Track :=
  map (fun track =>
         match snapshot !! track_id track with
         | Some previousNotes => with_notes track previousNotes
         | None => track
         end) ts.

Definition undo (st : Stores) : Stores :=
  let '(p, h) := st in
  if negb (History.canUndo h) then st
  else
    let currentSnapshot := History.take_snapshot (tracks p) in
    match History.undo (Some currentSnapshot) h with
    | (None, h') => (p, h')
    | (Some previousSnapshot, h') =>
        (set_tracks p (apply_snapshot previousSnapshot (tracks p)), h')
    end.

Definition redo (st : Stores) : Stores :=
  let '(p, h) := st in
  if negb (History.canRedo h) then st
  else
    let currentSnapshot := History.take_snapshot (tracks p) in
    match History.redo (Some currentSnapshot) h with
    | (None, h') => (p, h')
    | (Some nextSnapshot, h') =>
        (set_tracks p (apply_snapshot nextSnapshot (tracks p)), h')
    end.

End Project.
(** ** String and number conversions of the host language *)

Module JSString.

(** The result of [Number(s)]: a finite value or [NaN]. *)
Inductive number :=
| Finite (q : Q)
| NaN.

Definition add (a b : number) : number :=
  match a, b with
  | Finite x, Finite y => Finite (x + y)
  | _, _ => NaN
  end.

Definition mul (a b : number) : number :=
  match a, b with
  | Finite x, Finite y => Finite (x * y)
  | _, _ => NaN
  end.

(** Division by a non-zero constant. *)
Definition div (a b : number) : number :=
  match a, b with
  | Finite x, Finite y => Finite (x / y)
  | _, _ => NaN
  end.

(** [s.split(sep)] for a one-character separator: the pieces between the
    occurrences of [sep]; a string without [sep] is its own single piece. *)
Fixpoint split (sep : ascii) (s : string) : list string :=
  match s with
  | EmptyString => [EmptyString]
  | String c s' =>
      if Ascii.eqb c sep then EmptyString :: split sep s'
      else match split sep s' with
           | piece :: pieces => String c piece :: pieces
           | [] => [String c EmptyString]
           end
  end.

Definition digits_value (d : Decimal.uint) : Q := inject_Z (Z.of_N (N.of_uint d)).

(** [Number(s)] on unsigned decimal literals: digits, optionally followed
    by a point and more digits; the empty string is 0.  Every other
    string gives [NaN] here: signs, exponents, surrounding blanks, other
    radices and [Infinity] are outside the model. *)
Definition Number (s : string) : number :=
  match split "." s with
  | [i] =>
      match NilEmpty.uint_of_string i with
      | Some d => Finite (digits_value d)
      | None => NaN
      end
  | [i; f] =>
      match i, f with
      | EmptyString, EmptyString => NaN
      | _, _ =>
          match NilEmpty.uint_of_string i, NilEmpty.uint_of_string f with
          | Some d, Some e =>
              Finite (digits_value d
                      + digits_value e / inject_Z (10 ^ Z.of_nat (Decimal.nb_digits e)))
          | _, _ => NaN
          end
      end
  | _ => NaN
  end.

(** [a[i]] converted for arithmetic: a missing element is [undefined],
    which arithmetic turns into [NaN]. *)
Definition nth_number (l : list number) (i : nat) : number :=
  match l !! i with
  | Some x => x
  | None => NaN
  end.

End JSString.

(** ** audio/synth.ts, audio/engine.ts *)

(** [440 * Math.pow(2, (midi - 69) / 12)], kept symbolic: the value is
    irrational in general. *)
Inductive Frequency :=
| midiToFrequency (midi : Q).

Module Engine.
Import TimeHelpers.

(** What a callback registered on the Tone.js transport does when it
    fires. *)
Inductive Event :=
| NoteTrigger (trackId : string) (frequency : Frequency)
    (duration : Q) (velocity : Q) (startTime : Q)
| BeatTick (interval : string).

(** The Tone.js transport as the engine uses it: [schedule] and
    [scheduleRepeat] add an event under a new id and return the id,
    [clear id] removes the event with that id. *)
Record ToneTransport := mkTone {
  timeline : list (nat * Event);
  nextEventId : nat;
  tone_bpm : Q;
  tone_loop : bool;
  tone_loopStart : Q;
  tone_loopEnd : Q }.

Definition tone_schedule (ev : Event) (t : ToneTransport) : nat * ToneTransport :=
  (nextEventId t,
   mkTone (timeline t ++ [(nextEventId t, ev)]) (S (nextEventId t))
          (tone_bpm t) (tone_loop t) (tone_loopStart t) (tone_loopEnd t)).

Definition tone_clear (id : nat) (t : ToneTransport) : ToneTransport :=
  mkTone (List.filter (fun e => negb (Nat.eqb (fst e) id)) (timeline t))
         (nextEventId t)
         (tone_bpm t) (tone_loop t) (tone_loopStart t) (tone_loopEnd t).

Definition tone_fresh : ToneTransport := mkTone [] 0 120 false 0 0.

(** Module state of [engine.ts] together with the registry of
    [synth.ts] (track id to the parameters last pushed into its voice). *)
Record EngineState := mkEngine {
  scheduledEvents : list nat;
  transport : ToneTransport;
  trackSynths : gmap string Track }.

Definition initial : EngineState := mkEngine [] tone_fresh ∅.

Definition with_transport (e : EngineState) (t : ToneTransport) : EngineState :=
  mkEngine (scheduledEvents e) t (trackSynths e).

Definition setBPM (bpm : Q) (e : EngineState) : EngineState :=
  let t := transport e in
  with_transport e
    (mkTone (timeline t) (nextEventId t) bpm
            (tone_loop t) (tone_loopStart t) (tone_loopEnd t)).

Definition clearScheduledNotes (e : EngineState) : EngineState :=
  mkEngine []
    (fold_left (fun t id => tone_clear id t) (scheduledEvents e) (transport e))
    (trackSynths e).

(** [createTrackSynth] and [updateTrackSynth] both leave the voice of the
    track configured with the track's current parameters. *)
Definition createTrackSynth (track : Track) (e : EngineState) : EngineState :=
  mkEngine (scheduledEvents e) (transport e) (<[track_id track := track]> (trackSynths e)).

Definition updateTrackSynth (track : Track) (e : EngineState) : EngineState :=
  match trackSynths e !! track_id track with
  | None => createTrackSynth track e
  | Some _ =>
      mkEngine (scheduledEvents e) (transport e) (<[track_id track := track]> (trackSynths e))
  end.

(** One iteration of [track.notes.forEach]. *)
Definition schedule_note (bpm : Q) (track : Track) (e : EngineState) (note : Note)
  : EngineState :=
  let frequency := midiToFrequency (pitch note) in
  let startTime := beatsToSeconds (start note) bpm in
  let duration_ := beatsToSeconds (duration note) bpm in
  let '(eventId, t) :=
    tone_schedule (NoteTrigger (track_id track) frequency duration_ (velocity note) startTime)
                  (transport e) in
  mkEngine (scheduledEvents e ++ [eventId]) t (trackSynths e).

(** One iteration of [tracks.forEach]. *)
Definition schedule_track (hasSolo : bool) (bpm : Q) (e : EngineState) (track : Track)
  : EngineState :=
  if muted track then e
  else if hasSolo && negb (solo track) then e
  else
    let e :=
      match trackSynths e !! track_id track with
      | None => createTrackSynth track e
      | Some _ => e
      end in
    let e := updateTrackSynth track e in
    fold_left (schedule_note bpm track) (notes track) e.

Definition set_loop (loop : LoopRegion) (bpm : Q) (e : EngineState) : EngineState :=
  let t := transport e in
  with_transport e
    (if loop_enabled loop
     then mkTone (timeline t) (nextEventId t) (tone_bpm t) true
                 (beatsToSeconds (loop_start loop) bpm)
                 (beatsToSeconds (loop_end loop) bpm)
     else mkTone (timeline t) (nextEventId t) (tone_bpm t) false
                 (tone_loopStart t) (tone_loopEnd t)).

(** Everything [scheduleNotes] does after its first statement. *)
Definition install (tracks : list Track) (loop : LoopRegion) (bpm : Q)
    (e : EngineState) : EngineState :=
  let e := setBPM bpm e in
  let hasSolo := existsb solo tracks in
  let e := fold_left (schedule_track hasSolo bpm) tracks e in
  let e := set_loop loop bpm e in
  let '(beatSchedule, t) := tone_schedule (BeatTick "16n") (transport e) in
  mkEngine (scheduledEvents e ++ [beatSchedule]) t (trackSynths e).

Definition scheduleNotes (tracks : list Track) (loop : LoopRegion) (bpm : Q)
    (e : EngineState) : EngineState :=
  install tracks loop bpm (clearScheduledNotes e).

(** The value of [transport.position]: a string, or a value of another
    type of Tone's [Time]. *)
Inductive TonePosition :=
| PositionString (s : string)
| PositionOther.

(** The body of the repeating tick: the argument it passes to
    [onBeatUpdate], or [None] when it does not call it. *)
Definition beatTick (position : TonePosition) : option JSString.number :=
  match position with
  | PositionString s =>
      let parts := map JSString.Number (JSString.split ":" s) in
      let bars := JSString.nth_number parts 0 in
      let beats := JSString.nth_number parts 1 in
      let sixteenths := JSString.nth_number parts 2 in
      let totalBeats :=
        JSString.add
          (JSString.add (JSString.mul bars (JSString.Finite 4)) beats)
          (JSString.div sixteenths (JSString.Finite 4)) in
      Some totalBeats
  | PositionOther => None
  end.

(** What firing an event passes to [onBeatUpdate]. *)
Definition fire (ev : Event) (position : TonePosition) : option JSString.number :=
  match ev with
  | NoteTrigger _ _ _ _ _ => None
  | BeatTick _ => beatTick position
  end.

(** Calls made on the engine by its users. *)
Inductive Call :=
| CSchedule (tracks : list Track) (loop : LoopRegion) (bpm : Q)
| CClear.

Definition step (e : EngineState) (c : Call) : EngineState :=
  match c with
  | CSchedule tracks loop bpm => scheduleNotes tracks loop bpm e
  | CClear => clearScheduledNotes e
  end.

Definition run (calls : list Call) (e : EngineState) : EngineState :=
  fold_left step calls e.

(** The events pending on the transport. *)
Definition pending (e : EngineState) : list Event :=
  map snd (timeline (transport e)).

End Engine.

(** ** audio/recorder.ts *)

Module Recorder.
Import TimeHelpers.

Record RenderOptions := mkRenderOptions {
  opt_tracks : list Track;
  opt_bpm : Q;
  opt_duration : Q;
  opt_sampleRate : option Q }.

(** What [renderToWav] hands to [Tone.Offline]: the events put on the
    offline transport, the length of the buffer in seconds, the channel
    count and the sample rate. *)
Record OfflineRender := mkOfflineRender {
  offline_events : list Engine.Event;
  durationSeconds : Q;
  channels : Q;
  sampleRate : Q }.

(** One iteration of [tracks.forEach] in the offline callback. *)
Definition render_track (hasSolo : bool) (bpm : Q) (track : Track) : list Engine.Event :=
  if muted track then []
  else if hasSolo && negb (solo track) then []
  else
    map (fun note =>
           let frequency := midiToFrequency (pitch note) in
           let startTime := beatsToSeconds (start note) bpm in
           let noteDuration := beatsToSeconds (duration note) bpm in
           Engine.NoteTrigger (track_id track) frequency noteDuration (velocity note) startTime)
        (notes track).

Definition renderToWav (o : RenderOptions) : OfflineRender :=
  let durationSeconds := beatsToSeconds (opt_duration o) (opt_bpm o) + 2 in
  let hasSolo := existsb solo (opt_tracks o) in
  mkOfflineRender
    (flat_map (render_track hasSolo (opt_bpm o)) (opt_tracks o))
    durationSeconds 2 (default 44100 (opt_sampleRate o)).

(** The body of [track.notes.forEach] in [exportProject]. *)
Definition note_step (maxEnd : Q) (note : Note) : Q :=
  let end_ := start note + duration note in
  if JS.gt end_ maxEnd then end_ else maxEnd.

(** The body of [tracks.forEach] in [exportProject]. *)
Definition track_step (maxEnd : Q) (track : Track) : Q :=
  fold_left note_step (notes track) maxEnd.

(** [maxEnd] after the two nested loops. *)
Definition maxEnd (tracks : list Track) : Q :=
  fold_left track_step tracks 0.

Definition export_duration (tracks : list Track) : Q :=
  JS.Math_max 16 (JS.Math_ceil (maxEnd tracks)).

(** The render [exportProject] starts. *)
Definition exportProject (tracks : list Track) (bpm : Q) : OfflineRender :=
  renderToWav (mkRenderOptions tracks bpm (export_duration tracks) None).

End Recorder.

(** ** hooks/useAudioEngine.ts *)

Module Hook.

(** The playback effect when [isPlaying] has become true: the notes are
    scheduled from the two stores.  The time signature of the project is
    handed to the metronome only. *)
Definition on_play (p : Project.ProjectState) (t : Transport.TransportState)
    (e : Engine.EngineState) : Engine.EngineState :=
  Engine.scheduleNotes (Project.tracks p) (Transport.loop t) (Project.bpm p) e.

End Hook.
(** ** Specification-level notions *)

Module Specs.

(** The bound maintained by every operation of the history store. *)
Definition within_cap (h : History.HistoryState) : Prop :=
  History.maxHistory h = History.MAX_HISTORY ∧
  (length (History.past h) + length (History.future h) ≤ History.MAX_HISTORY)%nat.

(** A track without its notes: what undo and redo never touch. *)
Definition skeleton (t : Track) : Track := with_notes t [].

(** Two track lists that differ at most in the notes of their tracks. *)
Definition same_tracks (ts ts' : list Track) : Prop :=
  map skeleton ts = map skeleton ts'.

(** An edit of the note data: the project's tracks become [ts]. *)
Definition edit (ts : list Track) (st : Project.Stores) : Project.Stores :=
  (Project.set_tracks (fst st) ts, snd st).

(** [c] is a copy of [n]: the same position, pitch, duration and
    velocity. *)
Definition copy_of (n c : Note) : Prop :=
  pitch c = pitch n ∧ start c = start n ∧
  duration c = duration n ∧ velocity c = velocity n.

(** The notes of [ns] that [duplicateNotes] copies, in the order of [ns]. *)
Definition matched (noteIds : list string) (ns : list Note) : list Note :=
  List.filter (fun n => bool_decide (note_id n ∈ noteIds)) ns.

(** The next [k] identifiers the source will give. *)
Definition upcoming (g : Uuid) (k : nat) : list string :=
  map (draws g) (seq (drawn g) k).

(** The first note of [ns] with identifier [i]. *)
Definition note_by_id (ns : list Note) (i : string) : option Note :=
  List.find (fun n => bool_decide (note_id n = i)) ns.

(** The first track of [ts] with identifier [i]. *)
Definition track_by_id (ts : list Track) (i : string) : option Track :=
  List.find (fun t => bool_decide (track_id t = i)) ts.

(** The reading of C2 on the order of the result: the k-th identifier
    returned names a copy of the note the k-th identifier given names. *)
Definition returned_in_input_order (trackId : string) (noteIds : list string)
    (p : Project.ProjectState) (g : Uuid) : Prop :=
  let '(newIds, p', _) := Project.duplicateNotes trackId noteIds p g in
  ∀ track', track_by_id (Project.tracks p') trackId = Some track' →
    Forall2 (fun newId oldId =>
               ∃ c n, note_by_id (notes track') newId = Some c ∧
                      note_by_id (notes track') oldId = Some n ∧
                      copy_of n c)
            newIds noteIds.

(** The active track set: with a solo'd track present, the tracks that
    are solo'd and not muted; otherwise the tracks that are not muted. *)
Definition active (tracks : list Track) : list Track :=
  if existsb solo tracks
  then List.filter (fun t => solo t && negb (muted t)) tracks
  else List.filter (fun t => negb (muted t)) tracks.

(** The guard of the loops over the tracks, read as a test. *)
Definition plays (hasSolo : bool) (t : Track) : bool :=
  negb (muted t) && (negb hasSolo || solo t).

(** The trigger of one note of one track at a tempo. *)
Definition note_event (bpm : Q) (track : Track) (note : Note) : Engine.Event :=
  Engine.NoteTrigger (track_id track) (midiToFrequency (pitch note))
    (TimeHelpers.beatsToSeconds (duration note) bpm) (velocity note)
    (TimeHelpers.beatsToSeconds (start note) bpm).

(** The triggers of the notes of the active tracks, track by track. *)
Definition triggers (bpm : Q) (tracks : list Track) : list Engine.Event :=
  flat_map (fun t => map (note_event bpm t) (notes t)) (active tracks).

(** One schedule installation: the triggers, then the tick. *)
Definition installation (tracks : list Track) (bpm : Q) : list Engine.Event :=
  triggers bpm tracks ++ [Engine.BeatTick "16n"].

(** The engine records the id of every event pending on the transport. *)
Definition tracked (e : Engine.EngineState) : Prop :=
  map fst (Engine.timeline (Engine.transport e)) = Engine.scheduledEvents e.

(** The ends [note.start + note.duration] of all notes of all tracks. *)
Definition all_ends (tracks : list Track) : list Q :=
  flat_map (fun t => map (fun n => start n + duration n) (notes t)) tracks.

(** [sep] occurs in [s]. *)
Fixpoint occurs (sep : ascii) (s : string) : bool :=
  match s with
  | EmptyString => false
  | String c s' => Ascii.eqb c sep || occurs sep s'
  end.

(** A natural number written in decimal. *)
Definition render_nat (n : N) : string :=
  NilEmpty.string_of_uint (N.to_uint n).

(** The third component of a position: a whole number, or a whole
    number, a point and further digits. *)
Inductive Sixteenths :=
| Whole (n : N)
| Fractional (n : N) (f : Decimal.uint).

Definition render_sixteenths (x : Sixteenths) : string :=
  match x with
  | Whole n => render_nat n
  | Fractional n f => render_nat n +:+ "." +:+ NilEmpty.string_of_uint f
  end.

Definition value_sixteenths (x : Sixteenths) : Q :=
  match x with
  | Whole n => inject_Z (Z.of_N n)
  | Fractional n f =>
      inject_Z (Z.of_N n)
      + inject_Z (Z.of_N (N.of_uint f)) / inject_Z (10 ^ Z.of_nat (Decimal.nb_digits f))
  end.

(** A position string [bars:beats:sixteenths]. *)
Definition position_string (bars beats : N) (x : Sixteenths) : string :=
  render_nat bars +:+ ":" +:+ render_nat beats +:+ ":" +:+ render_sixteenths x.

End Specs.

(** ** Concrete projects used by the examples *)

Module Examples.

Definition env0 : Envelope := mkEnvelope (1 # 100) (1 # 10) (7 # 10) (3 # 10).
Definition eff0 : TrackEffects := mkEffects 0 "8n" (3 # 10) 0 lowpass 20000 1 0.

Definition n1 : Note := mkNote "n1" 60 0 1 (4 # 5).
Definition n2 : Note := mkNote "n2" 62 1 (1 # 2) (4 # 5).
Definition n3 : Note := mkNote "n3" 64 (39 # 2) (1 # 2) (4 # 5).

Definition track (id : string) (m s : bool) (ns : list Note) : Track :=
  mkTrack id "Track" "#FF6B6B" sine (7 # 10) 0 m s env0 eff0 ns.

Definition project (ts : list Track) : Project.ProjectState :=
  Project.mkProject "Untitled Project" 120 (4, 4) ts None.

(** Three states of one track: no note, one note, two notes. *)
Definition S0 : list Track := [track "A" false false []].
Definition S1 : list Track := [track "A" false false [n1]].
Definition S2 : list Track := [track "A" false false [n1; n2]].

(** Two tracks carrying the same id. *)
Definition twins : list Track :=
  [track "A" false false [n1]; track "A" false false [n2]].

(** An identifier source giving [a], [b], [c], ... *)
Definition letters : Uuid :=
  mkUuid (fun i => String (ascii_of_nat (97 + i)) EmptyString) 0.

End Examples.

(** ** utils/timeHelpers.ts: the grid and the time display *)

Module Grid.

(** ['1/4' | '1/8' | '1/16' | '1/32'] *)
Inductive GridSnap := snap_4 | snap_8 | snap_16 | snap_32.

Definition gridSnapToBeats (snap : GridSnap) : Q :=
  match snap with
  | snap_4 => 1
  | snap_8 => 1 # 2
  | snap_16 => 1 # 4
  | snap_32 => 1 # 8
  end.

(** [Math.round]: the nearest integer, a tie going up. *)
Definition Math_round (x : Q) : Q := inject_Z (Qfloor (x + (1 # 2))).

(** [Math.floor]. *)
Definition Math_floor (x : Q) : Q := inject_Z (Qfloor x).

Definition snapToGrid (beat : Q) (snap : GridSnap) : Q :=
  let snapValue := gridSnapToBeats snap in
  Math_round (beat / snapValue) * snapValue.

(** The integer part of a quotient, rounded toward zero. *)
Definition truncate (x : Q) : Z :=
  if Qle_bool 0 x then Qfloor x else Qceiling x.

(** [x % y] for [y] other than 0: the remainder has the sign of [x]. *)
Definition remainder (x y : Q) : Q := x - y * inject_Z (truncate (x / y)).

(** An integer in a template string. *)
Definition render_int (z : Z) : string :=
  match z with
  | Z0 => "0"
  | Zpos p => NilEmpty.string_of_uint (Pos.to_uint p)
  | Zneg p => String "-" (NilEmpty.string_of_uint (Pos.to_uint p))
  end.

(** The three numbers [formatTime] prints.  For [beatsPerBar] equal to 0
    the source computes [Infinity] and [NaN]; that case is left out
    ([None]). *)
Definition formatTime_parts (beats beatsPerBar : Q) : option (Z * Z * Z) :=
  if Qeq_bool beatsPerBar 0 then None
  else
    let bars := (Qfloor (beats / beatsPerBar) + 1)%Z in
    let beat := (Qfloor (remainder beats beatsPerBar) + 1)%Z in
    let sixteenth := (Qfloor (remainder beats 1 * 4) + 1)%Z in
    Some (bars, beat, sixteenth).

Definition formatTime (beats beatsPerBar : Q) : option string :=
  match formatTime_parts beats beatsPerBar with
  | Some (bars, beat, sixteenth) =>
      Some (render_int bars +:+ ":" +:+ render_int beat +:+ ":" +:+ render_int sixteenth)
  | None => None
  end.

Definition barsToBeats (bars beatsPerBar : Q) : Q := bars * beatsPerBar.

Definition getPixelsPerBeat (zoom : Q) : Q :=
  let BASE_PIXELS_PER_BEAT := 40 in
  BASE_PIXELS_PER_BEAT * zoom.

End Grid.

(** ** utils/colorPalette.ts *)

Module ColorPalette.

Definition TRACK_COLORS : list string :=
  ["#FF6B6B"; "#4ECDC4"; "#95E879"; "#A78BFA"; "#FBBF24";
   "#F472B6"; "#38BDF8"; "#FB923C"; "#34D399"; "#E879F9"].

(** The module variable [colorIndex]: a count of tracks. *)
Definition ColorIndex : Type := nat.

(** [TRACK_COLORS[i]]; an index out of range would give [undefined]. *)
Definition color_at (i : nat) : string :=
  match TRACK_COLORS !! i with
  | Some c => c
  | None => "undefined"
  end.

Definition getNextTrackColor (colorIndex : ColorIndex) : string * ColorIndex :=
  let color := color_at (colorIndex mod length TRACK_COLORS) in
  (color, S colorIndex).

Definition resetColorIndex (colorIndex : ColorIndex) : ColorIndex := 0%nat.

Definition setColorIndex (index : nat) (colorIndex : ColorIndex) : ColorIndex := index.

(** [n] calls of [getNextTrackColor] in a row. *)
Fixpoint next_colors (n : nat) (colorIndex : ColorIndex) : list string * ColorIndex :=
  match n with
  | O => ([], colorIndex)
  | S n' =>
      let '(c, i1) := getNextTrackColor colorIndex in
      let '(cs, i2) := next_colors n' i1 in
      (c :: cs, i2)
  end.

End ColorPalette.

(** ** utils/noteHelpers.ts *)

Module NoteHelpers.

Definition NOTE_NAMES : list string :=
  ["C"; "C#"; "D"; "D#"; "E"; "F"; "F#"; "G"; "G#"; "A"; "A#"; "B"].

Definition MIN_MIDI_NOTE : Z := 24.
Definition MAX_MIDI_NOTE : Z := 95.
Definition TOTAL_NOTES : Z := MAX_MIDI_NOTE - MIN_MIDI_NOTE + 1.

(** [NOTE_NAMES[i]] in a template string; a negative index gives
    [undefined].  Note numbers are integers here. *)
Definition note_name_at (i : Z) : string :=
  if (i <? 0)%Z then "undefined"
  else match NOTE_NAMES !! Z.to_nat i with
       | Some s => s
       | None => "undefined"
       end.

Definition midiToNoteName (midi : Z) : string :=
  let octave := (midi / 12 - 1)%Z in
  let noteIndex := Z.rem midi 12 in
  note_name_at noteIndex +:+ Grid.render_int octave.

Definition is_digit (c : ascii) : bool :=
  (48 <=? nat_of_ascii c)%nat && (nat_of_ascii c <=? 57)%nat.

Fixpoint all_digits (s : string) : bool :=
  match s with
  | EmptyString => true
  | String c s' => is_digit c && all_digits s'
  end.

(** [noteName.match(/^([A-G]#?)(\d+)$/)]: the two groups, when the
    string matches. *)
Definition match_note_name (noteName : string) : option (string * string) :=
  match noteName with
  | String c rest =>
      if (65 <=? nat_of_ascii c)%nat && (nat_of_ascii c <=? 71)%nat
      then
        let '(note, digits) :=
          match rest with
          | String "#" rest' => (String c (String "#" EmptyString), rest')
          | _ => (String c EmptyString, rest)
          end in
        match digits with
        | EmptyString => None
        | _ => if all_digits digits then Some (note, digits) else None
        end
      else None
  | EmptyString => None
  end.

(** [parseInt(s, 10)] on a string of digits. *)
Definition parseInt_digits (s : string) : Z :=
  match NilEmpty.uint_of_string s with
  | Some d => Z.of_N (N.of_uint d)
  | None => 0
  end.

(** [NOTE_NAMES.indexOf(note)]. *)
Fixpoint index_of (note : string) (names : list string) (i : Z) : Z :=
  match names with
  | [] => (-1)
  | n :: names' => if String.eqb n note then i else index_of note names' (i + 1)
  end.

Definition noteNameToMidi (noteName : string) : Z :=
  match match_note_name noteName with
  | None => 60
  | Some (note, octaveStr) =>
      let octave := parseInt_digits octaveStr in
      let noteIndex := index_of note NOTE_NAMES 0 in
      ((octave + 1) * 12 + noteIndex)%Z
  end.

(** [[1, 3, 6, 8, 10].includes(midi % 12)] *)
Definition isBlackKey (midi : Z) : bool :=
  let noteIndex := Z.rem midi 12 in
  existsb (Z.eqb noteIndex) [1; 3; 6; 8; 10]%Z.

Definition getNoteColor (midi : Z) : string :=
  if isBlackKey midi then "#1a1a2e" else "#2d2d44".

End NoteHelpers.

(** ** stores/projectStore.ts: the other actions *)

Module ProjectActions.
Import Project.

(** [Partial<Note>]: the fields an update carries. *)
Record NoteUpdates := mkNoteUpdates {
  u_id : option string;
  u_pitch : option Q;
  u_start : option Q;
  u_duration : option Q;
  u_velocity : option Q }.

(** [{ ...n, ...updates }] *)
Definition apply_note_updates (n : Note) (u : NoteUpdates) : Note :=
  mkNote (default (note_id n) (u_id u))
         (default (pitch n) (u_pitch u))
         (default (start n) (u_start u))
         (default (duration n) (u_duration u))
         (default (velocity n) (u_velocity u)).

(** [Partial<Track>] *)
Record TrackUpdates := mkTrackUpdates {
  t_id : option string;
  t_name : option string;
  t_color : option string;
  t_waveType : option WaveType;
  t_volume : option Q;
  t_pan : option Q;
  t_muted : option bool;
  t_solo : option bool;
  t_envelope : option Envelope;
  t_effects : option TrackEffects;
  t_notes : option (list Note) }.

Definition no_track_updates : TrackUpdates :=
  mkTrackUpdates None None None None None None None None None None None.

(** [{ ...t, ...updates }] *)
Definition apply_track_updates (t : Track) (u : TrackUpdates) : Track :=
  mkTrack (default (track_id t) (t_id u))
          (default (name t) (t_name u))
          (default (color t) (t_color u))
          (default (waveType t) (t_waveType u))
          (default (volume t) (t_volume u))
          (default (pan t) (t_pan u))
          (default (muted t) (t_muted u))
          (default (solo t) (t_solo u))
          (default (envelope t) (t_envelope u))
          (default (effects t) (t_effects u))
          (default (notes t) (t_notes u)).

(** What the store reads and writes outside itself: the identifier
    source and the palette index. *)
Record Outside := mkOutside {
  uuid : Uuid;
  colorIndex : ColorPalette.ColorIndex }.

Definition DEFAULT_ENVELOPE : Envelope :=
  mkEnvelope (1 # 100) (1 # 10) (7 # 10) (3 # 10).

Definition DEFAULT_EFFECTS : TrackEffects :=
  mkEffects 0 "8n" (3 # 10) 0 lowpass 20000 1 0.

Definition createDefaultTrack (name_ : string) (o : Outside) : Track * Outside :=
  let '(id, g) := uuidv4 (uuid o) in
  let '(color_, ci) := ColorPalette.getNextTrackColor (colorIndex o) in
  (mkTrack id name_ color_ sine (7 # 10) 0 false false
           DEFAULT_ENVELOPE DEFAULT_EFFECTS [],
   mkOutside g ci).

Definition setProjectName (name_ : string) (p : ProjectState) : ProjectState :=
  mkProject name_ (bpm p) (timeSignature p) (tracks p) (selectedTrackId p).

(** [Math.max(40, Math.min(240, bpm))] on a JavaScript number: [NaN]
    goes through [Math.min] and [Math.max]. *)
Definition clamp_bpm (bpm_ : JSString.number) : JSString.number :=
  match bpm_ with
  | JSString.Finite x => JSString.Finite (JS.Math_max 40 (JS.Math_min 240 x))
  | JSString.NaN => JSString.NaN
  end.

(** [setBpm].  The project state keeps a finite tempo: called with
    [NaN] the store would hold [NaN], a state that is not represented
    here ([None]). *)
Definition setBpm (bpm_ : JSString.number) (p : ProjectState) : option ProjectState :=
  match clamp_bpm bpm_ with
  | JSString.Finite x =>
      Some (mkProject (projectName p) x (timeSignature p) (tracks p)
                      (selectedTrackId p))
  | JSString.NaN => None
  end.

Definition setTimeSignature (sig : Q * Q) (p : ProjectState) : ProjectState :=
  mkProject (projectName p) (bpm p) sig (tracks p) (selectedTrackId p).

(** [`Track ${trackCount + 1}`] *)
Definition default_track_name (trackCount : nat) : string :=
  "Track " +:+ Grid.render_int (Z.of_nat trackCount + 1).

(** [addTrack(name?)]: an absent or empty name gives the default one. *)
Definition addTrack (name_ : option string) (p : ProjectState) (o : Outside)
  : ProjectState * Outside :=
  let trackCount := length (tracks p) in
  let chosen :=
    match name_ with
    | Some (String c s) => String c s
    | _ => default_track_name trackCount
    end in
  let '(newTrack, o') := createDefaultTrack chosen o in
  (mkProject (projectName p) (bpm p) (timeSignature p)
             (tracks p ++ [newTrack]) (Some (track_id newTrack)),
   o').

Definition removeTrack (id : string) (p : ProjectState) : ProjectState :=
  let newTracks := List.filter (fun t => negb (bool_decide (track_id t = id))) (tracks p) in
  let newSelectedId :=
    if bool_decide (selectedTrackId p = Some id)
    then match newTracks with
         | t :: _ => Some (track_id t)
         | [] => None
         end
    else selectedTrackId p in
  mkProject (projectName p) (bpm p) (timeSignature p) newTracks newSelectedId.

Definition selectTrack (id : string) (p : ProjectState) : ProjectState :=
  mkProject (projectName p) (bpm p) (timeSignature p) (tracks p) (Some id).

(** [tracks.map(t => t.id === id ? f(t) : t)], the shape of every
    per-track action. *)
Definition on_track (id : string) (f : Track -> Track) (p : ProjectState)
  : ProjectState :=
  set_tracks p (map (fun t => if bool_decide (track_id t = id) then f t else t)
                    (tracks p)).

Definition updateTrack (id : string) (updates : TrackUpdates) (p : ProjectState)
  : ProjectState :=
  on_track id (fun t => apply_track_updates t updates) p.

Definition setTrackWaveType (id : string) (w : WaveType) (p : ProjectState)
  : ProjectState :=
  updateTrack id
    (mkTrackUpdates None None None (Some w) None None None None None None None) p.

Definition setTrackVolume (id : string) (v : Q) (p : ProjectState) : ProjectState :=
  updateTrack id
    (mkTrackUpdates None None None None (Some (JS.Math_max 0 (JS.Math_min 1 v)))
                    None None None None None None) p.

Definition setTrackPan (id : string) (v : Q) (p : ProjectState) : ProjectState :=
  updateTrack id
    (mkTrackUpdates None None None None None (Some (JS.Math_max (-1) (JS.Math_min 1 v)))
                    None None None None None) p.

Definition set_muted (t : Track) (m : bool) : Track :=
  mkTrack (track_id t) (name t) (color t) (waveType t) (volume t) (pan t)
          m (solo t) (envelope t) (effects t) (notes t).

Definition set_solo (t : Track) (s : bool) : Track :=
  mkTrack (track_id t) (name t) (color t) (waveType t) (volume t) (pan t)
          (muted t) s (envelope t) (effects t) (notes t).

Definition toggleTrackMute (id : string) (p : ProjectState) : ProjectState :=
  on_track id (fun t => set_muted t (negb (muted t))) p.

Definition toggleTrackSolo (id : string) (p : ProjectState) : ProjectState :=
  on_track id (fun t => set_solo t (negb (solo t))) p.

(** [Omit<Note, 'id'>] *)
Record NoteFields := mkNoteFields {
  f_pitch : Q;
  f_start : Q;
  f_duration : Q;
  f_velocity : Q }.

Definition addNote (trackId : string) (note : NoteFields) (p : ProjectState) (g : Uuid)
  : ProjectState * Uuid :=
  let '(id, g') := uuidv4 g in
  let newNote := mkNote id (f_pitch note) (f_start note) (f_duration note) (f_velocity note) in
  (on_track trackId (fun t => with_notes t (notes t ++ [newNote])) p, g').

Definition removeNote (trackId noteId : string) (p : ProjectState) : ProjectState :=
  on_track trackId
    (fun t => with_notes t
       (List.filter (fun n => negb (bool_decide (note_id n = noteId))) (notes t))) p.

Definition updateNote (trackId noteId : string) (updates : NoteUpdates)
    (p : ProjectState) : ProjectState :=
  on_track trackId
    (fun t => with_notes t
       (map (fun n => if bool_decide (note_id n = noteId)
                      then apply_note_updates n updates else n) (notes t))) p.

(** [new Map(noteUpdates.map(u => [u.noteId, u.updates]))]: of two
    entries under one key the later one stays. *)
Definition update_map (noteUpdates : list (string * NoteUpdates))
  : gmap string NoteUpdates :=
  fold_left (fun m u => <[fst u := snd u]> m) noteUpdates ∅.

Definition updateNotes (trackId : string) (noteUpdates : list (string * NoteUpdates))
    (p : ProjectState) : ProjectState :=
  let updateMap := update_map noteUpdates in
  on_track trackId
    (fun t => with_notes t
       (map (fun n => match updateMap !! note_id n with
                      | Some updates => apply_note_updates n updates
                      | None => n
                      end) (notes t))) p.

Definition removeNotes (trackId : string) (noteIds : list string) (p : ProjectState)
  : ProjectState :=
  let noteIdSet : gset string := list_to_set noteIds in
  on_track trackId
    (fun t => with_notes t
       (List.filter (fun n => negb (bool_decide (note_id n ∈ noteIdSet))) (notes t))) p.

(** The [Project] of types/index.ts. *)
Record ProjectFile := mkProjectFile {
  file_name : string;
  file_bpm : Q;
  file_timeSignature : Q * Q;
  file_tracks : list Track }.

Definition exportProject (p : ProjectState) : ProjectFile :=
  mkProjectFile (projectName p) (bpm p) (timeSignature p) (tracks p).

Definition importProject (project : ProjectFile) (p : ProjectState) (o : Outside)
  : ProjectState * Outside :=
  let ci := ColorPalette.resetColorIndex (colorIndex o) in
  let ci := ColorPalette.setColorIndex (length (file_tracks project)) ci in
  (mkProject (file_name project) (file_bpm project) (file_timeSignature project)
             (file_tracks project)
             (match file_tracks project with
              | t :: _ => Some (track_id t)
              | [] => None
              end),
   mkOutside (uuid o) ci).

Definition resetProject (p : ProjectState) (o : Outside) : ProjectState * Outside :=
  (mkProject "Untitled Project" 120 (4, 4) [] None,
   mkOutside (uuid o) (ColorPalette.resetColorIndex (colorIndex o))).

(** The edits of the note data the piano roll makes. *)
Inductive NoteEdit :=
| EAddNote (trackId : string) (note : NoteFields)
| ERemoveNote (trackId noteId : string)
| EUpdateNote (trackId noteId : string) (updates : NoteUpdates)
| EUpdateNotes (trackId : string) (noteUpdates : list (string * NoteUpdates))
| ERemoveNotes (trackId : string) (noteIds : list string)
| EDuplicateNotes (trackId : string) (noteIds : list string).

Definition apply_edit (e : NoteEdit) (p : ProjectState) (g : Uuid)
  : ProjectState * Uuid :=
  match e with
  | EAddNote trackId note => addNote trackId note p g
  | ERemoveNote trackId noteId => (removeNote trackId noteId p, g)
  | EUpdateNote trackId noteId updates => (updateNote trackId noteId updates p, g)
  | EUpdateNotes trackId noteUpdates => (updateNotes trackId noteUpdates p, g)
  | ERemoveNotes trackId noteIds => (removeNotes trackId noteIds p, g)
  | EDuplicateNotes trackId noteIds =>
      let '(_, p', g') := duplicateNotes trackId noteIds p g in (p', g')
  end.

End ProjectActions.

(** ** audio/recorder.ts: the WAV encoding *)

Module Wav.

(** The [n] low bytes of an integer, lowest first (bytes are numbers
    from 0 to 255). *)
Fixpoint to_le (n : nat) (v : Z) : list Z :=
  match n with
  | O => []
  | S n' => (v mod 256)%Z :: to_le n' (v / 256)%Z
  end.

(** The number a sequence of bytes stands for, lowest byte first. *)
Fixpoint from_le (bs : list Z) : Z :=
  match bs with
  | [] => 0
  | b :: bs' => (b + 256 * from_le bs')%Z
  end.

(** A write into a [DataView]: outside the buffer it throws a
    [RangeError] ([None]). *)
Definition write_bytes (offset : nat) (bs : list Z) (view : list Z) : option (list Z) :=
  if (offset + length bs <=? length view)%nat
  then Some (take offset view ++ bs ++ drop (offset + length bs) view)
  else None.

Definition setUint8 (offset : nat) (value : Z) (view : list Z) : option (list Z) :=
  write_bytes offset (to_le 1 value) view.

(** [view.setUint16(offset, value, true)] *)
Definition setUint16 (offset : nat) (value : Z) (view : list Z) : option (list Z) :=
  write_bytes offset (to_le 2 value) view.

(** [view.setUint32(offset, value, true)] *)
Definition setUint32 (offset : nat) (value : Z) (view : list Z) : option (list Z) :=
  write_bytes offset (to_le 4 value) view.

Fixpoint writeString (view : list Z) (offset : nat) (str : string) : option (list Z) :=
  match str with
  | EmptyString => Some view
  | String c str' =>
      match setUint8 offset (Z.of_nat (nat_of_ascii c)) view with
      | Some view' => writeString view' (S offset) str'
      | None => None
      end
  end.

Definition createWavHeader (dataLength numChannels sampleRate : Z) : option (list Z) :=
  let view := replicate 44 0%Z in
  view ← writeString view 0 "RIFF";
  view ← setUint32 4 (36 + dataLength) view;
  view ← writeString view 8 "WAVE";
  view ← writeString view 12 "fmt ";
  view ← setUint32 16 16 view;
  view ← setUint16 20 1 view;
  view ← setUint16 22 numChannels view;
  view ← setUint32 24 sampleRate view;
  view ← setUint32 28 (sampleRate * numChannels * 2) view;
  view ← setUint16 32 (numChannels * 2) view;
  view ← setUint16 34 16 view;
  view ← writeString view 36 "data";
  view ← setUint32 40 dataLength view;
  Some view.

(** A store into an [Int16Array]: the fraction is dropped and the
    integer wraps into 16 signed bits. *)
Definition to_int16 (v : Q) : Z :=
  ((Grid.truncate v + 32768) mod 65536 - 32768)%Z.

(** One sample, from float to 16-bit PCM. *)
Definition pcm_sample (x : Q) : Z :=
  let s := JS.Math_max (-1) (JS.Math_min 1 x) in
  to_int16 (if JS.gt 0 s then s * 32768 else s * 32767).

(** An [AudioBuffer]: its channels, each of [buf_length] samples. *)
Record AudioBuffer := mkAudioBuffer {
  channelData : list (list Q);
  buf_length : nat;
  buf_sampleRate : Z }.

Definition numberOfChannels (b : AudioBuffer) : nat := length (channelData b).

(** The inner loop: the samples of one channel go to every
    [numChannels]-th place.  A store outside a typed array does nothing. *)
Definition interleave_channel (numChannels channel : nat) (data : list Q)
    (len : nat) (interleaved : list Q) : list Q :=
  fold_left
    (fun interleaved i =>
       match data !! i with
       | Some x => <[(i * numChannels + channel)%nat := x]> interleaved
       | None => interleaved
       end)
    (seq 0 len) interleaved.

Definition interleave (b : AudioBuffer) : list Q :=
  let numChannels := numberOfChannels b in
  fold_left
    (fun interleaved channel =>
       match channelData b !! channel with
       | Some data => interleave_channel numChannels channel data (buf_length b) interleaved
       | None => interleaved
       end)
    (seq 0 numChannels)
    (replicate (buf_length b * numChannels) 0).

(** The bytes of the file.  The samples are laid out lowest byte first,
    as a little-endian host shows an [Int16Array] through a
    [Uint8Array]. *)
Definition audioBufferToWav (b : AudioBuffer) : option (list Z) :=
  let pcm := map pcm_sample (interleave b) in
  wavHeader ← createWavHeader (Z.of_nat (length pcm) * 2)
                              (Z.of_nat (numberOfChannels b)) (buf_sampleRate b);
  Some (wavHeader ++ flat_map (to_le 2) pcm).

(** A character of [a-z], [A-Z] or [0-9]. *)
Definition is_alnum (c : ascii) : bool :=
  let n := nat_of_ascii c in
  ((97 <=? n) && (n <=? 122) || (65 <=? n) && (n <=? 90) || (48 <=? n) && (n <=? 57))%nat.

Definition to_lower (c : ascii) : ascii :=
  let n := nat_of_ascii c in
  if ((65 <=? n) && (n <=? 90))%nat then ascii_of_nat (n + 32) else c.

Fixpoint map_chars (f : ascii -> ascii) (s : string) : string :=
  match s with
  | EmptyString => EmptyString
  | String c s' => String (f c) (map_chars f s')
  end.

(** [projectName.replace(/[^a-z0-9]/gi, '_').toLowerCase()], on names
    made of characters with codes below 256. *)
Definition file_stem (projectName : string) : string :=
  map_chars to_lower
    (map_chars (fun c => if is_alnum c then c else "_"%char) projectName).

(** The name under which [exportProject] offers the file. *)
Definition download_name (projectName : string) : string :=
  file_stem projectName +:+ ".wav".

End Wav.

(** ** components/PianoRoll.tsx, components/NoteBlock.tsx: the gestures
    that make and change notes *)

Module Gestures.
Import Grid.

Definition BASE_NOTE_HEIGHT : Q := 20.

(** A pointer position inside the grid, in pixels, scroll included. *)
Record Pointer := mkPointer { px : Q; py : Q }.

(** [getPositionFromEvent]: the beat and the pitch under the pointer. *)
Definition getPositionFromEvent (horizontalZoom verticalZoom : Q) (e : Pointer)
  : Q * Q :=
  let pixelsPerBeat := getPixelsPerBeat horizontalZoom in
  let noteHeight := BASE_NOTE_HEIGHT * verticalZoom in
  let beat := px e / pixelsPerBeat in
  let pitch_ := inject_Z NoteHelpers.MAX_MIDI_NOTE - Math_floor (py e / noteHeight) in
  (JS.Math_max 0 beat,
   JS.Math_max (inject_Z NoteHelpers.MIN_MIDI_NOTE)
               (JS.Math_min (inject_Z NoteHelpers.MAX_MIDI_NOTE) pitch_)).

(** Drawing: the note handed to [addNote] when the button pressed at
    [down] is released at [up]. *)
Definition drawn_note (gridSnap : GridSnap) (horizontalZoom verticalZoom : Q)
    (down up : Pointer) : ProjectActions.NoteFields :=
  let snapBeats := gridSnapToBeats gridSnap in
  let '(downBeat, downPitch) := getPositionFromEvent horizontalZoom verticalZoom down in
  let drawStart := (snapToGrid downBeat gridSnap, downPitch) in
  let '(upBeat, _) := getPositionFromEvent horizontalZoom verticalZoom up in
  let snappedEnd := snapToGrid upBeat gridSnap in
  let startBeat := JS.Math_min (fst drawStart) snappedEnd in
  let endBeat := JS.Math_max (fst drawStart) snappedEnd in
  let duration_ := JS.Math_max snapBeats (endBeat - startBeat + snapBeats) in
  ProjectActions.mkNoteFields (snd drawStart) startBeat duration_ (4 # 5).

(** Resizing: the update sent while the handle of a note is dragged by
    [deltaX] pixels. *)
Definition resize_update (gridSnap : GridSnap) (pixelsPerBeat : Q) (note : Note)
    (deltaX : Q) : ProjectActions.NoteUpdates :=
  let snapBeats := gridSnapToBeats gridSnap in
  let startDuration := duration note in
  let deltaDuration := deltaX / pixelsPerBeat in
  let rawDuration := startDuration + deltaDuration in
  let snappedDuration :=
    JS.Math_max snapBeats (Math_round (rawDuration / snapBeats) * snapBeats) in
  ProjectActions.mkNoteUpdates None None None (Some snappedDuration) None.

(** Dragging: the update sent while a note is dragged by [deltaX] and
    [deltaY] pixels. *)
Definition drag_update (gridSnap : GridSnap) (pixelsPerBeat noteHeight minMidi maxMidi : Q)
    (note : Note) (deltaX deltaY : Q) : ProjectActions.NoteUpdates :=
  let startBeat := start note in
  let startPitch := pitch note in
  let deltaBeat := deltaX / pixelsPerBeat in
  let deltaPitch := - Math_round (deltaY / noteHeight) in
  let rawStart := startBeat + deltaBeat in
  let snappedStart := JS.Math_max 0 (snapToGrid rawStart gridSnap) in
  let newPitch := JS.Math_max minMidi (JS.Math_min maxMidi (startPitch + deltaPitch)) in
  ProjectActions.mkNoteUpdates None (Some newPitch) (Some snappedStart) None None.

End Gestures.

(** ** The tempo field of the transport bar *)

Module TransportBar.

(** [x || 120]: the numbers [0] and [NaN] are falsy. *)
Definition or_120 (x : JSString.number) : JSString.number :=
  match x with
  | JSString.Finite q => if Qeq_bool q 0 then JSString.Finite 120 else JSString.Finite q
  | JSString.NaN => JSString.Finite 120
  end.

(** [onChange] of the tempo field: [setBpm(parseInt(e.target.value) || 120)],
    [parsed] being what [parseInt] makes of the text. *)
Definition onChange (parsed : JSString.number) (p : Project.ProjectState)
  : option Project.ProjectState :=
  ProjectActions.setBpm (or_120 parsed) p.

End TransportBar.

(** ** stores/uiStore.ts: the selection *)

Module UI.

Record Selection := mkSelection {
  noteIds : list string;
  sel_trackId : option string }.

Definition empty_selection : Selection := mkSelection [] None.

Definition setSelection (selection : Selection) (s : Selection) : Selection := selection.

Definition clearSelection (s : Selection) : Selection := mkSelection [] None.

(** A track id taken as a condition: [null] and the empty string count
    as false. *)
Definition truthy (t : option string) : bool :=
  match t with
  | Some (String _ _) => true
  | _ => false
  end.

Definition addToSelection (noteId trackId : string) (s : Selection) : Selection :=
  if truthy (sel_trackId s) && negb (bool_decide (sel_trackId s = Some trackId))
  then mkSelection [noteId] (Some trackId)
  else if negb (bool_decide (noteId ∈ noteIds s))
       then mkSelection (noteIds s ++ [noteId]) (Some trackId)
       else s.

Definition removeFromSelection (noteId : string) (s : Selection) : Selection :=
  mkSelection (List.filter (fun id => negb (bool_decide (id = noteId))) (noteIds s))
              (sel_trackId s).

Definition MIN_ZOOM : Q := 1 # 4.
Definition MAX_ZOOM : Q := 4.

Definition setHorizontalZoom (zoom : Q) : Q :=
  JS.Math_max MIN_ZOOM (JS.Math_min MAX_ZOOM zoom).

Definition zoomIn (current : Q) : Q := setHorizontalZoom (current * (5 # 4)).
Definition zoomOut (current : Q) : Q := setHorizontalZoom (current / (5 # 4)).

(** The selection actions that build a selection note by note. *)
Inductive SelectionOp :=
| SAdd (noteId trackId : string)
| SRemove (noteId : string)
| SClear.

Definition selection_step (s : Selection) (o : SelectionOp) : Selection :=
  match o with
  | SAdd noteId trackId => addToSelection noteId trackId s
  | SRemove noteId => removeFromSelection noteId s
  | SClear => clearSelection s
  end.

Definition selection_run (ops : list SelectionOp) : Selection :=
  fold_left selection_step ops empty_selection.

End UI.

(** ** Further specification-level notions *)

Module MoreSpecs.
Import Project ProjectActions.

(** The selected track, when there is one, is a track of the project. *)
Definition selection_valid (p : ProjectState) : Prop :=
  match selectedTrackId p with
  | Some i => ∃ t, t ∈ tracks p ∧ track_id t = i
  | None => True
  end.

(** [n] calls of [addTrack()] in a row. *)
Fixpoint add_tracks (n : nat) (p : ProjectState) (o : Outside)
  : ProjectState * Outside :=
  match n with
  | O => (p, o)
  | S n' => let '(p1, o1) := addTrack None p o in add_tracks n' p1 o1
  end.

(** Everything of the project but the notes of its tracks. *)
Definition same_project (p p' : ProjectState) : Prop :=
  projectName p' = projectName p ∧ bpm p' = bpm p ∧
  timeSignature p' = timeSignature p ∧
  selectedTrackId p' = selectedTrackId p ∧
  Specs.same_tracks (tracks p) (tracks p').

(** No note of a track named [trackId] has its id among [noteIds]. *)
Definition absent (trackId : string) (noteIds : list string) (p : ProjectState) : Prop :=
  ∀ t n, t ∈ tracks p → track_id t = trackId → n ∈ notes t → note_id n ∉ noteIds.

(** The transport store after a sequence of actions. *)
Definition transport_run (acts : list Transport.Action) (s : Transport.TransportState)
  : Transport.TransportState :=
  fold_left (fun s a => Transport.step a s) acts s.

(** The loop region is not inverted. *)
Definition loop_ordered (l : LoopRegion) : Prop := loop_start l <= loop_end l.

(** The ids the engine has recorded are pairwise different, are those of
    the events on the transport, and lie between [k] and the next id the
    transport will give. *)
Definition ids_between (k : nat) (e : Engine.EngineState) : Prop :=
  NoDup (Engine.scheduledEvents e) ∧
  Specs.tracked e ∧
  Forall (fun i => (k ≤ i < Engine.nextEventId (Engine.transport e))%nat)
         (Engine.scheduledEvents e) ∧
  (k ≤ Engine.nextEventId (Engine.transport e))%nat.

(** The character codes of a string. *)
Fixpoint codes (s : string) : list Z :=
  match s with
  | EmptyString => []
  | String c s' => Z.of_nat (nat_of_ascii c) :: codes s'
  end.

(** The field of [n] bytes at [offset], read lowest byte first. *)
Definition le_field (offset n : nat) (bytes : list Z) : Z :=
  Wav.from_le (take n (drop offset bytes)).

(** The bytes at [offset] spell [tag]. *)
Definition tag_at (offset : nat) (tag : string) (bytes : list Z) : Prop :=
  take (String.length tag) (drop offset bytes) = codes tag.

(** A number of 16 bits read as signed. *)
Definition signed16 (v : Z) : Z := ((v + 32768) mod 65536 - 32768)%Z.

(** A character of [a-z], [0-9] or the underscore. *)
Definition plain_char (c : ascii) : bool :=
  let n := nat_of_ascii c in
  ((97 <=? n) && (n <=? 122) || (48 <=? n) && (n <=? 57) || (n =? 95))%nat.

Fixpoint all_chars (f : ascii -> bool) (s : string) : bool :=
  match s with
  | EmptyString => true
  | String c s' => f c && all_chars f s'
  end.

(** The ranges of the data model: a note starts at or after beat 0,
    lasts, and has a pitch from 24 to 95. *)
Definition valid_note (n : Note) : Prop :=
  0 <= start n ∧ 0 < duration n ∧ 24 <= pitch n ∧ pitch n <= 95.

(** The note [addNote] makes of the fields under an id. *)
Definition note_of (id : string) (f : ProjectActions.NoteFields) : Note :=
  mkNote id (ProjectActions.f_pitch f) (ProjectActions.f_start f)
         (ProjectActions.f_duration f) (ProjectActions.f_velocity f).

(** Every id is added under a track id that is not the empty string. *)
Definition named_tracks (ops : list UI.SelectionOp) : Prop :=
  ∀ n t, UI.SAdd n t ∈ ops → t ≠ EmptyString.

End MoreSpecs.

(** * Properties *)


(** ** Numeric primitives *)

Lemma gt_spec a b : JS.gt a b = true <-> b < a.
Proof.
  unfold JS.gt. rewrite negb_true_iff.
  destruct (Qle_bool a b) eqn:E.
  - apply Qle_bool_iff in E. split; [discriminate | intros H; exfalso].
    apply (Qlt_irrefl b). eapply Qlt_le_trans; eauto.
  - split; [intros _ | reflexivity].
    apply Qnot_le_lt. intros H. apply Qle_bool_iff in H. congruence.
Qed.


(** ** The rounding of doubles *)

Section DoubleRounding.
Import Double.

Lemma pow2_pos (e : Z) : 0 < pow2 e.
Proof. apply Qpower_0_lt. reflexivity. Qed.

Lemma pow2_add (a b : Z) : pow2 (a + b) == pow2 a * pow2 b.
Proof. apply Qpower_plus. discriminate. Qed.

Lemma pow2_le (a b : Z) : (a <= b)%Z -> pow2 a <= pow2 b.
Proof. intros H. apply Qpower_le_compat_l; [exact H | discriminate]. Qed.

Lemma pow2_lt_inv (a b : Z) : pow2 a < pow2 b -> (a < b)%Z.
Proof. intros H. apply (Qpower_lt_compat_l_inv 2); [exact H | reflexivity]. Qed.

Lemma pow2_Z (n : Z) : (0 <= n)%Z -> pow2 n == inject_Z (2 ^ n).
Proof. intros H. symmetry. exact (Zpower_Qpower 2 n H). Qed.

Lemma pow2_sub (a c : Z) :
  (0 <= a)%Z -> (0 <= c)%Z -> pow2 (a - c) == inject_Z (2 ^ a) / inject_Z (2 ^ c).
Proof.
  intros Ha Hc. rewrite <- (pow2_Z a Ha), <- (pow2_Z c Hc).
  apply Qpower_minus. discriminate.
Qed.

(** A quotient of positive integers against a fraction. *)
Lemma frac_le (A C P : Z) (q : positive) :
  (0 < C)%Z -> (A * Z.pos q <= P * C)%Z -> inject_Z A / inject_Z C <= P # q.
Proof.
  intros HC H. apply Qle_shift_div_r.
  - change 0 with (inject_Z 0). by rewrite <- Zlt_Qlt.
  - unfold Qle, Qmult, inject_Z. cbn. lia.
Qed.

Lemma frac_lt (A C P : Z) (q : positive) :
  (0 < C)%Z -> (P * C < A * Z.pos q)%Z -> P # q < inject_Z A / inject_Z C.
Proof.
  intros HC H. apply Qlt_shift_div_l.
  - change 0 with (inject_Z 0). by rewrite <- Zlt_Qlt.
  - unfold Qlt, Qmult, inject_Z. cbn. lia.
Qed.

(** [ilog2 x] is the exponent of the binade of [x]. *)
Lemma ilog2_spec (x : Q) :
  ~ x == 0 -> pow2 (ilog2 x) <= Qabs x /\ Qabs x < pow2 (ilog2 x + 1).
Proof.
  intros Hx. destruct x as [p q].
  assert (Hp : (0 < Z.abs p)%Z).
  { destruct (Z.eq_dec p 0%Z) as [-> | Hne]; [exfalso; apply Hx; reflexivity | lia]. }
  unfold ilog2. cbn [Qnum Qden].
  change (Qabs (p # q)) with (Z.abs p # q).
  set (a := Z.log2 (Z.abs p)). set (c := Z.log2 (Z.pos q)).
  assert (Ha : (0 <= a)%Z) by apply Z.log2_nonneg.
  assert (Hc : (0 <= c)%Z) by apply Z.log2_nonneg.
  destruct (Z.log2_spec (Z.abs p) Hp) as [Ha1 Ha2]. fold a in Ha1, Ha2.
  destruct (Z.log2_spec (Z.pos q) (Pos2Z.is_pos q)) as [Hc1 Hc2]. fold c in Hc1, Hc2.
  assert (Hpa : (0 < 2 ^ a)%Z) by (apply Z.pow_pos_nonneg; lia).
  assert (Hpc : (0 < 2 ^ c)%Z) by (apply Z.pow_pos_nonneg; lia).
  rewrite <- Z.add_1_r in Ha2, Hc2.
  rewrite Z.pow_add_r in Ha2, Hc2 by lia. change (2 ^ 1)%Z with 2%Z in Ha2, Hc2.
  destruct (Qle_bool (pow2 (a - c)) (Z.abs p # q)) eqn:E.
  - apply Qle_bool_iff in E. split; [exact E |].
    replace (a - c + 1)%Z with ((a + 1) - c)%Z by lia.
    rewrite pow2_sub by lia. apply frac_lt; [exact Hpc |].
    rewrite Z.pow_add_r by lia. change (2 ^ 1)%Z with 2%Z. nia.
  - assert (Hlt : Z.abs p # q < pow2 (a - c)).
    { apply Qnot_le_lt. intros H. apply Qle_bool_iff in H. congruence. }
    replace (a - c - 1 + 1)%Z with (a - c)%Z by lia. split; [| exact Hlt].
    replace (a - c - 1)%Z with (a - (c + 1))%Z by lia.
    rewrite pow2_sub by lia. apply frac_le; [apply Z.pow_pos_nonneg; lia |].
    rewrite Z.pow_add_r by lia. change (2 ^ 1)%Z with 2%Z. nia.
Qed.

(** Rounding to the nearest integer moves a number by at most a half. *)
Lemma round_half_even_error (x : Q) :
  x - (1 # 2) <= inject_Z (round_half_even x) /\
  inject_Z (round_half_even x) <= x + (1 # 2).
Proof.
  unfold round_half_even.
  pose proof (Qfloor_le x) as Hlo. pose proof (Qlt_floor x) as Hhi.
  rewrite inject_Z_plus in Hhi. change (inject_Z 1) with 1 in Hhi.
  destruct (Qcompare_spec (x - inject_Z (Qfloor x)) (1 # 2)) as [E | E | E].
  - destruct (Z.even (Qfloor x)); [| rewrite inject_Z_plus; change (inject_Z 1) with 1]; lra.
  - lra.
  - rewrite inject_Z_plus. change (inject_Z 1) with 1. lra.
Qed.

End DoubleRounding.

Section DoubleRoundTrip.
Import Double.

(** Inside the normal range, rounding moves a positive number by at most
    the fraction [2^-53] of itself. *)
Lemma nearest_error (x : Q) :
  pow2 (-1022) <= x ->
  x * (1 - unit_roundoff) <= nearest x /\ nearest x <= x * (1 + unit_roundoff).
Proof.
  intros Hx.
  assert (Hpos : 0 < x) by (eapply Qlt_le_trans; [apply pow2_pos | exact Hx]).
  unfold nearest. destruct (Qeq_bool x 0) eqn:E; [apply Qeq_bool_iff in E; lra |].
  clear E. assert (Hnz : ~ x == 0) by lra.
  destruct (ilog2_spec x Hnz) as [Hlo Hhi]. rewrite Qabs_pos in Hlo, Hhi by lra.
  assert (HE : (-1022 < ilog2 x + 1)%Z) by (apply pow2_lt_inv; lra).
  unfold ulp_exponent, prec, emin. rewrite Z.max_l by lia.
  change (53 - 1)%Z with 52%Z.
  pose proof (round_half_even_error (x / pow2 (ilog2 x - 52))) as [H1 H2].
  pose proof (pow2_pos (ilog2 x - 52)) as He.
  assert (Hp : pow2 (ilog2 x) == pow2 (ilog2 x - 52) * 4503599627370496).
  { replace (ilog2 x) with ((ilog2 x - 52) + 52)%Z at 1 by lia. apply pow2_add. }
  revert H1 H2 He Hp.
  generalize (round_half_even (x / pow2 (ilog2 x - 52))). intros n.
  generalize (pow2 (ilog2 x - 52)). intros P H1 H2 He Hp.
  assert (Hy : x / P * P == x) by (field; lra).
  apply (Qmult_le_compat_r _ _ P) in H1; [| lra].
  apply (Qmult_le_compat_r _ _ P) in H2; [| lra].
  assert (E1 : (x / P - (1 # 2)) * P == x - (1 # 2) * P) by (rewrite <- Hy at 2; ring).
  assert (E2 : (x / P + (1 # 2)) * P == x + (1 # 2) * P) by (rewrite <- Hy at 2; ring).
  rewrite E1 in H1. rewrite E2 in H2. unfold unit_roundoff. lra.
Qed.

(** A positive number of the normal range rounds to a finite double. *)
Lemma round_normal (x : Q) :
  pow2 (-1022) <= x -> x <= pow2 1023 ->
  exists r, round x = Some r /\
            x * (1 - unit_roundoff) <= r /\ r <= x * (1 + unit_roundoff).
Proof.
  intros Hlo Hhi. destruct (nearest_error x Hlo) as [H1 H2].
  assert (Hpos : 0 < x) by (eapply Qlt_le_trans; [apply pow2_pos | exact Hlo]).
  exists (nearest x). split; [| by split].
  unfold round, emax. destruct (Qle_bool _ _) eqn:E; [| done].
  apply Qle_bool_iff in E.
  assert (Hn : 0 <= nearest x) by (unfold unit_roundoff in H1; lra).
  rewrite Qabs_pos in E by exact Hn.
  assert (Hp : pow2 1024 == pow2 1023 * 2) by (apply (pow2_add 1023 1)).
  pose proof (pow2_pos 1023) as Hp0.
  revert E Hp Hp0 Hhi H2. unfold unit_roundoff.
  generalize (pow2 1024) (pow2 1023) (nearest x). intros; lra.
Qed.

Lemma round_zero (x : Q) : x == 0 -> round x = Some 0.
Proof.
  intros Hx. unfold round, nearest.
  apply Qeq_bool_iff in Hx. rewrite Hx. reflexivity.
Qed.

(** The conversions on doubles: in the tempo range of the store and for
    beats of the normal range, both give a finite double, the seconds
    within three and the beats found again within five units of
    round-off. *)
Lemma double_round_trip (b bpm : Q) :
  40 <= bpm <= 240 -> pow2 (-1000) <= b <= pow2 1000 ->
  exists s r,
    beatsToSeconds b bpm = Some s /\ secondsToBeats s bpm = Some r /\
    Qabs (s - b * 60 / bpm) <= 3 * unit_roundoff * (b * 60 / bpm) /\
    Qabs (r - b) <= 5 * unit_roundoff * b.
Proof.
  intros [Hb1 Hb2] [Hlo Hhi].
  assert (HL : pow2 (-1000) == pow2 (-1022) * 4194304) by apply (pow2_add (-1022) 22).
  assert (HH : pow2 1023 == pow2 1000 * 8388608) by apply (pow2_add 1000 23).
  pose proof (pow2_pos (-1022)) as HL0.
  assert (Hb0 : 0 < b) by (eapply Qlt_le_trans; [apply pow2_pos | exact Hlo]).
  assert (HB : b / bpm * bpm == b) by (field; lra).
  assert (HB0 : 0 < b / bpm) by (apply Qlt_shift_div_l; lra).
  assert (HBlo : 40 * (b / bpm) <= b).
  { rewrite <- HB at 2. rewrite (Qmult_comm (b / bpm) bpm).
    apply Qmult_le_compat_r; lra. }
  assert (HBhi : b <= 240 * (b / bpm)).
  { rewrite <- HB at 1. rewrite (Qmult_comm (b / bpm) bpm).
    apply Qmult_le_compat_r; lra. }
  assert (HS : b * 60 / bpm == 60 * (b / bpm)) by (field; lra).
  unfold beatsToSeconds, secondsToBeats, div, mul.
  assert (Hnz : Qeq_bool bpm 0 = false).
  { destruct (Qeq_bool bpm 0) eqn:E; [apply Qeq_bool_iff in E; lra | done]. }
  rewrite Hnz. change (Qeq_bool 60 0) with false. cbv iota.
  revert HB HB0 HBlo HBhi HS. generalize (b / bpm). intros B HB HB0 HBlo HBhi HS.
  revert HL HH HL0 Hlo Hhi.
  generalize (pow2 (-1000)) (pow2 1000). intros lo hi HL HH HL0 Hlo Hhi.
  destruct (round_normal B) as (r1 & -> & H1a & H1b); [lra | lra |].
  cbn [mbind option_bind].
  unfold unit_roundoff in *.
  destruct (round_normal (r1 * 60)) as (r2 & -> & H2a & H2b); [lra | lra |].
  unfold unit_roundoff in *. exists r2.
  change (r2 / 60) with (r2 * (1 # 60)).
  destruct (round_normal (r2 * (1 # 60))) as (r3 & -> & H3a & H3b); [lra | lra |].
  unfold unit_roundoff in *.
  assert (H4lo : (1 - (4 # 9007199254740992)) * b <= r3 * bpm).
  { rewrite <- HB. rewrite Qmult_assoc. apply Qmult_le_compat_r; [| lra].
    clear -H1a H2a H3a HB0. lra. }
  assert (H4hi : r3 * bpm <= (1 + (7 # 18014398509481984)) * b).
  { rewrite <- HB. rewrite Qmult_assoc. apply Qmult_le_compat_r; [| lra].
    clear -H1b H2b H3b HB0. lra. }
  destruct (round_normal (r3 * bpm)) as (r4 & Hr4 & H4a & H4b); [lra | lra |].
  unfold unit_roundoff in *. exists r4. cbn [mbind option_bind]. rewrite Hr4.
  split; [done | split; [done |]].
  split; apply Qabs_Qle_condition; rewrite ?HS.
  - clear -H1a H1b H2a H2b HB0. split; lra.
  - clear -H4a H4b H4lo H4hi Hb0. split; lra.
Qed.

Lemma double_round_trip_zero (b bpm : Q) :
  b == 0 -> 40 <= bpm <= 240 ->
  beatsToSeconds b bpm = Some 0 /\ secondsToBeats 0 bpm = Some 0.
Proof.
  intros Hb [Hb1 Hb2].
  assert (Hnz : Qeq_bool bpm 0 = false).
  { destruct (Qeq_bool bpm 0) eqn:E; [apply Qeq_bool_iff in E; lra | done]. }
  unfold beatsToSeconds, secondsToBeats, div, mul. rewrite Hnz.
  rewrite (round_zero (b / bpm)) by (rewrite Hb; field; lra).
  split; [reflexivity |].
  change (Qeq_bool 60 0) with false. cbv iota.
  rewrite (round_zero (0 / 60)) by reflexivity.
  cbn [mbind option_bind]. apply round_zero. ring.
Qed.

End DoubleRoundTrip.

Section TimeMapping.
Import TimeHelpers.

(** C8 (as amended): for every beat value [b >= 0] and tempo
    [40 <= bpm <= 240], over exact arithmetic [beatsToSeconds b bpm]
    equals [b * 60 / bpm] and [secondsToBeats (beatsToSeconds b bpm) bpm]
    gives [b] back.  On doubles, [b = 0] gives 0 seconds and 0 beats
    exactly, and for [2^-1000 <= b <= 2^1000] both conversions give
    finite doubles, the seconds within the fraction [3 * 2^-53] of
    [b * 60 / bpm] and the beats found again within the fraction
    [5 * 2^-53] of [b]. *)
Theorem beats_seconds_round_trip (b bpm : Q) :
  0 <= b -> 40 <= bpm <= 240 ->
  beatsToSeconds b bpm == b * 60 / bpm /\
  secondsToBeats (beatsToSeconds b bpm) bpm == b /\
  (b == 0 ->
   Double.beatsToSeconds b bpm = Some 0 /\ Double.secondsToBeats 0 bpm = Some 0) /\
  (Double.pow2 (-1000) <= b <= Double.pow2 1000 ->
   exists s r,
     Double.beatsToSeconds b bpm = Some s /\ Double.secondsToBeats s bpm = Some r /\
     Qabs (s - b * 60 / bpm) <= 3 * Double.unit_roundoff * (b * 60 / bpm) /\
     Qabs (r - b) <= 5 * Double.unit_roundoff * b).
Proof.
  intros _ Hbpm.
  assert (Hnz : ~ bpm == 0) by (destruct Hbpm; lra).
  split; [unfold beatsToSeconds; field; exact Hnz |].
  split; [unfold beatsToSeconds, secondsToBeats; field; exact Hnz |].
  split.
  - intros Hb. by apply double_round_trip_zero.
  - intros Hb. by apply double_round_trip.
Qed.

Lemma beats_seconds_round_trip_witness :
  beatsToSeconds (7 # 2) 120 == (7 # 2) * 60 / 120 /\
  secondsToBeats (beatsToSeconds (7 # 2) 120) 120 == 7 # 2 /\
  exists s r,
    Double.beatsToSeconds (7 # 2) 120 = Some s /\
    Double.secondsToBeats s 120 = Some r /\
    Qabs (s - (7 # 2) * 60 / 120) <= 3 * Double.unit_roundoff * ((7 # 2) * 60 / 120) /\
    Qabs (r - (7 # 2)) <= 5 * Double.unit_roundoff * (7 # 2).
Proof.
  destruct (beats_seconds_round_trip (7 # 2) 120) as (H1 & H2 & _ & H4).
  - vm_compute. discriminate.
  - split; vm_compute; discriminate.
  - split; [exact H1 | split; [exact H2 |]].
    apply H4. split; vm_compute; discriminate.
Defined.

End TimeMapping.

Section TimeMappingExamples.
Import Floats.

(** C8 as stated fails in the implementation: the round trip is not
    within the machine epsilon [2^-52].  13.5 beats at 100 bpm come back
    as [13.5 + 2^-48] (13.500000000000004), which is further than
    [2^-52] from 13.5, and further than the fraction [2^-52] of 13.5;
    the primitive floats give the same number.  The round trip is not
    the identity on simpler inputs either: 0.625 beats at 41 bpm come
    back as [0.625 - 2^-53] (0.6249999999999999).  And not every
    [b >= 0] comes back at all: for the double [3 * 2^1022] at 40 bpm
    the seconds are [Infinity], and the smallest positive double,
    [2^-1074], at 41 bpm comes back as 0. *)
Lemma round_trip_exceeds_epsilon :
  ((s ← Double.beatsToSeconds (27 # 2) 100; Double.secondsToBeats s 100)
   = Some (7599824371187714 # 562949953421312) /\
   (7599824371187714 # 562949953421312) - (27 # 2) == Double.pow2 (-48) /\
   Double.epsilon < Double.pow2 (-48) /\
   Double.epsilon * (27 # 2) < Double.pow2 (-48)) /\
  (Binary64.same (Binary64.value (Binary64.of_Z 27 / Binary64.of_Z 2)%float)
                 (Some (27 # 2)) = true /\
   Binary64.same
     (Binary64.value
        (Binary64.secondsToBeats
           (Binary64.beatsToSeconds (Binary64.of_Z 27 / Binary64.of_Z 2)%float
                                    (Binary64.of_Z 100))
           (Binary64.of_Z 100)))
     (Some (7599824371187714 # 562949953421312)) = true) /\
  ((s ← Double.beatsToSeconds (5 # 8) 41; Double.secondsToBeats s 41)
   = Some (5629499534213119 # 9007199254740992) /\
   (5 # 8) - (5629499534213119 # 9007199254740992) == Double.pow2 (-53)) /\
  (Binary64.same (Binary64.value (Z.ldexp (Binary64.of_Z 3) 1022))
                 (Some (3 * Double.pow2 1022)) = true /\
   Double.beatsToSeconds (3 * Double.pow2 1022) 40 = None /\
   Binary64.value
     (Binary64.beatsToSeconds (Z.ldexp (Binary64.of_Z 3) 1022) (Binary64.of_Z 40))
   = None) /\
  Binary64.same
    (s ← Double.beatsToSeconds (Double.pow2 (-1074)) 41; Double.secondsToBeats s 41)
    (Some 0) = true.
Proof.
  repeat split; vm_compute; reflexivity.
Qed.

(** The rounding of [Double] is that of the machine: for every number of
    eighths of a beat up to 4 beats and every whole tempo from 40 to
    240, both conversions and the round trip give the same number on
    the primitive floats. *)
Lemma double_agrees_with_binary64 :
  forallb (fun k => forallb (Binary64.agree k) (Binary64.range 40 201))
          (Binary64.range 0 33) = true.
Proof. vm_compute. reflexivity. Qed.

End TimeMappingExamples.

Section TransportProperties.
Import Transport.

(** C6: [setLoopRegion start end] stores [min start end] and
    [max start end], so the stored region is never inverted, and it
    leaves [loop.enabled] as it was. *)
Theorem setLoopRegion_ordered (s : TransportState) (a b : Q) :
  let s' := setLoopRegion a b s in
  loop_start (loop s') = Qmin a b /\
  loop_end (loop s') = Qmax a b /\
  loop_start (loop s') <= loop_end (loop s') /\
  loop_enabled (loop s') = loop_enabled (loop s).
Proof.
  cbn. repeat split.
  unfold JS.Math_min, JS.Math_max.
  apply Qle_trans with a; [apply Q.le_min_l | apply Q.le_max_l].
Qed.

Lemma not_both_reachable (s : TransportState) :
  reachable s -> isPlaying s && isPaused s = false.
Proof.
  induction 1 as [st | a s Hs IH]; [reflexivity |].
  destruct a; cbn [step]; try exact IH; try reflexivity.
  - unfold togglePlay. destruct (isPlaying s); reflexivity.
  - unfold setCurrentBeat.
    destruct (loop_enabled (loop s) && JS.ge beat (loop_end (loop s)));
      exact IH.
Qed.

(** C7: [play] sets isPlaying and clears isPaused keeping currentBeat;
    [pause] clears isPlaying and sets isPaused keeping currentBeat;
    [stop] clears both and resets currentBeat to 0; no reachable state
    has both flags set. *)
Theorem transport_state_machine :
  (forall s, isPlaying (play s) = true /\ isPaused (play s) = false /\
             currentBeat (play s) = currentBeat s) /\
  (forall s, isPlaying (pause s) = false /\ isPaused (pause s) = true /\
             currentBeat (pause s) = currentBeat s) /\
  (forall s, isPlaying (stop s) = false /\ isPaused (stop s) = false /\
             currentBeat (stop s) = 0) /\
  (forall s, reachable s -> ~ (isPlaying s = true /\ isPaused s = true)).
Proof.
  repeat split.
  intros s Hs [Hp Hq]. apply not_both_reachable in Hs.
  rewrite Hp, Hq in Hs. discriminate.
Qed.

End TransportProperties.

(** ** Array primitives *)

Section ArrayFacts.
Context {A : Type}.
Implicit Types l : list A.

Lemma pop_snoc l x : JSArray.pop (l ++ [x]) = (Some x, l).
Proof.
  induction l as [|y l IH]; [reflexivity |].
  change ((y :: l) ++ [x]) with (y :: (l ++ [x])).
  cbn [JSArray.pop]. rewrite IH.
  destruct (l ++ [x]) eqn:E; [|reflexivity].
  destruct l; discriminate.
Qed.

Lemma pop_nonempty l :
  l ≠ [] → ∃ x l', l = l' ++ [x] ∧ JSArray.pop l = (Some x, l').
Proof.
  intros Hne. destruct l as [|x l' _] using rev_ind; [done |].
  exists x, l'. split; [done | apply pop_snoc].
Qed.

Lemma pop_length l : length (snd (JSArray.pop l)) = pred (length l).
Proof.
  destruct l as [|x l' _] using rev_ind; [reflexivity |].
  rewrite pop_snoc, length_app. cbn. lia.
Qed.

Lemma shift_drop l : snd (JSArray.shift l) = drop 1 l.
Proof. by destruct l. Qed.

(** Keeping the last [n] elements can be done in two stages. *)
Lemma keep_last_app (n : nat) (X M : list A) :
  drop (length (drop (length X - n) X ++ M) - n) (drop (length X - n) X ++ M)
  = drop (length (X ++ M) - n) (X ++ M).
Proof.
  rewrite !length_app, length_drop.
  destruct (decide (length X ≤ n)) as [Hle | Hgt].
  - replace (length X - n)%nat with 0%nat by lia. cbn [drop].
    by replace (length X - 0)%nat with (length X) by lia.
  - replace (length X - (length X - n) + length M - n)%nat with (length M) by lia.
    replace (length X + length M - n)%nat
      with ((length X - n) + length M)%nat by lia.
    rewrite <- drop_drop. f_equal.
    rewrite drop_app_le by lia. done.
Qed.

End ArrayFacts.

(** ** History store *)

Section HistoryProperties.
Import History Specs.

Lemma JSON_clone_id (ns : list Note) : JSON_clone ns = ns.
Proof.
  unfold JSON_clone. induction ns as [|[] ns IH]; [done |].
  cbn. by rewrite IH.
Qed.

Lemma past_pushState tracks h :
  past (pushState tracks h)
  = drop (length (past h ++ [take_snapshot tracks]) - maxHistory h)
         (past h ++ [take_snapshot tracks])
    ∨ (length (past h) > maxHistory h)%nat.
Proof.
  destruct (decide (length (past h) ≤ maxHistory h)) as [Hle | Hgt]; [left | right; lia].
  unfold pushState. cbn [past].
  rewrite length_app. cbn [length].
  destruct (Nat.ltb_spec (maxHistory h) (length (past h) + 1)) as [Hlt | Hge].
  - rewrite shift_drop. f_equal. lia.
  - by replace (length (past h) + 1 - maxHistory h)%nat with 0%nat by lia.
Qed.

Lemma within_cap_step h o : within_cap h → within_cap (step h o).
Proof.
  intros [Hmax Hlen]. unfold within_cap, MAX_HISTORY in *.
  destruct o as [tracks | c | c |]; cbn [step]; [| | | split; [exact Hmax | cbn; lia]].
  - split; [exact Hmax |].
    destruct (past_pushState tracks h) as [-> | Hgt]; [| lia].
    cbn [pushState future length]. rewrite length_drop, length_app. cbn. lia.
  - unfold undo. destruct (Nat.eqb_spec (length (past h)) 0) as [Hz | Hnz].
    + done.
    + pose proof (pop_length (past h)) as Hpop.
      destruct (JSArray.pop (past h)) as [prev newPast]. cbn in Hpop |- *.
      split; [exact Hmax |]. destruct c; cbn; lia.
  - unfold redo. destruct (Nat.eqb_spec (length (future h)) 0) as [Hz | Hnz].
    + done.
    + destruct (future h) as [|f fs] eqn:Hf; [done |]. cbn in *.
      split; [exact Hmax |]. destruct c; cbn; rewrite ?length_app; cbn; lia.
Qed.

Lemma within_cap_run ops h : within_cap h → within_cap (run ops h).
Proof.
  revert h. induction ops as [|o ops IH]; intros h Hh; [exact Hh |].
  cbn. apply IH, within_cap_step, Hh.
Qed.

Lemma within_cap_initial : within_cap initial.
Proof. split; [reflexivity | cbn; unfold MAX_HISTORY; lia]. Qed.

Lemma run_pushes_past (l : list (list Track)) h :
  maxHistory h = MAX_HISTORY → (length (past h) ≤ MAX_HISTORY)%nat →
  past (run (map OPush l) h)
  = drop (length (past h ++ map take_snapshot l) - MAX_HISTORY)
         (past h ++ map take_snapshot l).
Proof.
  revert h. induction l as [|t l IH]; intros h Hmax Hlen.
  - cbn. rewrite app_nil_r.
    by replace (length (past h) - MAX_HISTORY)%nat with 0%nat by lia.
  - cbn [map run fold_left step].
    change (fold_left step (map OPush l) (pushState t h))
      with (run (map OPush l) (pushState t h)).
    assert (Hpast : past (pushState t h)
                    = drop (length (past h ++ [take_snapshot t]) - MAX_HISTORY)
                           (past h ++ [take_snapshot t])).
    { destruct (past_pushState t h) as [E | Hgt]; [by rewrite <- Hmax | lia]. }
    rewrite IH.
    + rewrite Hpast, keep_last_app. by rewrite <- app_assoc.
    + exact Hmax.
    + rewrite Hpast, length_drop, length_app. cbn. lia.
Qed.

(** C5: from the empty history, whatever sequence of pushState, undo,
    redo and clear calls is made, [past] holds at most 50 snapshots and [past] and
    [future] together at most 2 * 50; a push onto a full [past] drops its
    oldest entry, and after pushing any list of states [past] holds the
    snapshots of the last 50 of them, in order (of 60 states: the last
    50, the first 10 gone). *)
Theorem history_bounded_fifo :
  (∀ ops,
     let h := run ops initial in
     (length (past h) ≤ 50)%nat ∧
     (length (past h) + length (future h) ≤ 2 * 50)%nat) ∧
  (∀ ops tracks,
     let h := run ops initial in
     past (pushState tracks h)
     = if (length (past h) <? 50)%nat
       then past h ++ [take_snapshot tracks]
       else drop 1 (past h) ++ [take_snapshot tracks]) ∧
  (∀ l : list (list Track),
     past (run (map OPush l) initial)
     = drop (length l - 50) (map take_snapshot l)).
Proof.
  split; [| split].
  - intros ops h.
    destruct (within_cap_run ops initial within_cap_initial) as [_ Hlen].
    fold h in Hlen. unfold MAX_HISTORY in Hlen. lia.
  - intros ops tracks h.
    destruct (within_cap_run ops initial within_cap_initial) as [Hmax Hlen].
    fold h in Hmax, Hlen. unfold MAX_HISTORY in *.
    destruct (past_pushState tracks h) as [-> | Hgt]; [| lia].
    rewrite Hmax, length_app. cbn [length].
    destruct (Nat.ltb_spec (length (past h)) 50) as [Hlt | Hge].
    + by replace (length (past h) + 1 - 50)%nat with 0%nat by lia.
    + replace (length (past h) + 1 - 50)%nat with 1%nat by lia.
      rewrite drop_app_le by lia. done.
  - intros l. rewrite run_pushes_past; [| reflexivity | cbn; lia].
    cbn [initial past app]. by rewrite length_map.
Qed.

End HistoryProperties.

(** ** Undo and redo of the project store *)

Section UndoRedo.
Import History Project Specs.

Lemma snapshot_fold_other (ts : list Track) (m : NotesSnapshot) (i : string) :
  i ∉ map track_id ts →
  fold_left (fun snapshot track => <[track_id track := JSON_clone (notes track)]> snapshot)
            ts m !! i = m !! i.
Proof.
  revert m. induction ts as [|t ts IH]; intros m Hi; [done |].
  cbn in Hi |- *. apply not_elem_of_cons in Hi as [Hne Hi].
  rewrite IH by exact Hi. by apply lookup_insert_ne.
Qed.

Lemma snapshot_fold_lookup (ts : list Track) (m : NotesSnapshot) (t : Track) :
  NoDup (map track_id ts) → t ∈ ts →
  fold_left (fun snapshot track => <[track_id track := JSON_clone (notes track)]> snapshot)
            ts m !! track_id t = Some (notes t).
Proof.
  revert m. induction ts as [|a ts IH]; intros m Hnd Hin.
  - by apply elem_of_nil in Hin.
  - cbn in Hnd |- *. apply NoDup_cons in Hnd as [Ha Hnd].
    apply elem_of_cons in Hin as [-> | Hin].
    + rewrite snapshot_fold_other by exact Ha.
      rewrite lookup_insert_eq. by rewrite JSON_clone_id.
    + by apply IH.
Qed.

Lemma take_snapshot_lookup (ts : list Track) (t : Track) :
  NoDup (map track_id ts) → t ∈ ts →
  take_snapshot ts !! track_id t = Some (notes t).
Proof. apply snapshot_fold_lookup. Qed.

Lemma with_notes_skeleton (a b : Track) :
  skeleton a = skeleton b → with_notes b (notes a) = a.
Proof. destruct a, b. unfold skeleton, with_notes. cbn. congruence. Qed.

Lemma skeleton_track_id (a b : Track) :
  skeleton a = skeleton b → track_id b = track_id a.
Proof. destruct a, b. unfold skeleton, with_notes. cbn. congruence. Qed.

(** Applying the snapshot of [A] to tracks that differ from [A] only in
    their notes gives [A] back. *)
Lemma apply_snapshot_restores (A B : list Track) :
  NoDup (map track_id A) → same_tracks A B →
  apply_snapshot (take_snapshot A) B = A.
Proof.
  intros Hnd Hsame. unfold apply_snapshot.
  assert (Hall : ∀ t, t ∈ A → take_snapshot A !! track_id t = Some (notes t))
    by (intros; by apply take_snapshot_lookup).
  clear Hnd. generalize dependent (take_snapshot A). intros S HS.
  revert B Hsame. induction A as [|a A IH]; intros [|b B] Hsame; try done.
  unfold same_tracks in Hsame. cbn [map] in Hsame.
  assert (Hab : skeleton a = skeleton b) by congruence.
  assert (Hrest : same_tracks A B) by (unfold same_tracks; congruence).
  cbn [map].
  rewrite (skeleton_track_id a b Hab), (HS a) by set_solver.
  rewrite (with_notes_skeleton a b Hab). f_equal.
  apply IH; [intros; apply HS; set_solver | exact Hrest].
Qed.

Lemma same_tracks_apply (S : NotesSnapshot) (ts : list Track) :
  same_tracks ts (apply_snapshot S ts).
Proof.
  unfold same_tracks, apply_snapshot. induction ts as [|t ts IH]; [done |].
  cbn [map]. rewrite <- IH. f_equal. by destruct (S !! track_id t).
Qed.

Lemma same_tracks_ids (A B : list Track) :
  same_tracks A B → map track_id B = map track_id A.
Proof.
  unfold same_tracks. intros H.
  apply (f_equal (map track_id)) in H. by rewrite !map_map in H.
Qed.

Lemma same_tracks_trans (A B C : list Track) :
  same_tracks A B → same_tracks B C → same_tracks A C.
Proof. unfold same_tracks. congruence. Qed.

(** Applying the snapshot of [A] to tracks that carry the ids of [A], in
    their order, gives them the notes of [A]. *)
Lemma apply_snapshot_notes (A B : list Track) :
  NoDup (map track_id A) → map track_id B = map track_id A →
  map notes (apply_snapshot (take_snapshot A) B) = map notes A.
Proof.
  intros Hnd Hids. unfold apply_snapshot.
  assert (Hall : ∀ t, t ∈ A → take_snapshot A !! track_id t = Some (notes t))
    by (intros; by apply take_snapshot_lookup).
  clear Hnd. generalize dependent (take_snapshot A). intros S HS.
  revert B Hids. induction A as [|a A IH]; intros [|b B] Hids; try done.
  cbn [map] in Hids |- *. injection Hids as Hab Hrest.
  rewrite Hab, (HS a) by set_solver.
  change (notes (with_notes b (notes a))) with (notes a). f_equal.
  apply IH; [intros; apply HS; set_solver | exact Hrest].
Qed.

Lemma undo_some p h (prev : NotesSnapshot) (older : list NotesSnapshot) :
  past h = older ++ [prev] →
  Project.undo (p, h)
  = (set_tracks p (apply_snapshot prev (tracks p)),
     mkHistory older (take_snapshot (tracks p) :: future h) (maxHistory h)).
Proof.
  intros Hp. unfold Project.undo, canUndo, History.undo. rewrite Hp.
  rewrite length_app. cbn [length].
  replace (0 <? length older + 1)%nat with true
    by (symmetry; apply Nat.ltb_lt; lia).
  replace (length older + 1 =? 0)%nat with false
    by (symmetry; apply Nat.eqb_neq; lia).
  cbn [negb]. by rewrite pop_snoc.
Qed.

Lemma redo_some p h (next : NotesSnapshot) (later : list NotesSnapshot) :
  future h = next :: later →
  Project.redo (p, h)
  = (set_tracks p (apply_snapshot next (tracks p)),
     mkHistory (past h ++ [take_snapshot (tracks p)]) later (maxHistory h)).
Proof.
  intros Hf. unfold Project.redo, canRedo, History.redo. by rewrite Hf.
Qed.

Lemma push_push_past (t0 t1 : list Track) h :
  (2 ≤ maxHistory h)%nat →
  ∃ older, past (pushState t1 (pushState t0 h))
           = older ++ [take_snapshot t0; take_snapshot t1].
Proof.
  intros Hmax.
  assert (H1 : ∃ Y, past (pushState t0 h) = Y ++ [take_snapshot t0]).
  { unfold pushState. cbn [past]. destruct (_ <? _)%nat eqn:E; [| by eexists].
    destruct (past h) as [|a P]; [| by exists P].
    apply Nat.ltb_lt in E. cbn in E. lia. }
  destruct H1 as [Y HY].
  unfold pushState at 1. cbn [past maxHistory]. rewrite HY.
  change (maxHistory (pushState t0 h)) with (maxHistory h).
  rewrite <- app_assoc. cbn [app].
  destruct (_ <? _)%nat eqn:E; [| by eexists].
  destruct Y as [|a Y]; [| by exists Y].
  apply Nat.ltb_lt in E. cbn in E. lia.
Qed.

(** C4 (as amended): when there is something to undo and the tracks have
    distinct ids, undo followed at once by redo gives the project state
    back, notes included, and leaves [future] as it was.  And when the
    history (of capacity 50) is saved at S0 before the edit that gives
    S1, and saved again at S1 before the edit that gives S2 (so that S0
    and then S1 are pushed, S2 being current), and the tracks of S0 have
    distinct ids:
    - if both edits change nothing but notes (S1 and S2 have the tracks
      of S0, in their order, all fields other than the notes being
      equal), two undos show S1 then S0 and two redos show S1 then S2;
    - if S1 and S2 carry the track ids of S0, in the same order (no
      track added, removed or moved), two undos show the note arrays of
      S1 then of S0 and the first redo those of S1, all other fields of
      the tracks staying those of S2, and the second redo shows S2. *)
Theorem undo_redo_round_trip :
  (∀ p h,
     past h ≠ [] → NoDup (map track_id (tracks p)) →
     fst (Project.redo (Project.undo (p, h))) = p ∧
     future (snd (Project.redo (Project.undo (p, h)))) = future h) ∧
  (∀ p h (S1 S2 : list Track),
     let S0 := tracks p in
     NoDup (map track_id S0) → same_tracks S0 S1 → same_tracks S0 S2 →
     maxHistory h = MAX_HISTORY →
     let st := edit S2 (saveToHistory (edit S1 (saveToHistory (p, h)))) in
     let u1 := Project.undo st in
     let u2 := Project.undo u1 in
     let r1 := Project.redo u2 in
     let r2 := Project.redo r1 in
     tracks (fst u1) = S1 ∧ tracks (fst u2) = S0 ∧
     tracks (fst r1) = S1 ∧ tracks (fst r2) = S2) ∧
  (∀ p h (S1 S2 : list Track),
     let S0 := tracks p in
     NoDup (map track_id S0) →
     map track_id S1 = map track_id S0 → map track_id S2 = map track_id S0 →
     maxHistory h = MAX_HISTORY →
     let st := edit S2 (saveToHistory (edit S1 (saveToHistory (p, h)))) in
     let u1 := Project.undo st in
     let u2 := Project.undo u1 in
     let r1 := Project.redo u2 in
     let r2 := Project.redo r1 in
     map notes (tracks (fst u1)) = map notes S1 ∧
     map notes (tracks (fst u2)) = map notes S0 ∧
     map notes (tracks (fst r1)) = map notes S1 ∧
     tracks (fst r2) = S2 ∧
     same_tracks S2 (tracks (fst u1)) ∧ same_tracks S2 (tracks (fst u2)) ∧
     same_tracks S2 (tracks (fst r1))).
Proof.
  split; [| split].
  - intros p h Hne Hnd.
    destruct (pop_nonempty (past h) Hne) as (prev & older & Hp & _).
    rewrite (undo_some p h prev older Hp).
    erewrite redo_some by reflexivity. cbn [fst snd future tracks set_tracks].
    split; [| done].
    rewrite apply_snapshot_restores; [by destruct p | exact Hnd |].
    apply same_tracks_apply.
  - intros p h S1 S2 S0 Hnd H01 H02 Hmax st u1 u2 r1 r2.
    assert (Hid : ∀ X, same_tracks S0 X → NoDup (map track_id X)).
    { intros X HX. replace (map track_id X) with (map track_id S0); [done |].
      unfold same_tracks in HX.
      apply (f_equal (map track_id)) in HX. by rewrite !map_map in HX. }
    assert (H12 : same_tracks S1 S2) by (unfold same_tracks in *; congruence).
    destruct (push_push_past S0 S1 h) as [older Hpast];
      [rewrite Hmax; unfold MAX_HISTORY; lia |].
    assert (Hst : st = (set_tracks (set_tracks p S1) S2,
                        pushState S1 (pushState S0 h))) by reflexivity.
    assert (Hu1 : u1 = (set_tracks (set_tracks (set_tracks p S1) S2) S1,
                        mkHistory (older ++ [take_snapshot S0])
                                  [take_snapshot S2] (maxHistory h))).
    { subst u1. rewrite Hst.
      rewrite (undo_some _ _ (take_snapshot S1) (older ++ [take_snapshot S0]))
        by (rewrite Hpast; by rewrite <- app_assoc).
      cbn [tracks set_tracks].
      rewrite (apply_snapshot_restores S1 S2);
        [reflexivity | by apply Hid | exact H12]. }
    assert (Hu2 : u2 = (set_tracks (set_tracks (set_tracks (set_tracks p S1) S2) S1) S0,
                        mkHistory older [take_snapshot S1; take_snapshot S2]
                                  (maxHistory h))).
    { subst u2. rewrite Hu1.
      rewrite (undo_some _ _ (take_snapshot S0) older) by reflexivity.
      cbn [tracks set_tracks future].
      rewrite (apply_snapshot_restores S0 S1); [reflexivity | exact Hnd | exact H01]. }
    assert (Hr1 : tracks (fst r1) = S1 ∧
                  future (snd r1) = [take_snapshot S2]).
    { subst r1. rewrite Hu2.
      rewrite (redo_some _ _ (take_snapshot S1) [take_snapshot S2]) by reflexivity.
      cbn [tracks set_tracks fst snd future].
      rewrite (apply_snapshot_restores S1 S0);
        [done | by apply Hid | unfold same_tracks in *; congruence]. }
    destruct Hr1 as [Hr1 Hf1].
    assert (Hr2 : tracks (fst r2) = S2).
    { subst r2. destruct r1 as [p1 h1]. cbn [fst snd] in Hr1, Hf1.
      rewrite (redo_some _ _ (take_snapshot S2) []) by exact Hf1.
      cbn [tracks set_tracks fst]. rewrite Hr1.
      rewrite (apply_snapshot_restores S2 S1);
        [done | by apply Hid | unfold same_tracks in *; congruence]. }
    rewrite Hu1, Hu2. cbn [fst tracks set_tracks]. done.
  - intros p h S1 S2 S0 Hnd Hi1 Hi2 Hmax st u1 u2 r1 r2.
    destruct (push_push_past S0 S1 h) as [older Hpast];
      [rewrite Hmax; unfold MAX_HISTORY; lia |].
    assert (Hst : st = (set_tracks (set_tracks p S1) S2,
                        pushState S1 (pushState S0 h))) by reflexivity.
    set (U1 := apply_snapshot (take_snapshot S1) S2).
    set (U2 := apply_snapshot (take_snapshot S0) U1).
    set (R1 := apply_snapshot (take_snapshot U1) U2).
    assert (Hu1 : u1 = (set_tracks (set_tracks (set_tracks p S1) S2) U1,
                        mkHistory (older ++ [take_snapshot S0])
                                  [take_snapshot S2] (maxHistory h))).
    { subst u1. rewrite Hst.
      by rewrite (undo_some _ _ (take_snapshot S1) (older ++ [take_snapshot S0]))
        by (rewrite Hpast; by rewrite <- app_assoc). }
    assert (Hu2 : u2 = (set_tracks (set_tracks (set_tracks (set_tracks p S1) S2) U1) U2,
                        mkHistory older [take_snapshot U1; take_snapshot S2]
                                  (maxHistory h))).
    { subst u2. rewrite Hu1.
      by rewrite (undo_some _ _ (take_snapshot S0) older) by reflexivity. }
    assert (Hr1 : r1 = (set_tracks
                          (set_tracks (set_tracks (set_tracks (set_tracks p S1) S2) U1) U2)
                          R1,
                        mkHistory (older ++ [take_snapshot U2])
                                  [take_snapshot S2] (maxHistory h))).
    { subst r1. rewrite Hu2.
      by rewrite (redo_some _ _ (take_snapshot U1) [take_snapshot S2]) by reflexivity. }
    assert (Hr2 : tracks (fst r2) = apply_snapshot (take_snapshot S2) R1).
    { subst r2. rewrite Hr1.
      by rewrite (redo_some _ _ (take_snapshot S2) []) by reflexivity. }
    assert (HsU1 : same_tracks S2 U1) by apply same_tracks_apply.
    assert (HsU2 : same_tracks S2 U2).
    { apply same_tracks_trans with U1; [exact HsU1 | apply same_tracks_apply]. }
    assert (HsR1 : same_tracks S2 R1).
    { apply same_tracks_trans with U2; [exact HsU2 | apply same_tracks_apply]. }
    assert (HiU1 : map track_id U1 = map track_id S0)
      by (rewrite (same_tracks_ids S2 U1 HsU1); exact Hi2).
    assert (HiU2 : map track_id U2 = map track_id S0)
      by (rewrite (same_tracks_ids S2 U2 HsU2); exact Hi2).
    assert (HnU1 : map notes U1 = map notes S1).
    { apply apply_snapshot_notes; [by rewrite Hi1 | by rewrite Hi1, Hi2]. }
    rewrite Hu1, Hu2, Hr1, Hr2. cbn [fst tracks set_tracks].
    split; [exact HnU1 |].
    split; [apply apply_snapshot_notes; [exact Hnd | exact HiU1] |].
    split.
    { unfold R1. rewrite apply_snapshot_notes; [exact HnU1 | by rewrite HiU1 |].
      by rewrite HiU1, HiU2. }
    split; [| done].
    apply apply_snapshot_restores; [by rewrite Hi2 | exact HsR1].
Qed.

End UndoRedo.

Section UndoRedoExamples.
Import History Project Specs Examples.

Lemma undo_redo_round_trip_witness :
  (fst (Project.redo (Project.undo (project S1, pushState S0 initial))) = project S1) ∧
  (let st := edit S2 (saveToHistory (edit S1 (saveToHistory (project S0, initial)))) in
   tracks (fst (Project.undo st)) = S1 ∧
   tracks (fst (Project.undo (Project.undo st))) = S0 ∧
   tracks (fst (Project.redo (Project.undo (Project.undo st)))) = S1 ∧
   tracks (fst (Project.redo (Project.redo (Project.undo (Project.undo st))))) = S2) ∧
  (let T1 := [track "A" true false [n1]] in
   let T2 := [track "A" true false [n1; n2]] in
   let st := edit T2 (saveToHistory (edit T1 (saveToHistory (project S0, initial)))) in
   map notes (tracks (fst (Project.undo st))) = map notes T1 ∧
   map notes (tracks (fst (Project.undo (Project.undo st)))) = map notes S0 ∧
   map notes (tracks (fst (Project.redo (Project.undo (Project.undo st))))) = map notes T1 ∧
   tracks (fst (Project.redo (Project.redo (Project.undo (Project.undo st))))) = T2).
Proof.
  assert (Hnd1 : NoDup (map track_id S1))
    by (apply NoDup_cons; split; [apply not_elem_of_nil | apply NoDup_nil_2]).
  assert (Hnd0 : NoDup (map track_id S0))
    by (apply NoDup_cons; split; [apply not_elem_of_nil | apply NoDup_nil_2]).
  split; [| split].
  - apply (proj1 undo_redo_round_trip (project S1) (pushState S0 initial)).
    + discriminate.
    + exact Hnd1.
  - apply (proj1 (proj2 undo_redo_round_trip) (project S0) initial S1 S2).
    + exact Hnd0.
    + reflexivity.
    + reflexivity.
    + reflexivity.
  - destruct (proj2 (proj2 undo_redo_round_trip) (project S0) initial
                [track "A" true false [n1]] [track "A" true false [n1; n2]])
      as (H1 & H2 & H3 & H4 & _).
    + exact Hnd0.
    + reflexivity.
    + reflexivity.
    + reflexivity.
    + done.
Defined.

(** C4 as stated fails in three ways.  (a) In the state reached by one
    save, one edit and one undo, [past] is empty and [future] is not:
    a further undo changes nothing and the redo after it changes the
    notes.  (b) After [pushState S1] and [pushState S2] with S0 current,
    the first undo shows S2 and the second S1, not S1 and S0.  (c) With
    two tracks under one id, undo then redo overwrites the notes of the
    first with those of the second. *)
Lemma undo_redo_as_stated_fails :
  (let st := Project.undo (edit S1 (saveToHistory (project S0, initial))) in
   tracks (fst st) = S0 ∧ past (snd st) = [] ∧
   tracks (fst (Project.redo (Project.undo st))) = S1 ∧ S1 ≠ S0) ∧
  (let st := (project S0, pushState S2 (pushState S1 initial)) in
   tracks (fst (Project.undo st)) = S2 ∧ S2 ≠ S1 ∧
   tracks (fst (Project.undo (Project.undo st))) = S1 ∧ S1 ≠ S0) ∧
  (let st := (project twins, pushState S0 initial) in
   tracks (fst (Project.redo (Project.undo st)))
   = [track "A" false false [n2]; track "A" false false [n2]] ∧
   tracks (fst (Project.redo (Project.undo st))) ≠ twins).
Proof.
  repeat split; try reflexivity; try discriminate.
Qed.

(** Undo restores notes and nothing else, track by track under its id.
    With a track added between the two saves, two undos do not give S0:
    the added track stays.  With a track muted between them, two undos
    give the note arrays of S0 and the mute stays. *)
Example undo_restores_notes_only :
  (let T1 := [track "A" false false [n1]; track "B" false false []] in
   let T2 := [track "A" false false [n1]; track "B" false false [n2]] in
   let st := edit T2 (saveToHistory (edit T1 (saveToHistory (project S0, initial)))) in
   tracks (fst (Project.undo st)) = T1 ∧
   tracks (fst (Project.undo (Project.undo st)))
   = [track "A" false false []; track "B" false false []]) ∧
  (let T1 := [track "A" true false [n1]] in
   let T2 := [track "A" true false [n1; n2]] in
   let st := edit T2 (saveToHistory (edit T1 (saveToHistory (project S0, initial)))) in
   tracks (fst (Project.undo st)) = T1 ∧
   tracks (fst (Project.undo (Project.undo st))) = [track "A" true false []] ∧
   map notes (tracks (fst (Project.undo (Project.undo st)))) = map notes S0).
Proof.
  repeat split; reflexivity.
Qed.

End UndoRedoExamples.

(** ** Duplicating notes *)

Section DuplicateNotes.
Import Project Specs.

Lemma copy_notes_spec (ns : list Note) (g : Uuid) :
  copy_notes ns g
  = (zip_with with_id ns (upcoming g (length ns)),
     mkUuid (draws g) (drawn g + length ns)).
Proof.
  revert g. induction ns as [|n ns IH]; intros g.
  - cbn. destruct g. cbn. by rewrite Nat.add_0_r.
  - cbn [copy_notes uuidv4]. rewrite IH. cbn [draws drawn length].
    unfold upcoming. cbn [seq map zip_with draws drawn]. f_equal.
    f_equal. lia.
Qed.

Lemma zip_with_id_ids (ns : list Note) (ids : list string) :
  length ids = length ns → map note_id (zip_with with_id ns ids) = ids.
Proof.
  revert ids. induction ns as [|n ns IH]; intros [|i ids] Hlen; try done.
  cbn. f_equal. apply IH. by injection Hlen.
Qed.

Lemma zip_with_id_copies (ns : list Note) (ids : list string) :
  length ids = length ns → Forall2 copy_of ns (zip_with with_id ns ids).
Proof.
  revert ids. induction ns as [|n ns IH]; intros [|i ids] Hlen;
    cbn in Hlen |- *; try discriminate; constructor.
  - by unfold copy_of.
  - apply IH. by injection Hlen.
Qed.

Lemma matched_filter (noteIds : list string) (ns : list Note) :
  List.filter (fun n => bool_decide (note_id n ∈ (list_to_set noteIds : gset string))) ns
  = matched noteIds ns.
Proof.
  unfold matched. apply List.filter_ext. intros n.
  apply bool_decide_ext. apply elem_of_list_to_set.
Qed.

(** C2 (as amended): when [trackId] names a track, [duplicateNotes]
    appends to its notes one copy of every note whose id is among
    [noteIds], each copy with the position, pitch, duration and velocity
    of its original, under the identifiers the source gives next (so new
    and pairwise distinct whenever the source gives such); the notes
    already there stay as they were, in front of the copies; the
    identifiers returned are those of the copies, in the order in which
    the originals stand in the track. *)
Theorem duplicateNotes_appends_copies
    (trackId : string) (noteIds : list string) (p : ProjectState) (g : Uuid)
    (track : Track) :
  track_by_id (tracks p) trackId = Some track →
  let originals := matched noteIds (notes track) in
  let fresh := upcoming g (length originals) in
  NoDup fresh →
  (∀ i, i ∈ fresh → i ∉ map note_id (notes track)) →
  ∃ copies,
    duplicateNotes trackId noteIds p g
    = (map note_id copies,
       set_tracks p
         (map (fun t => if bool_decide (track_id t = trackId)
                        then with_notes t (notes t ++ copies) else t)
              (tracks p)),
       mkUuid (draws g) (drawn g + length originals)) ∧
    Forall2 copy_of originals copies ∧
    map note_id copies = fresh ∧
    NoDup (map note_id copies) ∧
    (∀ c, c ∈ copies → note_id c ∉ map note_id (notes track)).
Proof.
  intros Hfind originals fresh Hnd Hnew.
  exists (zip_with with_id originals fresh).
  assert (Hlen : length fresh = length originals)
    by (unfold fresh, upcoming; by rewrite length_map, length_seq).
  assert (Hids : map note_id (zip_with with_id originals fresh) = fresh)
    by (by apply zip_with_id_ids).
  repeat split.
  - unfold duplicateNotes. unfold track_by_id in Hfind. rewrite Hfind.
    rewrite matched_filter. fold originals.
    rewrite copy_notes_spec. reflexivity.
  - by apply zip_with_id_copies.
  - exact Hids.
  - by rewrite Hids.
  - intros c Hc. apply Hnew. rewrite <- Hids.
    apply list_elem_of_fmap. by exists c.
Qed.

End DuplicateNotes.

Section DuplicateNotesExamples.
Import Project Specs Examples.

Lemma duplicateNotes_appends_copies_witness :
  ∃ copies,
    duplicateNotes "A" ["n2"; "n1"] (project S2) letters
    = (map note_id copies,
       set_tracks (project S2)
         (map (fun t => if bool_decide (track_id t = "A")
                        then with_notes t (notes t ++ copies) else t) S2),
       mkUuid (draws letters) 2) ∧
    Forall2 copy_of [n1; n2] copies ∧
    map note_id copies = ["a"; "b"] ∧
    NoDup (map note_id copies) ∧
    (∀ c, c ∈ copies → note_id c ∉ map note_id [n1; n2]).
Proof.
  apply (duplicateNotes_appends_copies "A" ["n2"; "n1"] (project S2) letters
           (track "A" false false [n1; n2])).
  - reflexivity.
  - apply (bool_decide_unpack _). vm_compute. exact I.
  - apply Forall_forall. apply (bool_decide_unpack _). vm_compute. exact I.
Defined.

(** C2 as stated fails on the order of the result: asked to duplicate
    [n2; n1] in a track holding [n1; n2], the store returns first the id
    of the copy of [n1]. *)
Lemma duplicateNotes_order_counterexample :
  Forall (fun i => is_Some (note_by_id [n1; n2] i)) ["n2"; "n1"] ∧
  fst (fst (duplicateNotes "A" ["n2"; "n1"] (project S2) letters)) = ["a"; "b"] ∧
  note_by_id
    (notes (track "A" false false [n1; n2; with_id n1 "a"; with_id n2 "b"])) "a"
  = Some (with_id n1 "a") ∧
  ¬ returned_in_input_order "A" ["n2"; "n1"] (project S2) letters.
Proof.
  split; [| split; [| split]].
  - repeat constructor; eexists; reflexivity.
  - reflexivity.
  - reflexivity.
  - unfold returned_in_input_order.
    change (duplicateNotes "A" ["n2"; "n1"] (project S2) letters)
      with (["a"; "b"],
            project [track "A" false false [n1; n2; with_id n1 "a"; with_id n2 "b"]],
            mkUuid (draws letters) 2).
    intros H. specialize (H _ eq_refl).
    inversion H as [| newId oldId ids olds (c & n & Hc & Hn & Hcopy) Hrest]; subst.
    injection Hc as <-. injection Hn as <-.
    destruct Hcopy as [Hpitch _]. discriminate Hpitch.
Qed.

End DuplicateNotesExamples.

(** ** Scheduler *)

Section Scheduler.
Import Engine Specs.

Lemma clear_all_timeline (ids : list nat) (t : ToneTransport) :
  Forall (fun ev => fst ev ∈ ids) (timeline t) →
  timeline (fold_left (fun t id => tone_clear id t) ids t) = [].
Proof.
  revert t. induction ids as [|i ids IH]; intros t Hall.
  - cbn. destruct (timeline t) as [|ev tl]; [done |].
    apply Forall_cons in Hall as [Hin _]. by apply elem_of_nil in Hin.
  - cbn [fold_left]. apply IH. unfold tone_clear. cbn [timeline].
    induction (timeline t) as [|ev tl IHtl]; [constructor |].
    apply Forall_cons in Hall as [Hin Hall]. cbn [List.filter].
    destruct (Nat.eqb_spec (fst ev) i) as [Heq | Hne]; cbn [negb].
    + by apply IHtl.
    + constructor; [| by apply IHtl].
      apply elem_of_cons in Hin as [? | ?]; done.
Qed.

Lemma clear_tracked (e : EngineState) :
  tracked e →
  pending (clearScheduledNotes e) = [] ∧
  scheduledEvents (clearScheduledNotes e) = [] ∧
  tracked (clearScheduledNotes e).
Proof.
  intros Htr. unfold tracked, pending in *.
  assert (Hnil : timeline (transport (clearScheduledNotes e)) = []).
  { cbn. apply clear_all_timeline. rewrite <- Htr.
    apply Forall_forall. intros ev Hev.
    apply list_elem_of_fmap. by exists ev. }
  rewrite Hnil. done.
Qed.

Lemma schedule_note_pending bpm track e note :
  pending (schedule_note bpm track e note) = pending e ++ [note_event bpm track note] ∧
  trackSynths (schedule_note bpm track e note) = trackSynths e ∧
  (tracked e → tracked (schedule_note bpm track e note)).
Proof.
  unfold pending, tracked, schedule_note, tone_schedule. cbn.
  rewrite !map_app. cbn. split; [done | split; [done |]].
  by intros ->.
Qed.

Lemma schedule_notes_pending bpm track (ns : list Note) e :
  pending (fold_left (schedule_note bpm track) ns e)
  = pending e ++ map (note_event bpm track) ns ∧
  (tracked e → tracked (fold_left (schedule_note bpm track) ns e)).
Proof.
  revert e. induction ns as [|n ns IH]; intros e.
  - cbn. by rewrite app_nil_r.
  - cbn [fold_left map]. destruct (IH (schedule_note bpm track e n)) as [-> Htr].
    destruct (schedule_note_pending bpm track e n) as (-> & _ & Htr').
    rewrite <- app_assoc. split; [done | auto].
Qed.

Lemma schedule_track_pending hasSolo bpm e track :
  pending (schedule_track hasSolo bpm e track)
  = pending e ++ (if plays hasSolo track
                  then map (note_event bpm track) (notes track) else []) ∧
  (tracked e → tracked (schedule_track hasSolo bpm e track)).
Proof.
  unfold schedule_track, plays.
  destruct (muted track); cbn [negb andb]; [by rewrite app_nil_r |].
  destruct hasSolo, (solo track); cbn [negb andb orb];
    try (by rewrite app_nil_r).
  all: match goal with
       | |- context [fold_left _ _ ?e0] =>
           destruct (schedule_notes_pending bpm track (notes track) e0) as [-> Htr]
       end.
  all: split; [| intros He; apply Htr; revert He];
    unfold updateTrackSynth, createTrackSynth, pending, tracked;
    repeat (destruct (_ !! _); cbn); done.
Qed.

Lemma schedule_tracks_pending hasSolo bpm (ts : list Track) e :
  pending (fold_left (schedule_track hasSolo bpm) ts e)
  = pending e
    ++ flat_map (fun t => map (note_event bpm t) (notes t))
                (List.filter (plays hasSolo) ts) ∧
  (tracked e → tracked (fold_left (schedule_track hasSolo bpm) ts e)).
Proof.
  revert e. induction ts as [|t ts IH]; intros e.
  - cbn. by rewrite app_nil_r.
  - cbn [fold_left List.filter].
    destruct (IH (schedule_track hasSolo bpm e t)) as [-> Htr].
    destruct (schedule_track_pending hasSolo bpm e t) as [-> Htr'].
    rewrite <- app_assoc. split; [| auto].
    f_equal. destruct (plays hasSolo t); [| done].
    cbn [flat_map]. done.
Qed.

Lemma plays_active (ts : list Track) :
  List.filter (plays (existsb solo ts)) ts = active ts.
Proof.
  unfold active, plays. destruct (existsb solo ts); apply List.filter_ext; intros t.
  - cbn. apply andb_comm.
  - cbn. apply andb_true_r.
Qed.

Lemma install_pending tracks loop bpm e :
  pending (install tracks loop bpm e) = pending e ++ installation tracks bpm ∧
  (tracked e → tracked (install tracks loop bpm e)).
Proof.
  unfold install, installation, triggers. rewrite <- plays_active.
  destruct (schedule_tracks_pending (existsb solo tracks) bpm tracks (setBPM bpm e))
    as [Hp Htr].
  set (e1 := fold_left _ tracks (setBPM bpm e)) in *.
  change (pending (setBPM bpm e)) with (pending e) in Hp.
  unfold pending, tracked, tone_schedule, set_loop in *.
  destruct (loop_enabled loop); cbn; rewrite !map_app, Hp; cbn;
    (split; [by rewrite <- app_assoc |]);
    intros He; rewrite (Htr He); done.
Qed.

Lemma schedule_tracked tracks loop bpm e :
  tracked e →
  pending (scheduleNotes tracks loop bpm e) = installation tracks bpm ∧
  tracked (scheduleNotes tracks loop bpm e).
Proof.
  intros He. destruct (clear_tracked e He) as (Hp & _ & Htr).
  unfold scheduleNotes.
  destruct (install_pending tracks loop bpm (clearScheduledNotes e)) as [-> Htr'].
  rewrite Hp. split; [done | auto].
Qed.

Lemma run_tracked (calls : list Call) e : tracked e → tracked (run calls e).
Proof.
  revert e. induction calls as [|c calls IH]; intros e He; [done |].
  cbn. apply IH. destruct c as [tracks loop bpm |]; cbn [step].
  - by apply schedule_tracked.
  - by apply clear_tracked.
Qed.

Lemma initial_tracked : tracked initial.
Proof. reflexivity. Qed.

Lemma run_snoc (calls : list Call) c e : run (calls ++ [c]) e = step (run calls e) c.
Proof. unfold run. by rewrite fold_left_app. Qed.

Lemma render_tracks_events bpm (ts : list Track) hasSolo :
  flat_map (Recorder.render_track hasSolo bpm) ts
  = flat_map (fun t => map (note_event bpm t) (notes t))
             (List.filter (plays hasSolo) ts).
Proof.
  induction ts as [|t ts IH]; [done |].
  cbn [flat_map List.filter]. rewrite IH.
  unfold Recorder.render_track at 1, plays at 2.
  destruct (muted t); cbn [negb andb]; [done |].
  destruct hasSolo, (solo t); cbn [negb andb orb]; done.
Qed.

Lemma active_spec (tracks : list Track) (t : Track) :
  t ∈ active tracks ↔
  t ∈ tracks ∧
  if existsb solo tracks
  then solo t = true ∧ muted t = false
  else muted t = false.
Proof.
  unfold active. rewrite !list_elem_of_In.
  destruct (existsb solo tracks); rewrite List.filter_In.
  - rewrite andb_true_iff, negb_true_iff. done.
  - rewrite negb_true_iff. done.
Qed.

(** C3: the tracks the scheduler plays are, when some track is solo'd,
    exactly the solo'd tracks that are not muted, and otherwise exactly
    the tracks that are not muted; the events it leaves pending are the
    triggers of the notes of those tracks followed by the tick, so every
    trigger belongs to an active track; the offline renderer schedules
    the same triggers. *)
Theorem active_tracks_scheduled (calls : list Call) (tracks : list Track)
    (loop : LoopRegion) (bpm : Q) (sampleRate : option Q) (duration : Q) :
  let e := scheduleNotes tracks loop bpm (run calls initial) in
  (∀ t, t ∈ active tracks ↔
        t ∈ tracks ∧
        if existsb solo tracks
        then solo t = true ∧ muted t = false
        else muted t = false) ∧
  pending e
  = flat_map (fun t => map (note_event bpm t) (notes t)) (active tracks)
    ++ [BeatTick "16n"] ∧
  (∀ trackId frequency dur vel startTime,
     NoteTrigger trackId frequency dur vel startTime ∈ pending e →
     ∃ t, t ∈ active tracks ∧ track_id t = trackId) ∧
  Recorder.offline_events
    (Recorder.renderToWav (Recorder.mkRenderOptions tracks bpm duration sampleRate))
  = flat_map (fun t => map (note_event bpm t) (notes t)) (active tracks).
Proof.
  intros e.
  assert (Hp : pending e = installation tracks bpm).
  { apply schedule_tracked, run_tracked, initial_tracked. }
  split; [apply active_spec | split; [exact Hp | split]].
  - intros trackId frequency dur vel startTime Hin. rewrite Hp in Hin.
    unfold installation, triggers in Hin.
    apply elem_of_app in Hin as [Hin | Hin].
    + rewrite list_elem_of_In in Hin. apply in_flat_map in Hin as (t & Ht & Hin).
      apply in_map_iff in Hin as (n & Hn & _).
      exists t. split; [by apply list_elem_of_In |].
      unfold note_event in Hn. congruence.
    + apply list_elem_of_singleton in Hin. discriminate.
  - cbn. rewrite render_tracks_events. by rewrite plays_active.
Qed.

Lemma active_tracks_scheduled_witness :
  let A := Examples.track "A" false false [Examples.n1] in
  let B := Examples.track "B" false true [Examples.n2] in
  let C := Examples.track "C" true false [Examples.n3] in
  active [A; B; C] = [B] ∧
  pending (scheduleNotes [A; B; C] (mkLoop 0 16 false) 120 initial)
  = [note_event 120 B Examples.n2; BeatTick "16n"] ∧
  Recorder.offline_events
    (Recorder.renderToWav (Recorder.mkRenderOptions [A; B; C] 120 16 None))
  = [note_event 120 B Examples.n2].
Proof.
  intros A B C.
  pose proof (active_tracks_scheduled [] [A; B; C] (mkLoop 0 16 false) 120 None 16)
    as (_ & Hp & _ & Hoff).
  split; [reflexivity | split].
  - exact Hp.
  - exact Hoff.
Defined.

(** C9: [scheduleNotes] is [clearScheduledNotes] followed by the
    registrations; on every state the engine can be in, the clearing
    leaves no event pending and none recorded, and clearing again changes
    nothing; so after any sequence of calls the pending events are those
    of the last call alone: one installation after [scheduleNotes], none
    after [clearScheduledNotes]. *)
Theorem reschedule_retracts_previous (calls : list Call) :
  let e := run calls initial in
  (∀ tracks loop bpm,
     scheduleNotes tracks loop bpm e
     = install tracks loop bpm (clearScheduledNotes e)) ∧
  pending (clearScheduledNotes e) = [] ∧
  scheduledEvents (clearScheduledNotes e) = [] ∧
  clearScheduledNotes (clearScheduledNotes e) = clearScheduledNotes e ∧
  pending e
  = match last calls with
    | Some (CSchedule tracks loop bpm) => installation tracks bpm
    | Some CClear => []
    | None => []
    end.
Proof.
  intros e.
  assert (He : tracked e) by apply run_tracked, initial_tracked.
  destruct (clear_tracked e He) as (Hp & Hs & _).
  split; [done | split; [exact Hp | split; [exact Hs | split]]].
  - reflexivity.
  - subst e. destruct calls as [|c calls _] using rev_ind; [done |].
    rewrite last_snoc, run_snoc.
    assert (Hc : tracked (run calls initial)) by apply run_tracked, initial_tracked.
    destruct c as [tracks loop bpm |]; cbn [step].
    + by apply schedule_tracked.
    + by apply clear_tracked.
Qed.

End Scheduler.

(** ** Offline renderer *)

Section ExportDuration.
Import Recorder Specs Examples TimeHelpers.

(** The inner loop keeps the running maximum. *)
Lemma notes_fold_max (ns : list Note) (m : Q) :
  m <= fold_left note_step ns m ∧
  (∀ x, x ∈ map (fun n => start n + duration n) ns → x <= fold_left note_step ns m) ∧
  (fold_left note_step ns m = m
   ∨ fold_left note_step ns m ∈ map (fun n => start n + duration n) ns).
Proof.
  revert m. induction ns as [|n ns IH]; intros m; cbn [fold_left map].
  - split; [apply Qle_refl | split; [| by left]].
    intros x Hx. by apply elem_of_nil in Hx.
  - destruct (IH (note_step m n)) as (Hle & Hall & Hor).
    assert (Hstep : m <= note_step m n ∧ start n + duration n <= note_step m n ∧
                    (note_step m n = m ∨ note_step m n = start n + duration n)).
    { unfold note_step. cbv zeta.
      destruct (JS.gt (start n + duration n) m) eqn:E.
      - apply gt_spec in E.
        split; [by apply Qlt_le_weak | split; [apply Qle_refl | by right]].
      - split; [apply Qle_refl | split; [| by left]].
        apply Qnot_lt_le. intros H. apply gt_spec in H. congruence. }
    destruct Hstep as (Hm & He & Hcase).
    split; [eapply Qle_trans; eauto | split].
    + intros x Hx. apply elem_of_cons in Hx as [-> | Hx]; [| by apply Hall].
      eapply Qle_trans; eauto.
    + destruct Hor as [Heq | Hin]; [| right; by right].
      rewrite Heq. destruct Hcase as [Hc | Hc]; [by left | right].
      rewrite Hc. by left.
Qed.

Lemma tracks_fold_max (ts : list Track) (m : Q) :
  m <= fold_left track_step ts m ∧
  (∀ x, x ∈ all_ends ts → x <= fold_left track_step ts m) ∧
  (fold_left track_step ts m = m ∨ fold_left track_step ts m ∈ all_ends ts).
Proof.
  revert m. induction ts as [|t ts IH]; intros m;
    unfold all_ends; cbn [fold_left flat_map];
    [| change (flat_map _ ts) with (all_ends ts)].
  - split; [apply Qle_refl | split; [| by left]].
    intros x Hx. by apply elem_of_nil in Hx.
  - destruct (notes_fold_max (notes t) m) as (Hle1 & Hall1 & Hor1).
    fold (track_step m t) in Hle1, Hall1, Hor1.
    destruct (IH (track_step m t)) as (Hle & Hall & Hor).
    split; [eapply Qle_trans; eauto | split].
    + intros x Hx. apply elem_of_app in Hx as [Hx | Hx]; [| by apply Hall].
      eapply Qle_trans; [by apply Hall1 | exact Hle].
    + destruct Hor as [Heq | Hin]; [| right; apply elem_of_app; by right].
      rewrite Heq. destruct Hor1 as [Hc | Hc]; [by left | right].
      apply elem_of_app. by left.
Qed.

(** C1 (as amended): the export duration in beats is the larger of 16
    and the ceiling of [maxEnd], where [maxEnd] is the latest
    [note.start + note.duration] over all notes of all tracks when some
    note ends after beat 0, and 0 otherwise.  So the duration is 16 when
    no track has a note, 16 as well when no note ends after beat 16, and
    the ceiling of the latest end when that ceiling is at least 16.  The
    buffer lasts that many beats converted at the project tempo, plus 2
    seconds. *)
Theorem export_duration_spec (tracks : list Track) (bpm : Q) :
  let M := maxEnd tracks in
  (0 <= M ∧ (∀ x, x ∈ all_ends tracks → x <= M) ∧
   (M = 0 ∨ M ∈ all_ends tracks)) ∧
  export_duration tracks = Qmax 16 (inject_Z (Qceiling M)) ∧
  (all_ends tracks = [] → export_duration tracks = 16) ∧
  (M <= 16 → export_duration tracks == 16) ∧
  (16 <= inject_Z (Qceiling M) → export_duration tracks == inject_Z (Qceiling M)) ∧
  durationSeconds (exportProject tracks bpm)
  == export_duration tracks * 60 / bpm + 2.
Proof.
  intros M.
  pose proof (tracks_fold_max tracks 0) as (H0 & Hall & Hor).
  fold (maxEnd tracks) in H0, Hall, Hor. fold M in H0, Hall, Hor.
  split; [done |]. split; [reflexivity |].
  unfold export_duration, JS.Math_max, JS.Math_ceil. fold M.
  split; [| split; [| split]].
  - intros Hnil. rewrite Hnil in Hor.
    destruct Hor as [-> | Hin]; [reflexivity | by apply elem_of_nil in Hin].
  - intros HM. apply Q.max_l.
    change 16 with (inject_Z 16) in HM |- *. rewrite <- Zle_Qle.
    pose proof (Qceiling_resp_le M (inject_Z 16) HM) as Hc.
    by rewrite Qceiling_Z in Hc.
  - intros HM. by apply Q.max_r.
  - unfold exportProject, renderToWav.
    cbn [durationSeconds opt_duration opt_bpm].
    unfold beatsToSeconds, Qdiv, export_duration, JS.Math_max, JS.Math_ceil.
    subst M. generalize (Qmax 16 (inject_Z (Qceiling (maxEnd tracks)))).
    intros d. ring.
Qed.

Lemma export_duration_spec_witness :
  export_duration [track "A" false false [n1; n3]] == 20 ∧
  export_duration S1 == 16 ∧
  export_duration S0 = 16 ∧
  durationSeconds (exportProject [track "A" false false [n1; n3]] 120) == 12.
Proof.
  pose proof (export_duration_spec [track "A" false false [n1; n3]] 120)
    as (_ & _ & _ & _ & Hbig & Hsec).
  pose proof (export_duration_spec S1 120) as (_ & _ & _ & Hsmall & _).
  pose proof (export_duration_spec S0 120) as (_ & _ & Hnone & _).
  split; [| split; [| split]].
  - rewrite Hbig; [reflexivity | vm_compute; discriminate].
  - apply Hsmall. vm_compute. discriminate.
  - apply Hnone. reflexivity.
  - rewrite Hsec. reflexivity.
Defined.

(** C1 as stated fails on a project whose notes all end before beat 16:
    with the single note [n1], which ends at beat 1, the duration is 16
    beats and not the ceiling of 1. *)
Lemma export_duration_counterexample :
  all_ends S1 = [start n1 + duration n1] ∧
  inject_Z (Qceiling (start n1 + duration n1)) == 1 ∧
  export_duration S1 == 16 ∧
  ¬ export_duration S1 == inject_Z (Qceiling (start n1 + duration n1)).
Proof.
  repeat split; vm_compute; discriminate.
Qed.

End ExportDuration.

(** ** The repeating tick *)

Section Tick.
Import Engine Specs JSString.

Lemma split_no_sep (sep : ascii) (s : string) :
  occurs sep s = false → split sep s = [s].
Proof.
  induction s as [|c s IH]; [done |].
  cbn [occurs split]. intros H. apply orb_false_elim in H as [Hc Hs].
  rewrite Hc, (IH Hs). done.
Qed.

Lemma split_app (sep : ascii) (a b : string) :
  occurs sep a = false →
  split sep (a +:+ String sep b) = a :: split sep b.
Proof.
  induction a as [|c a IH]; simpl.
  - intros _. by rewrite Ascii.eqb_refl.
  - intros H. apply orb_false_elim in H as [Hc Ha].
    rewrite Hc, (IH Ha). done.
Qed.

Lemma occurs_app (sep : ascii) (a b : string) :
  occurs sep (a +:+ b) = occurs sep a || occurs sep b.
Proof.
  induction a as [|c a IH]; [done |].
  simpl. rewrite IH. apply orb_assoc.
Qed.

Lemma digits_no_colon (d : Decimal.uint) :
  occurs ":" (NilEmpty.string_of_uint d) = false.
Proof. induction d; cbn; auto. Qed.

Lemma digits_no_point (d : Decimal.uint) :
  occurs "." (NilEmpty.string_of_uint d) = false.
Proof. induction d; cbn; auto. Qed.

Lemma render_nat_nonempty (n : N) : render_nat n ≠ EmptyString.
Proof.
  unfold render_nat. destruct n as [|p]; [discriminate |].
  cbn [N.to_uint]. pose proof (DecimalPos.Unsigned.to_uint_nonnil p) as Hp.
  destruct (Pos.to_uint p); try done; discriminate.
Qed.

Lemma Number_render_nat (n : N) :
  Number (render_nat n) = Finite (inject_Z (Z.of_N n)).
Proof.
  unfold Number, render_nat.
  rewrite split_no_sep by apply digits_no_point.
  rewrite NilEmpty.usu. unfold digits_value.
  by rewrite DecimalN.Unsigned.of_to.
Qed.

Lemma Number_render_sixteenths (x : Sixteenths) :
  Number (render_sixteenths x) = Finite (value_sixteenths x).
Proof.
  destruct x as [n | n f]; [apply Number_render_nat |].
  unfold Number, render_sixteenths.
  change ("." +:+ NilEmpty.string_of_uint f)
    with (String "." (NilEmpty.string_of_uint f)).
  rewrite split_app by apply digits_no_point.
  rewrite split_no_sep by apply digits_no_point.
  pose proof (render_nat_nonempty n) as Hne.
  destruct (render_nat n) as [|c s] eqn:E; [done |]. rewrite <- E.
  unfold render_nat. rewrite !NilEmpty.usu. unfold digits_value.
  by rewrite DecimalN.Unsigned.of_to.
Qed.

Lemma sixteenths_no_colon (x : Sixteenths) :
  occurs ":" (render_sixteenths x) = false.
Proof.
  destruct x as [n | n f]; cbn [render_sixteenths]; unfold render_nat.
  - apply digits_no_colon.
  - rewrite occurs_app, digits_no_colon.
    change ("." +:+ NilEmpty.string_of_uint f)
      with (String "." (NilEmpty.string_of_uint f)).
    cbn [occurs]. by rewrite digits_no_colon.
Qed.

Lemma split_position (bars beats : N) (x : Sixteenths) :
  split ":" (position_string bars beats x)
  = [render_nat bars; render_nat beats; render_sixteenths x].
Proof.
  unfold position_string.
  change (":" +:+ render_nat beats +:+ ":" +:+ render_sixteenths x)
    with (String ":" (render_nat beats +:+ String ":" (render_sixteenths x))).
  rewrite split_app by apply digits_no_colon.
  rewrite split_app by apply digits_no_colon.
  by rewrite split_no_sep by apply sixteenths_no_colon.
Qed.

(** C10: whatever the project (its time signature included) and the
    transport state, the last event [scheduleNotes] registers is the
    repeating tick, and at a position [bars:beats:sixteenths] the tick
    passes [bars * 4 + beats + sixteenths / 4] to [onBeatUpdate]: a bar
    counts for 4 beats. *)
Theorem tick_counts_four_beats_per_bar
    (p : Project.ProjectState) (t : Transport.TransportState)
    (calls : list Call) (bars beats : N) (x : Sixteenths) :
  let e := Hook.on_play p t (run calls initial) in
  last (pending e) = Some (BeatTick "16n") ∧
  fire (BeatTick "16n") (PositionString (position_string bars beats x))
  = Some (Finite (inject_Z (Z.of_N bars) * 4 + inject_Z (Z.of_N beats)
                  + value_sixteenths x / 4)).
Proof.
  intros e. split.
  - assert (Hp : pending e = installation (Project.tracks p) (Project.bpm p)).
    { apply schedule_tracked, run_tracked, initial_tracked. }
    rewrite Hp. unfold installation. apply last_snoc.
  - cbn [fire beatTick]. rewrite split_position. cbn [map nth_number lookup list_lookup].
    rewrite !Number_render_nat, Number_render_sixteenths. reflexivity.
Qed.

End Tick.

(** ** Scenarios, by evaluation *)

Section Scenarios.
Import Examples.

Example sixty_pushes_keep_fifty :
  let l := repeat S0 10 ++ repeat S1 50 in
  History.past (History.run (map History.OPush l) History.initial)
  = repeat (History.take_snapshot S1) 50.
Proof. vm_compute. reflexivity. Qed.

Example undo_on_empty_history :
  Project.undo (project S1, History.initial) = (project S1, History.initial).
Proof. reflexivity. Qed.

Example tick_at_1_2_3 :
  Engine.beatTick (Engine.PositionString "1:2:3.5")
  = Some (JSString.Finite (1 * 4 + 2 + (3 + 5 / 10) / 4)).
Proof. reflexivity. Qed.

Example tick_on_short_position :
  Engine.beatTick (Engine.PositionString "1:2") = Some JSString.NaN.
Proof. reflexivity. Qed.

Example note_ending_at_beat_20 :
  Recorder.export_duration [track "A" false false [n3]] == 20.
Proof. vm_compute. reflexivity. Qed.

Example loop_region_swapped :
  let s := Transport.setLoopRegion 8 2 (Transport.initial (Transport.mkStored None None None)) in
  loop_start (Transport.loop s) == 2 ∧ loop_end (Transport.loop s) == 8.
Proof. split; vm_compute; reflexivity. Qed.

End Scenarios.

(** ** The grid *)

Section GridProperties.
Import Grid.

Lemma floor_unique (x : Q) (z : Z) :
  inject_Z z <= x → x < inject_Z (z + 1) → Qfloor x = z.
Proof.
  intros Hlo Hhi.
  pose proof (Qfloor_le x) as Hf1. pose proof (Qlt_floor x) as Hf2.
  assert (H1 : (z < Qfloor x + 1)%Z).
  { rewrite Zlt_Qlt. eapply Qle_lt_trans; eauto. }
  assert (H2 : (Qfloor x < z + 1)%Z).
  { rewrite Zlt_Qlt. eapply Qle_lt_trans; eauto. }
  lia.
Qed.

Lemma floor_bounds (x : Q) :
  inject_Z (Qfloor x) <= x ∧ x < inject_Z (Qfloor x) + 1.
Proof.
  split; [apply Qfloor_le |].
  pose proof (Qlt_floor x) as H. rewrite inject_Z_plus in H. exact H.
Qed.

Lemma round_integer (k : Z) : Math_round (inject_Z k) = inject_Z k.
Proof.
  unfold Math_round. f_equal. apply floor_unique.
  - lra.
  - rewrite inject_Z_plus. change (inject_Z 1) with 1. lra.
Qed.

Lemma snap_value_pos (s : GridSnap) : 0 < gridSnapToBeats s.
Proof. destruct s; reflexivity. Qed.

Lemma round_comp (x y : Q) : x == y → Math_round x = Math_round y.
Proof. intros E. unfold Math_round. by rewrite E. Qed.

Lemma snap_as_multiple (beat : Q) (s : GridSnap) :
  snapToGrid beat s
  = inject_Z (Qfloor (beat / gridSnapToBeats s + (1 # 2))) * gridSnapToBeats s.
Proof. reflexivity. Qed.

Lemma snap_nonneg (beat : Q) (s : GridSnap) : 0 <= beat → 0 <= snapToGrid beat s.
Proof.
  intros Hb. rewrite snap_as_multiple.
  apply Qmult_le_0_compat; [| apply Qlt_le_weak, snap_value_pos].
  change 0 with (inject_Z 0). rewrite <- Zle_Qle.
  rewrite <- (Qfloor_Z 0). apply Qfloor_resp_le.
  assert (0 <= beat / gridSnapToBeats s).
  { apply Qle_shift_div_l; [apply snap_value_pos | lra]. }
  change (inject_Z 0) with 0. lra.
Qed.

(** X1: snapping is idempotent, and a snapped beat is a whole number of
    grid steps. *)
Theorem snapToGrid_idempotent (beat : Q) (s : GridSnap) :
  snapToGrid (snapToGrid beat s) s == snapToGrid beat s ∧
  ∃ k : Z, snapToGrid beat s = inject_Z k * gridSnapToBeats s.
Proof.
  split; [| eexists; apply snap_as_multiple].
  rewrite (snap_as_multiple beat s).
  set (k := Qfloor _). unfold snapToGrid.
  rewrite (round_comp _ (inject_Z k)), round_integer; [reflexivity |].
  apply Qdiv_mult_l. pose proof (snap_value_pos s). lra.
Qed.

(** X2: the snapped beat is the grid position nearest to the beat, a beat
    half-way between two positions going to the later one. *)
Theorem snapToGrid_nearest (beat : Q) (s : GridSnap) :
  snapToGrid beat s - gridSnapToBeats s / 2 <= beat ∧
  beat < snapToGrid beat s + gridSnapToBeats s / 2.
Proof.
  rewrite snap_as_multiple.
  assert (Hb : beat == beat / gridSnapToBeats s * gridSnapToBeats s).
  { field. pose proof (snap_value_pos s). lra. }
  destruct (floor_bounds (beat / gridSnapToBeats s + (1 # 2))) as [Hlo Hhi].
  revert Hb Hlo Hhi.
  generalize (inject_Z (Qfloor (beat / gridSnapToBeats s + (1 # 2)))).
  generalize (beat / gridSnapToBeats s). intros q k Hb Hlo Hhi.
  unfold Qdiv. change (/ 2) with (1 # 2).
  destruct s; cbn [gridSnapToBeats] in *; lra.
Qed.

Lemma truncate_nonneg (x : Q) : 0 <= x → truncate x = Qfloor x.
Proof.
  intros Hx. unfold truncate.
  by replace (Qle_bool 0 x) with true by (symmetry; by apply Qle_bool_iff).
Qed.

Lemma floor_nonneg (x : Q) : 0 <= x → (0 <= Qfloor x)%Z.
Proof.
  intros Hx. rewrite <- (Qfloor_Z 0). by apply Qfloor_resp_le.
Qed.

Lemma floor_below (x : Q) (n : Z) : x < inject_Z n → (Qfloor x < n)%Z.
Proof.
  intros Hx. rewrite Zlt_Qlt. eapply Qle_lt_trans; [apply Qfloor_le | exact Hx].
Qed.

(** X3: for a position [beats >= 0] and a whole number [n >= 1] of beats
    per bar, [formatTime] shows a bar number from 1, a beat number
    between 1 and [n] and a sixteenth between 1 and 4, and the position
    shown is the last sixteenth at or before [beats]. *)
Theorem formatTime_components (beats : Q) (n : Z) :
  0 <= beats → (1 <= n)%Z →
  ∃ bars beat sixteenth : Z,
    formatTime_parts beats (inject_Z n) = Some (bars, beat, sixteenth) ∧
    (1 <= bars)%Z ∧ (1 <= beat <= n)%Z ∧ (1 <= sixteenth <= 4)%Z ∧
    inject_Z ((bars - 1) * n + (beat - 1)) + inject_Z (sixteenth - 1) / 4 <= beats ∧
    beats < inject_Z ((bars - 1) * n + (beat - 1)) + inject_Z (sixteenth - 1) / 4 + (1 # 4).
Proof.
  intros Hb Hn.
  assert (HN : 1 <= inject_Z n)
    by (change 1 with (inject_Z 1); rewrite <- Zle_Qle; lia).
  unfold formatTime_parts.
  assert (Hz : Qeq_bool (inject_Z n) 0 = false).
  { apply not_true_iff_false. intros H. apply Qeq_bool_iff in H. lra. }
  rewrite Hz. eexists _, _, _. split; [reflexivity |].
  (* the bar *)
  assert (Hx : beats == beats / inject_Z n * inject_Z n) by (field; lra).
  assert (Hx0 : 0 <= beats / inject_Z n)
    by (apply Qle_shift_div_l; lra).
  destruct (floor_bounds (beats / inject_Z n)) as [Hq1 Hq2].
  pose proof (floor_nonneg _ Hx0) as Hq0.
  (* the beat within the bar *)
  assert (Hr : remainder beats (inject_Z n)
               == beats - inject_Z n * inject_Z (Qfloor (beats / inject_Z n))).
  { unfold remainder. by rewrite truncate_nonneg. }
  assert (Hr0 : 0 <= remainder beats (inject_Z n)).
  { rewrite Hr. rewrite Hx at 1.
    assert (inject_Z (Qfloor (beats / inject_Z n)) * inject_Z n
            <= beats / inject_Z n * inject_Z n)
      by (apply Qmult_le_compat_r; lra).
    lra. }
  assert (Hr1 : remainder beats (inject_Z n) < inject_Z n).
  { rewrite Hr. rewrite Hx at 1.
    assert (beats / inject_Z n * inject_Z n
            < (inject_Z (Qfloor (beats / inject_Z n)) + 1) * inject_Z n)
      by (apply Qmult_lt_compat_r; lra).
    lra. }
  pose proof (floor_nonneg _ Hr0) as Hf0.
  pose proof (floor_below _ _ Hr1) as Hf1.
  (* the whole beats *)
  assert (Hfl : Qfloor (remainder beats (inject_Z n))
                = (Qfloor beats - n * Qfloor (beats / inject_Z n))%Z).
  { destruct (floor_bounds beats) as [Hb1 Hb2].
    apply floor_unique; unfold Z.sub;
      rewrite ?inject_Z_plus, ?inject_Z_opp, ?inject_Z_mult, Hr;
      change (inject_Z 1) with 1; lra. }
  (* the sixteenth *)
  assert (Hs : remainder beats 1 == beats - inject_Z (Qfloor beats)).
  { unfold remainder.
    assert (E : beats / 1 == beats) by (field).
    rewrite truncate_nonneg by (rewrite E; exact Hb).
    rewrite E. ring. }
  destruct (floor_bounds beats) as [Hb1 Hb2].
  destruct (floor_bounds (remainder beats 1 * 4)) as [Hs1 Hs2].
  assert (Hs0 : (0 <= Qfloor (remainder beats 1 * 4))%Z)
    by (apply floor_nonneg; rewrite Hs; lra).
  assert (Hs4 : (Qfloor (remainder beats 1 * 4) < 4)%Z)
    by (apply floor_below; rewrite Hs; change (inject_Z 4) with 4; lra).
  replace ((Qfloor (beats / inject_Z n) + 1 - 1) * n
           + (Qfloor (remainder beats (inject_Z n)) + 1 - 1))%Z
    with (Qfloor beats) by lia.
  replace (Qfloor (remainder beats 1 * 4) + 1 - 1)%Z
    with (Qfloor (remainder beats 1 * 4)) by lia.
  repeat split; try lia.
  - unfold Qdiv. change (/ 4) with (1 # 4). lra.
  - unfold Qdiv. change (/ 4) with (1 # 4). lra.
Qed.

Lemma formatTime_components_witness :
  ∃ bars beat sixteenth : Z,
    formatTime_parts (27 # 4) (inject_Z 4) = Some (bars, beat, sixteenth) ∧
    (1 <= bars)%Z ∧ (1 <= beat <= 4)%Z ∧ (1 <= sixteenth <= 4)%Z ∧
    inject_Z ((bars - 1) * 4 + (beat - 1)) + inject_Z (sixteenth - 1) / 4 <= 27 # 4 ∧
    27 # 4 < inject_Z ((bars - 1) * 4 + (beat - 1)) + inject_Z (sixteenth - 1) / 4 + (1 # 4).
Proof.
  apply (formatTime_components (27 # 4) 4).
  - vm_compute. discriminate.
  - lia.
Defined.

End GridProperties.

(** ** The colour palette *)

Section PaletteProperties.
Import ColorPalette.

Lemma palette_NoDup : NoDup TRACK_COLORS.
Proof. apply (bool_decide_unpack _). vm_compute. exact I. Qed.

Lemma color_at_lookup (i : nat) :
  (i < 10)%nat → TRACK_COLORS !! i = Some (color_at i).
Proof.
  intros Hi. unfold color_at.
  destruct (TRACK_COLORS !! i) eqn:E; [done |].
  apply lookup_ge_None in E. cbn in E. lia.
Qed.

Lemma next_colors_spec (n c : nat) :
  next_colors n c
  = (map (fun i => color_at ((c + i) mod 10)%nat) (seq 0 n), (c + n)%nat).
Proof.
  revert c. induction n as [|n IH]; intros c.
  - cbn. by rewrite Nat.add_0_r.
  - cbn [next_colors getNextTrackColor]. rewrite IH.
    cbn [seq map length TRACK_COLORS]. rewrite Nat.add_0_r.
    f_equal; [| lia]. f_equal.
    rewrite <- seq_shift, map_map.
    apply map_ext. intros i. do 2 f_equal. lia.
Qed.

Lemma colors_distinct (c n : nat) :
  (n <= 10)%nat →
  NoDup (map (fun i => color_at ((c + i) mod 10)%nat) (seq 0 n)).
Proof.
  intros Hn. apply NoDup_fmap_2_strong; [| apply NoDup_seq].
  intros i j Hi Hj E.
  apply elem_of_seq in Hi, Hj.
  assert (Hmi : ((c + i) mod 10 < 10)%nat) by (apply Nat.mod_upper_bound; lia).
  assert (Hmj : ((c + j) mod 10 < 10)%nat) by (apply Nat.mod_upper_bound; lia).
  pose proof (color_at_lookup _ Hmi) as Li.
  pose proof (color_at_lookup _ Hmj) as Lj.
  rewrite E in Li.
  pose proof (NoDup_lookup _ _ _ _ palette_NoDup Li Lj) as Hmod.
  assert (Hdiv : ((c + i) / 10 = (c + j) / 10 ∨
                  (c + i) / 10 + 1 = (c + j) / 10 ∨
                  (c + i) / 10 = (c + j) / 10 + 1)%nat).
  { pose proof (Nat.div_mod_eq (c + i) 10). pose proof (Nat.div_mod_eq (c + j) 10).
    lia. }
  pose proof (Nat.div_mod_eq (c + i) 10). pose proof (Nat.div_mod_eq (c + j) 10).
  lia.
Qed.

(** X4: the palette is handed out round robin: ten calls in a row, from
    any index, give ten different colours of the palette, and the
    eleventh call gives the first colour again. *)
Theorem palette_round_robin (c n : nat) :
  (n <= 10)%nat →
  NoDup (fst (next_colors n c)) ∧
  Forall (fun x => x ∈ TRACK_COLORS) (fst (next_colors n c)) ∧
  snd (next_colors n c) = (c + n)%nat ∧
  fst (getNextTrackColor (c + 10)%nat) = fst (getNextTrackColor c).
Proof.
  intros Hn. rewrite next_colors_spec. cbn [fst snd].
  split; [| split; [| split]].
  - by apply colors_distinct.
  - apply Forall_forall. intros x Hx.
    apply list_elem_of_fmap in Hx as (i & -> & _).
    apply list_elem_of_lookup. exists ((c + i) mod 10)%nat.
    apply color_at_lookup, Nat.mod_upper_bound. lia.
  - reflexivity.
  - unfold getNextTrackColor. cbn [fst].
    change (length TRACK_COLORS) with 10%nat. f_equal.
    replace (c + 10)%nat with (c + 1 * 10)%nat by lia.
    by rewrite Nat.Div0.mod_add.
Qed.

Lemma palette_round_robin_witness :
  NoDup (fst (next_colors 10%nat 7%nat)) ∧
  Forall (fun x => x ∈ TRACK_COLORS) (fst (next_colors 10%nat 7%nat)) ∧
  snd (next_colors 10%nat 7%nat) = 17%nat ∧
  fst (getNextTrackColor (7 + 10)%nat) = fst (getNextTrackColor 7%nat).
Proof. apply (palette_round_robin 7%nat 10%nat). lia. Defined.

End PaletteProperties.

(** ** Note names *)

Section NoteNameProperties.
Import NoteHelpers Specs.

Lemma digits_all_digits (d : Decimal.uint) :
  all_digits (NilEmpty.string_of_uint d) = true.
Proof. induction d; cbn; auto. Qed.

Lemma digits_no_sharp (d : Decimal.uint) :
  occurs "#" (NilEmpty.string_of_uint d) = false.
Proof. induction d; cbn; auto. Qed.

Lemma pos_digits_nonempty (p : positive) :
  NilEmpty.string_of_uint (Pos.to_uint p) ≠ EmptyString.
Proof.
  pose proof (DecimalPos.Unsigned.to_uint_nonnil p) as Hp.
  destruct (Pos.to_uint p); try done; discriminate.
Qed.

Lemma render_int_nonneg (z : Z) :
  (0 <= z)%Z →
  Grid.render_int z ≠ EmptyString ∧
  all_digits (Grid.render_int z) = true ∧
  occurs "#" (Grid.render_int z) = false ∧
  parseInt_digits (Grid.render_int z) = z.
Proof.
  intros Hz. destruct z as [|p|p]; [by repeat split | | lia].
  cbn [Grid.render_int]. split; [apply pos_digits_nonempty |].
  split; [apply digits_all_digits |]. split; [apply digits_no_sharp |].
  unfold parseInt_digits. rewrite NilEmpty.usu.
  unfold N.of_uint. by rewrite DecimalPos.Unsigned.of_to.
Qed.

Lemma match_natural (c : ascii) (digits : string) :
  (65 <=? nat_of_ascii c)%nat && (nat_of_ascii c <=? 71)%nat = true →
  digits ≠ EmptyString → all_digits digits = true →
  match_note_name (String c digits) = Some (String c EmptyString, digits).
Proof.
  intros Hc Hne Hd. unfold match_note_name. rewrite Hc.
  destruct digits as [|d ds]; [done |].
  assert (Hsharp : d ≠ "#"%char).
  { intros ->. cbn in Hd. discriminate. }
  destruct d as [[] [] [] [] [] [] [] []]; try done; by rewrite Hd.
Qed.

Lemma match_sharp (c : ascii) (digits : string) :
  (65 <=? nat_of_ascii c)%nat && (nat_of_ascii c <=? 71)%nat = true →
  digits ≠ EmptyString → all_digits digits = true →
  match_note_name (String c (String "#" digits))
  = Some (String c (String "#" EmptyString), digits).
Proof.
  intros Hc Hne Hd. unfold match_note_name. rewrite Hc.
  destruct digits as [|d ds]; [done |]. by rewrite Hd.
Qed.

Lemma residue_cases (m : Z) :
  (0 <= m)%Z →
  ∃ r, Z.rem m 12 = r ∧ (m = 12 * (m / 12) + r)%Z ∧
       (r = 0 ∨ r = 1 ∨ r = 2 ∨ r = 3 ∨ r = 4 ∨ r = 5 ∨
        r = 6 ∨ r = 7 ∨ r = 8 ∨ r = 9 ∨ r = 10 ∨ r = 11)%Z.
Proof.
  intros Hm. exists (Z.rem m 12). split; [done |].
  rewrite Z.rem_mod_nonneg by lia.
  pose proof (Z.mod_pos_bound m 12 ltac:(lia)).
  pose proof (Z.div_mod m 12 ltac:(lia)). split; lia.
Qed.

(** Reads the name of a note of known residue back. *)
Ltac read_back_name :=
  match goal with
  | |- context [note_name_at ?k] =>
      let s := eval vm_compute in (note_name_at k) in
      change (note_name_at k) with s
  end;
  lazymatch goal with
  | |- context [String ?c (String "#" EmptyString) +:+ ?d] =>
      change (String c (String "#" EmptyString) +:+ d) with (String c (String "#" d));
      rewrite match_sharp by (done || reflexivity)
  | |- context [String ?c EmptyString +:+ ?d] =>
      change (String c EmptyString +:+ d) with (String c d);
      rewrite match_natural by (done || reflexivity)
  end;
  match goal with
  | |- context [index_of ?n ?l ?i] =>
      let v := eval vm_compute in (index_of n l i) in
      change (index_of n l i) with v
  end.

(** X5: a note number from 12 upward (octave 0 and higher) is found again
    from its name; the names of the numbers 0 to 11, which carry the
    octave [-1], are not read back and give the default, 60. *)
Theorem note_name_round_trip (m : Z) :
  (0 <= m)%Z →
  noteNameToMidi (midiToNoteName m) = if (m <? 12)%Z then 60%Z else m.
Proof.
  intros Hm. destruct (Z.ltb_spec m 12) as [Hlt | Hge].
  - assert (Hcases : (m = 0 ∨ m = 1 ∨ m = 2 ∨ m = 3 ∨ m = 4 ∨ m = 5 ∨
                      m = 6 ∨ m = 7 ∨ m = 8 ∨ m = 9 ∨ m = 10 ∨ m = 11)%Z) by lia.
    repeat (destruct Hcases as [-> | Hcases]; [reflexivity |]).
    by subst.
  - destruct (residue_cases m Hm) as (r & Hr & Hdiv & Hcases).
    assert (Ho : (0 <= m / 12 - 1)%Z) by (pose proof (Z.div_le_lower_bound m 12 1); lia).
    destruct (render_int_nonneg _ Ho) as (Hne & Hd & _ & Hp).
    unfold midiToNoteName, noteNameToMidi. rewrite Hr.
    repeat (destruct Hcases as [-> | Hcases]; [read_back_name; rewrite Hp; lia |]).
    rewrite Hcases in Hdiv |- *. read_back_name. rewrite Hp. lia.
Qed.

Lemma note_name_round_trip_witness :
  noteNameToMidi (midiToNoteName 61) = 61%Z ∧
  noteNameToMidi (midiToNoteName 7) = 60%Z.
Proof.
  split.
  - apply (note_name_round_trip 61). lia.
  - apply (note_name_round_trip 7). lia.
Defined.

Lemma render_int_no_sharp (z : Z) : occurs "#" (Grid.render_int z) = false.
Proof.
  destruct z as [|p|p]; [reflexivity | apply digits_no_sharp |].
  cbn [Grid.render_int occurs]. by rewrite digits_no_sharp.
Qed.

(** X6: from note number 0 upward, the keys drawn black are exactly the
    notes whose name carries a sharp. *)
Theorem black_keys_are_the_sharps (m : Z) :
  (0 <= m)%Z → isBlackKey m = occurs "#" (midiToNoteName m).
Proof.
  intros Hm. destruct (residue_cases m Hm) as (r & Hr & _ & Hcases).
  unfold isBlackKey, midiToNoteName. rewrite Hr, occurs_app, render_int_no_sharp.
  rewrite orb_false_r.
  repeat (destruct Hcases as [-> | Hcases]; [reflexivity |]).
  by rewrite Hcases.
Qed.

Lemma black_keys_are_the_sharps_witness :
  isBlackKey 61 = occurs "#" (midiToNoteName 61).
Proof. apply (black_keys_are_the_sharps 61). lia. Defined.

End NoteNameProperties.

(** ** The project store: edits of the note data *)

Section NoteEdits.
Import History Project ProjectActions Specs MoreSpecs.

Lemma set_tracks_id (p : ProjectState) : set_tracks p (tracks p) = p.
Proof. by destruct p. Qed.

Lemma with_notes_id (t : Track) : with_notes t (notes t) = t.
Proof. by destruct t. Qed.

Lemma on_track_ext (id : string) (f g : Track → Track) (p : ProjectState) :
  (∀ t, t ∈ tracks p → track_id t = id → f t = g t) →
  on_track id f p = on_track id g p.
Proof.
  intros H. unfold on_track. f_equal.
  apply map_ext_in. intros t Ht. apply list_elem_of_In in Ht.
  case_bool_decide; [by apply H | done].
Qed.

Lemma on_track_noop (id : string) (f : Track → Track) (p : ProjectState) :
  (∀ t, t ∈ tracks p → track_id t = id → f t = t) → on_track id f p = p.
Proof.
  intros H. rewrite <- (set_tracks_id p) at 2. unfold on_track. f_equal.
  rewrite <- (map_id (tracks p)) at 2.
  apply map_ext_in. intros t Ht. apply list_elem_of_In in Ht.
  case_bool_decide; [by apply H | done].
Qed.

Lemma on_track_compose (id : string) (f g : Track → Track) (p : ProjectState) :
  (∀ t, track_id (g t) = track_id t) →
  on_track id f (on_track id g p) = on_track id (fun t => f (g t)) p.
Proof.
  intros Hg. unfold on_track, set_tracks. cbn [tracks projectName bpm timeSignature selectedTrackId].
  f_equal. rewrite map_map. apply map_ext. intros t.
  destruct (decide (track_id t = id)) as [E | E].
  - rewrite (bool_decide_true (track_id t = id)) by done.
    by rewrite bool_decide_true by (by rewrite Hg).
  - rewrite (bool_decide_false (track_id t = id)) by done.
    by rewrite bool_decide_false by done.
Qed.

Lemma on_track_same (id : string) (f : Track → Track) (p : ProjectState) :
  (∀ t, skeleton (f t) = skeleton t) → same_project p (on_track id f p).
Proof.
  intros Hf. unfold same_project, on_track. cbn. repeat split.
  unfold same_tracks. rewrite map_map. apply map_ext. intros t.
  case_bool_decide; [by rewrite Hf | done].
Qed.

Lemma skeleton_with_notes (t : Track) (ns : list Note) :
  skeleton (with_notes t ns) = skeleton t.
Proof. by destruct t. Qed.

Lemma duplicateNotes_same (trackId : string) (noteIds : list string)
    (p : ProjectState) (g : Uuid) :
  same_project p (snd (fst (duplicateNotes trackId noteIds p g))).
Proof.
  unfold duplicateNotes.
  destruct (List.find _ (tracks p)) as [track |].
  - destruct (copy_notes _ g) as [newNotes g']. cbn [fst snd].
    apply (on_track_same trackId (fun t => with_notes t (notes t ++ newNotes))).
    intros t. apply skeleton_with_notes.
  - cbn. by repeat split.
Qed.

Lemma apply_edit_same (e : NoteEdit) (p : ProjectState) (g : Uuid) :
  same_project p (fst (apply_edit e p g)).
Proof.
  destruct e; cbn [apply_edit].
  - unfold addNote. cbn [uuidv4 fst]. apply on_track_same. intros; apply skeleton_with_notes.
  - apply on_track_same. intros; apply skeleton_with_notes.
  - apply on_track_same. intros; apply skeleton_with_notes.
  - apply on_track_same. intros; apply skeleton_with_notes.
  - apply on_track_same. intros; apply skeleton_with_notes.
  - pose proof (duplicateNotes_same trackId noteIds p g) as H.
    by destruct (duplicateNotes trackId noteIds p g) as [[ids p'] g'].
Qed.

Lemma push_past_top (ts : list Track) (h : HistoryState) :
  (1 ≤ maxHistory h)%nat →
  ∃ older, past (pushState ts h) = older ++ [take_snapshot ts].
Proof.
  intros Hmax. unfold pushState. cbn [past].
  destruct (_ <? _)%nat eqn:E; [| by eexists].
  destruct (past h) as [|a P]; [| by exists P].
  apply Nat.ltb_lt in E. cbn in E. lia.
Qed.

(** X7: every edit of the note data (adding, removing, updating or
    duplicating notes) leaves the project as it was but for the notes of
    its tracks, and is taken back by one undo when the history was saved
    just before it. *)
Theorem note_edit_undoable (e : NoteEdit) (p : ProjectState) (g : Uuid)
    (h : HistoryState) :
  NoDup (map track_id (tracks p)) → maxHistory h = MAX_HISTORY →
  let p' := fst (apply_edit e p g) in
  same_project p p' ∧
  fst (Project.undo (p', snd (saveToHistory (p, h)))) = p.
Proof.
  intros Hnd Hmax p'.
  pose proof (apply_edit_same e p g) as Hsame. fold p' in Hsame.
  split; [exact Hsame |].
  destruct (push_past_top (tracks p) h) as [older Hp];
    [rewrite Hmax; unfold MAX_HISTORY; lia |].
  cbn [saveToHistory snd].
  rewrite (undo_some _ _ (take_snapshot (tracks p)) older Hp). cbn [fst].
  destruct Hsame as (Hn & Hb & Ht & Hs & Htr).
  rewrite apply_snapshot_restores by done.
  unfold set_tracks. rewrite Hn, Hb, Ht, Hs. by destruct p.
Qed.

Lemma note_edit_undoable_witness :
  let p := Examples.project Examples.S2 in
  let p' := fst (apply_edit (ERemoveNotes "A" ["n1"]) p Examples.letters) in
  same_project p p' ∧
  fst (Project.undo (p', snd (saveToHistory (p, History.initial)))) = p.
Proof.
  apply (note_edit_undoable (ERemoveNotes "A" ["n1"]) (Examples.project Examples.S2)
           Examples.letters History.initial).
  - apply (bool_decide_unpack _). vm_compute. exact I.
  - reflexivity.
Defined.

Lemma filter_keep_all {A} (f : A → bool) (l : list A) :
  (∀ x, x ∈ l → f x = true) → List.filter f l = l.
Proof.
  induction l as [|x l IH]; intros H; [done |].
  cbn. rewrite H by (by left). f_equal. apply IH. intros y Hy. apply H. by right.
Qed.

Lemma filter_drop_all {A} (f : A → bool) (l : list A) :
  (∀ x, x ∈ l → f x = false) → List.filter f l = [].
Proof.
  induction l as [|x l IH]; intros H; [done |].
  cbn. rewrite H by (by left). apply IH. intros y Hy. apply H. by right.
Qed.

Lemma map_keep_all {A} (f : A → A) (l : list A) :
  (∀ x, x ∈ l → f x = x) → map f l = l.
Proof.
  induction l as [|x l IH]; intros H; [done |].
  cbn. rewrite H by (by left). f_equal. apply IH. intros y Hy. apply H. by right.
Qed.

Lemma update_map_fold (us : list (string * NoteUpdates)) (m : gmap string NoteUpdates)
    (k : string) :
  fold_left (fun m u => <[fst u := snd u]> m) us m !! k
  = match update_map us !! k with
    | Some v => Some v
    | None => m !! k
    end.
Proof.
  unfold update_map. revert m. induction us as [|u us IH] using rev_ind; intros m.
  - cbn. by rewrite lookup_empty.
  - rewrite !fold_left_app. cbn [fold_left].
    destruct (decide (fst u = k)) as [-> | Hne].
    + by rewrite !lookup_insert_eq.
    + rewrite !lookup_insert_ne by done. apply IH.
Qed.

Lemma update_map_absent (us : list (string * NoteUpdates)) (k : string) :
  k ∉ map fst us → update_map us !! k = None.
Proof.
  unfold update_map. induction us as [|u us IH] using rev_ind; intros Hk.
  - apply lookup_empty.
  - rewrite fold_left_app. cbn [fold_left].
    rewrite map_app in Hk. cbn in Hk. apply not_elem_of_app in Hk as [Hk Hu].
    apply not_elem_of_cons in Hu as [Hu _].
    rewrite lookup_insert_ne by done. by apply IH.
Qed.

(** X8: removing, updating or duplicating notes under ids that no note of
    the named track carries (in particular when no track has that name)
    changes nothing, and the duplication returns no id and draws none. *)
Theorem edits_of_absent_notes (trackId : string) (noteIds : list string)
    (us : list (string * NoteUpdates)) (u : NoteUpdates)
    (p : ProjectState) (g : Uuid) :
  absent trackId noteIds p → map fst us = noteIds →
  removeNotes trackId noteIds p = p ∧
  updateNotes trackId us p = p ∧
  (∀ i, i ∈ noteIds → removeNote trackId i p = p ∧ updateNote trackId i u p = p) ∧
  duplicateNotes trackId noteIds p g = ([], p, g).
Proof.
  intros Habs Hus. split; [| split; [| split]].
  - apply on_track_noop. intros t Ht Hid.
    rewrite filter_keep_all; [apply with_notes_id |].
    intros n Hn. apply negb_true_iff, bool_decide_eq_false.
    rewrite elem_of_list_to_set. by eapply Habs.
  - apply on_track_noop. intros t Ht Hid.
    rewrite map_keep_all; [apply with_notes_id |].
    intros n Hn. rewrite update_map_absent; [done |].
    rewrite Hus. by eapply Habs.
  - intros i Hi. split; apply on_track_noop; intros t Ht Hid.
    + rewrite filter_keep_all; [apply with_notes_id |].
      intros n Hn. apply negb_true_iff, bool_decide_eq_false.
      intros E. apply (Habs t n Ht Hid Hn). by rewrite E.
    + rewrite map_keep_all; [apply with_notes_id |].
      intros n Hn. rewrite bool_decide_false; [done |].
      intros E. apply (Habs t n Ht Hid Hn). by rewrite E.
  - unfold duplicateNotes.
    destruct (List.find _ (tracks p)) as [track |] eqn:Hfind; [| done].
    apply find_some in Hfind as [Hin Hid].
    apply list_elem_of_In in Hin. apply bool_decide_eq_true in Hid.
    assert (Hnone : List.filter
                      (fun n => bool_decide (note_id n ∈ (list_to_set noteIds : gset string)))
                      (notes track) = []).
    { apply filter_drop_all. intros n Hn. apply bool_decide_eq_false.
      rewrite elem_of_list_to_set. by eapply Habs. }
    rewrite Hnone. cbn [copy_notes map].
    do 2 f_equal.
    etransitivity; [| apply set_tracks_id]. f_equal.
    apply map_keep_all. intros t _. case_bool_decide; [| done].
    rewrite app_nil_r. apply with_notes_id.
Qed.

Lemma edits_of_absent_notes_witness :
  removeNotes "A" ["zz"] (Examples.project Examples.S2) = Examples.project Examples.S2 ∧
  updateNotes "A" [("zz", mkNoteUpdates None (Some 72) None None None)]
              (Examples.project Examples.S2) = Examples.project Examples.S2 ∧
  (∀ i, i ∈ ["zz"] →
     removeNote "A" i (Examples.project Examples.S2) = Examples.project Examples.S2 ∧
     updateNote "A" i (mkNoteUpdates None (Some 72) None None None)
                (Examples.project Examples.S2) = Examples.project Examples.S2) ∧
  duplicateNotes "A" ["zz"] (Examples.project Examples.S2) Examples.letters
  = ([], Examples.project Examples.S2, Examples.letters).
Proof.
  apply (edits_of_absent_notes "A" ["zz"]
           [("zz", mkNoteUpdates None (Some 72) None None None)]).
  - intros t n Ht Hid Hn.
    apply list_elem_of_singleton in Ht as ->.
    apply not_elem_of_cons. split; [| apply not_elem_of_nil].
    cbn in Hn. apply elem_of_cons in Hn as [-> | Hn]; [discriminate |].
    apply list_elem_of_singleton in Hn as ->. discriminate.
  - reflexivity.
Defined.

(** X9: a note added to a track is its last note, under the identifier
    drawn; when no note of the track had that identifier, removing the
    note by it gives the project back. *)
Theorem addNote_then_removeNote (trackId : string) (note : NoteFields)
    (p : ProjectState) (g : Uuid) :
  absent trackId [draws g (drawn g)] p →
  let newNote := mkNote (draws g (drawn g)) (f_pitch note) (f_start note)
                        (f_duration note) (f_velocity note) in
  fst (addNote trackId note p g)
  = on_track trackId (fun t => with_notes t (notes t ++ [newNote])) p ∧
  removeNote trackId (draws g (drawn g)) (fst (addNote trackId note p g)) = p.
Proof.
  intros Habs newNote. split; [reflexivity |].
  unfold addNote, removeNote. cbn [uuidv4 fst].
  rewrite on_track_compose by (by intros []).
  apply on_track_noop. intros t Ht Hid.
  cbn [notes with_notes]. rewrite List.filter_app. cbn [List.filter note_id].
  rewrite bool_decide_true by done. cbn [negb]. rewrite app_nil_r.
  rewrite filter_keep_all.
  - by destruct t.
  - intros n Hn. apply negb_true_iff, bool_decide_eq_false.
    intros E. apply (Habs t n Ht Hid Hn). rewrite E. by left.
Qed.

Lemma addNote_then_removeNote_witness :
  let p := Examples.project Examples.S2 in
  let note := mkNoteFields 67 4 1 (4 # 5) in
  fst (addNote "A" note p Examples.letters)
  = on_track "A" (fun t => with_notes t (notes t ++ [mkNote "a" 67 4 1 (4 # 5)])) p ∧
  removeNote "A" "a" (fst (addNote "A" note p Examples.letters)) = p.
Proof.
  apply (addNote_then_removeNote "A" (mkNoteFields 67 4 1 (4 # 5))
           (Examples.project Examples.S2) Examples.letters).
  intros t n Ht Hid Hn.
  apply list_elem_of_singleton in Ht as ->.
  apply not_elem_of_cons. split; [| apply not_elem_of_nil].
  cbn in Hn. apply elem_of_cons in Hn as [-> | Hn]; [discriminate |].
  apply list_elem_of_singleton in Hn as ->. discriminate.
Defined.

Lemma filter_remove_cons (i : string) (ids : list string) (ns : list Note) :
  List.filter (fun n => negb (bool_decide
                 (note_id n ∈ (list_to_set (i :: ids) : gset string)))) ns
  = List.filter (fun n => negb (bool_decide
                   (note_id n ∈ (list_to_set ids : gset string))))
      (List.filter (fun n => negb (bool_decide (note_id n = i))) ns).
Proof.
  induction ns as [|n ns IH]; [done |].
  cbn [List.filter].
  destruct (decide (note_id n = i)) as [Hn | Hn].
  - rewrite (bool_decide_true (note_id n = i)) by done. cbn [negb].
    rewrite bool_decide_true
      by (rewrite elem_of_list_to_set; rewrite Hn; by left).
    cbn [negb]. exact IH.
  - rewrite (bool_decide_false (note_id n = i)) by done. cbn [negb List.filter].
    destruct (decide (note_id n ∈ ids)) as [Hs | Hs].
    + rewrite !bool_decide_true
        by (rewrite elem_of_list_to_set; (done || by right)).
      cbn [negb]. exact IH.
    + rewrite !bool_decide_false
        by (rewrite elem_of_list_to_set; try done;
            intros [? | ?]%elem_of_cons; done).
      cbn [negb]. by rewrite IH.
Qed.

Lemma removeNotes_cons (trackId i : string) (ids : list string) (p : ProjectState) :
  removeNotes trackId (i :: ids) p = removeNotes trackId ids (removeNote trackId i p).
Proof.
  unfold removeNotes, removeNote.
  rewrite on_track_compose by (by intros []).
  apply on_track_ext. intros t _ _. cbn [notes with_notes].
  rewrite filter_remove_cons. by destruct t.
Qed.

(** X10: removing several notes at once gives the project that removing
    them one after the other gives; removing none changes nothing. *)
Theorem removeNotes_one_by_one (trackId : string) (noteIds : list string)
    (p : ProjectState) :
  removeNotes trackId noteIds p
  = fold_left (fun p i => removeNote trackId i p) noteIds p.
Proof.
  revert p. induction noteIds as [|i ids IH]; intros p.
  - cbn [fold_left]. apply on_track_noop. intros t _ _.
    rewrite filter_keep_all; [apply with_notes_id |].
    intros n _. apply negb_true_iff, bool_decide_eq_false.
    rewrite elem_of_list_to_set. apply not_elem_of_nil.
  - cbn [fold_left]. rewrite removeNotes_cons. apply IH.
Qed.

Lemma updateNotes_cons (trackId : string) (u : string * NoteUpdates)
    (us : list (string * NoteUpdates)) (p : ProjectState) :
  fst u ∉ map fst us → u_id (snd u) = None →
  updateNotes trackId (u :: us) p
  = updateNotes trackId us (updateNote trackId (fst u) (snd u) p).
Proof.
  intros Hfresh Hid. unfold updateNotes, updateNote.
  rewrite on_track_compose by (by intros []).
  apply on_track_ext. intros t _ _. cbn [notes with_notes].
  transitivity (with_notes t
    (map (fun n => match update_map us !! note_id n with
                   | Some updates => apply_note_updates n updates
                   | None => n
                   end)
         (map (fun n => if bool_decide (note_id n = fst u)
                        then apply_note_updates n (snd u) else n) (notes t))));
    [| by destruct t].
  f_equal. rewrite map_map. apply map_ext. intros n.
  unfold update_map at 1. cbn [fold_left].
  rewrite update_map_fold.
  destruct (decide (note_id n = fst u)) as [E | E].
  - rewrite (bool_decide_true _ E).
    assert (Hsame : note_id (apply_note_updates n (snd u)) = note_id n)
      by (unfold apply_note_updates; cbn; by rewrite Hid).
    rewrite Hsame, E, (update_map_absent us (fst u) Hfresh).
    by rewrite lookup_insert_eq.
  - rewrite (bool_decide_false _ E).
    destruct (update_map us !! note_id n); [done |].
    rewrite lookup_insert_ne by done. by rewrite lookup_empty.
Qed.

(** X11: when the updates name distinct notes and none of them changes
    an id, updating several notes at once gives the project that the
    single updates, made one after the other, give. *)
Theorem updateNotes_one_by_one (trackId : string)
    (noteUpdates : list (string * NoteUpdates)) (p : ProjectState) :
  NoDup (map fst noteUpdates) →
  Forall (fun u => u_id (snd u) = None) noteUpdates →
  updateNotes trackId noteUpdates p
  = fold_left (fun p u => updateNote trackId (fst u) (snd u) p) noteUpdates p.
Proof.
  revert p. induction noteUpdates as [|u us IH]; intros p Hnd Hids.
  - cbn [fold_left]. apply on_track_noop. intros t _ _.
    rewrite map_keep_all; [apply with_notes_id |].
    intros n _. unfold update_map. cbn. by rewrite lookup_empty.
  - cbn [map] in Hnd. apply NoDup_cons in Hnd as [Hfresh Hnd].
    apply Forall_cons in Hids as [Hid Hids].
    cbn [fold_left]. rewrite updateNotes_cons by done. by apply IH.
Qed.

Lemma updateNotes_one_by_one_witness :
  let us := [("n1", mkNoteUpdates None (Some 72) None None None);
             ("n2", mkNoteUpdates None None (Some 3) None None)] in
  updateNotes "A" us (Examples.project Examples.S2)
  = fold_left (fun p u => updateNote "A" (fst u) (snd u) p) us
              (Examples.project Examples.S2).
Proof.
  apply (updateNotes_one_by_one "A").
  - apply (bool_decide_unpack _). vm_compute. exact I.
  - repeat constructor.
Defined.

(** With two updates under one id the later one alone is applied, where
    the single updates would both be. *)
Example updateNotes_keeps_the_later_update :
  let us := [("n1", mkNoteUpdates None (Some 72) None None None);
             ("n1", mkNoteUpdates None None (Some 3) None None)] in
  tracks (updateNotes "A" us (Examples.project Examples.S1))
  = [Examples.track "A" false false [mkNote "n1" 60 3 1 (4 # 5)]] ∧
  tracks (fold_left (fun p u => updateNote "A" (fst u) (snd u) p) us
                    (Examples.project Examples.S1))
  = [Examples.track "A" false false [mkNote "n1" 72 3 1 (4 # 5)]].
Proof. split; reflexivity. Qed.

End NoteEdits.

(** ** The project store: tracks, tempo, files *)

Section TrackActions.
Import History Project ProjectActions Specs MoreSpecs TimeHelpers.

(** X12: after [removeTrack id] the tracks are those that do not carry
    the id, in their order; the selection never names the removed id; a
    selection that named a track of the project still does, moving to
    the first remaining track (or to none) when its track was removed. *)
Theorem removeTrack_selection (id : string) (p : ProjectState) :
  selection_valid p →
  let p' := removeTrack id p in
  tracks p' = List.filter (fun t => negb (bool_decide (track_id t = id))) (tracks p) ∧
  (∀ t, t ∈ tracks p' → track_id t ≠ id) ∧
  selectedTrackId p' ≠ Some id ∧
  selection_valid p' ∧
  selectedTrackId p'
  = if bool_decide (selectedTrackId p = Some id)
    then option_map track_id (head (tracks p'))
    else selectedTrackId p.
Proof.
  intros Hvalid p'.
  assert (Hkept : ∀ t, t ∈ tracks p' ↔ t ∈ tracks p ∧ track_id t ≠ id).
  { intros t. subst p'. cbn [removeTrack tracks].
    rewrite !list_elem_of_In, List.filter_In, negb_true_iff, bool_decide_eq_false.
    done. }
  assert (Hsel : selectedTrackId p'
                 = if bool_decide (selectedTrackId p = Some id)
                   then option_map track_id (head (tracks p'))
                   else selectedTrackId p).
  { subst p'. cbn [removeTrack tracks selectedTrackId].
    case_bool_decide; [| done]. by destruct (List.filter _ (tracks p)). }
  split; [reflexivity |]. clearbody p'.
  split; [intros t Ht; by apply Hkept |].
  split; [| split; [| exact Hsel]].
  - rewrite Hsel. case_bool_decide as E; [| done].
    destruct (tracks p') as [|t ts] eqn:Et; [done |]. cbn.
    intros [= Hid].
    assert (Ht : t ∈ t :: ts) by (by left).
    apply Hkept in Ht as [_ Hne]. done.
  - unfold selection_valid. rewrite Hsel. case_bool_decide as E.
    + destruct (tracks p') as [|t ts]; [done |]. cbn. exists t. split; [by left | done].
    + unfold selection_valid in Hvalid.
      destruct (selectedTrackId p) as [i |]; [| done].
      destruct Hvalid as (t & Ht & Hid). exists t. split; [| done].
      apply Hkept. split; [done |]. congruence.
Qed.

Lemma removeTrack_selection_witness :
  let p := mkProject "p" 120 (4, 4)
             [Examples.track "A" false false []; Examples.track "B" false false []]
             (Some "A") in
  let p' := removeTrack "A" p in
  tracks p' = List.filter (fun t => negb (bool_decide (track_id t = "A"))) (tracks p) ∧
  (∀ t, t ∈ tracks p' → track_id t ≠ "A") ∧
  selectedTrackId p' ≠ Some "A" ∧
  selection_valid p' ∧
  selectedTrackId p'
  = if bool_decide (selectedTrackId p = Some "A")
    then option_map track_id (head (tracks p'))
    else selectedTrackId p.
Proof.
  apply (removeTrack_selection "A").
  exists (Examples.track "A" false false []). split; [by left | reflexivity].
Defined.

(** X13: a project file that is imported and exported again is the same
    file; after the import the first track of the file is selected (none
    for a file without tracks) and the palette continues after as many
    colours as the file has tracks. *)
Theorem import_then_export (f : ProjectFile) (p : ProjectState) (o : Outside) :
  let p' := fst (importProject f p o) in
  let o' := snd (importProject f p o) in
  exportProject p' = f ∧
  selection_valid p' ∧
  selectedTrackId p' = option_map track_id (head (file_tracks f)) ∧
  colorIndex o' = length (file_tracks f) ∧ uuid o' = uuid o.
Proof.
  cbn. split; [by destruct f |]. repeat split.
  - unfold selection_valid. cbn.
    destruct (file_tracks f) as [|t ts]; [done |]. exists t. split; [by left | done].
  - by destruct (file_tracks f).
Qed.

Lemma undo_same (st : Stores) : same_project (fst st) (fst (Project.undo st)).
Proof.
  destruct st as [p h]. unfold Project.undo. cbn [fst].
  assert (Hrefl : same_project p p) by (by repeat split).
  destruct (negb (canUndo h)); [exact Hrefl |].
  destruct (History.undo _ h) as [[prev |] h']; [| exact Hrefl].
  cbn [fst]. unfold same_project. cbn. repeat split. apply same_tracks_apply.
Qed.

Lemma redo_same (st : Stores) : same_project (fst st) (fst (Project.redo st)).
Proof.
  destruct st as [p h]. unfold Project.redo. cbn [fst].
  assert (Hrefl : same_project p p) by (by repeat split).
  destruct (negb (canRedo h)); [exact Hrefl |].
  destruct (History.redo _ h) as [[next |] h']; [| exact Hrefl].
  cbn [fst]. unfold same_project. cbn. repeat split. apply same_tracks_apply.
Qed.

(** X14: undo and redo, in any state of the two stores, change nothing
    of the project but the notes of its tracks: name, tempo, time
    signature and selection stay, and so do the number and order of the
    tracks and every field of a track other than its notes. *)
Theorem undo_redo_touch_notes_only (st : Stores) :
  same_project (fst st) (fst (Project.undo st)) ∧
  same_project (fst st) (fst (Project.redo st)) ∧
  length (tracks (fst (Project.undo st))) = length (tracks (fst st)) ∧
  length (tracks (fst (Project.redo st))) = length (tracks (fst st)).
Proof.
  pose proof (undo_same st) as Hu. pose proof (redo_same st) as Hr.
  split; [exact Hu | split; [exact Hr |]].
  destruct Hu as (_ & _ & _ & _ & Hu). destruct Hr as (_ & _ & _ & _ & Hr).
  unfold same_tracks in Hu, Hr.
  apply (f_equal length) in Hu, Hr. rewrite !length_map in Hu, Hr. done.
Qed.

Lemma add_tracks_spec (n : nat) (p : ProjectState) (o : Outside) :
  add_tracks n p o
  = (mkProject (projectName p) (bpm p) (timeSignature p)
       (tracks p
        ++ map (fun i =>
                  mkTrack (draws (uuid o) (drawn (uuid o) + i))
                          (default_track_name (length (tracks p) + i))
                          (ColorPalette.color_at ((colorIndex o + i) mod 10)%nat)
                          sine (7 # 10) 0 false false
                          DEFAULT_ENVELOPE DEFAULT_EFFECTS [])
               (seq 0 n))
       (match n with
        | O => selectedTrackId p
        | S k => Some (draws (uuid o) (drawn (uuid o) + k))
        end),
     mkOutside (mkUuid (draws (uuid o)) (drawn (uuid o) + n)) (colorIndex o + n)%nat).
Proof.
  revert p o. induction n as [|n IH]; intros p o.
  - cbn. rewrite app_nil_r, !Nat.add_0_r. by destruct p, o as [[] ?].
  - cbn [add_tracks]. unfold addTrack, createDefaultTrack.
    cbn [uuidv4 ColorPalette.getNextTrackColor]. rewrite IH.
    cbn [projectName bpm timeSignature tracks selectedTrackId uuid colorIndex
         draws drawn track_id].
    change (length ColorPalette.TRACK_COLORS) with 10%nat.
    f_equal.
    + f_equal.
      * rewrite <- app_assoc. f_equal. cbn [seq map app].
        rewrite !Nat.add_0_r. f_equal.
        rewrite <- seq_shift, map_map. apply map_ext. intros i.
        rewrite length_app. cbn [length].
        f_equal; [f_equal; lia | f_equal; lia | do 2 f_equal; lia].
      * destruct n; f_equal; f_equal; lia.
    + f_equal; [f_equal; lia | lia].
Qed.

(** X15: up to ten tracks added one after the other with no name given
    get pairwise different colours and the names [Track k] numbered on
    from the count of tracks; the tracks already there stay in front,
    and the track added last is the selected one. *)
Theorem added_tracks_colours (n : nat) (p : ProjectState) (o : Outside) :
  (n <= 10)%nat →
  let p' := fst (add_tracks n p o) in
  ∃ added,
    tracks p' = tracks p ++ added ∧ length added = n ∧
    NoDup (map color added) ∧
    map name added
    = map (fun i => default_track_name (length (tracks p) + i)) (seq 0 n) ∧
    Forall (fun t => notes t = [] ∧ muted t = false ∧ solo t = false) added ∧
    selectedTrackId p' = match last added with
                         | Some t => Some (track_id t)
                         | None => selectedTrackId p
                         end.
Proof.
  intros Hn p'. subst p'. rewrite add_tracks_spec. cbn [fst tracks selectedTrackId].
  eexists. split; [reflexivity |].
  rewrite length_map, length_seq. split; [done |].
  rewrite !map_map. cbn [color name].
  split; [by apply colors_distinct | split; [done | split]].
  - apply Forall_forall. intros t Ht.
    apply list_elem_of_fmap in Ht as (i & -> & _). done.
  - destruct n as [|k]; [done |].
    rewrite seq_S, map_app. cbn [map]. rewrite last_snoc. cbn. done.
Qed.

Lemma added_tracks_colours_witness :
  let p := fst (resetProject (Examples.project Examples.S1)
                             (mkOutside Examples.letters 3%nat)) in
  let o := snd (resetProject (Examples.project Examples.S1)
                             (mkOutside Examples.letters 3%nat)) in
  ∃ added,
    tracks (fst (add_tracks 10 p o)) = tracks p ++ added ∧ length added = 10%nat ∧
    NoDup (map color added) ∧
    map name added
    = map (fun i => default_track_name (length (tracks p) + i)) (seq 0 10) ∧
    Forall (fun t => notes t = [] ∧ muted t = false ∧ solo t = false) added ∧
    selectedTrackId (fst (add_tracks 10 p o))
    = match last added with
      | Some t => Some (track_id t)
      | None => selectedTrackId p
      end.
Proof.
  apply (added_tracks_colours 10).
  lia.
Defined.

(** X16: muting or soloing a track twice gives the project back, and a
    toggle touches nothing but that flag of the tracks carrying the
    id. *)
Theorem toggles_are_involutions (id : string) (p : ProjectState) :
  toggleTrackMute id (toggleTrackMute id p) = p ∧
  toggleTrackSolo id (toggleTrackSolo id p) = p ∧
  map (fun t => set_muted t false) (tracks (toggleTrackMute id p))
  = map (fun t => set_muted t false) (tracks p) ∧
  map (fun t => set_solo t false) (tracks (toggleTrackSolo id p))
  = map (fun t => set_solo t false) (tracks p).
Proof.
  unfold toggleTrackMute, toggleTrackSolo. repeat split.
  - rewrite on_track_compose by (by intros []).
    apply on_track_noop. intros [] _ _. cbn. by rewrite negb_involutive.
  - rewrite on_track_compose by (by intros []).
    apply on_track_noop. intros [] _ _. cbn. by rewrite negb_involutive.
  - unfold on_track. cbn [tracks set_tracks]. rewrite map_map.
    apply map_ext. intros t. by case_bool_decide.
  - unfold on_track. cbn [tracks set_tracks]. rewrite map_map.
    apply map_ext. intros t. by case_bool_decide.
Qed.

(** X17: [setBpm] stores a tempo between 40 and 240 for every number but
    [NaN], the one asked for when that lies there; [NaN] would be stored
    as it is.  The tempo field never passes [NaN]: whatever [parseInt]
    made of the text, the tempo it stores lies between 40 and 240.  With
    that tempo, beats converted to seconds and back are the same beats
    over exact arithmetic; on doubles, for beats from [2^-1000] to
    [2^1000], both conversions give finite doubles and the beats are
    found again within the fraction [5 * 2^-53]. *)
Theorem setBpm_keeps_tempo_usable (parsed : JSString.number) (x b : Q)
    (p : ProjectState) :
  setBpm JSString.NaN p = None ∧
  (∃ p1, setBpm (JSString.Finite x) p = Some p1 ∧
         40 <= bpm p1 ∧ bpm p1 <= 240 ∧
         (40 <= x → x <= 240 → bpm p1 == x) ∧
         projectName p1 = projectName p ∧ timeSignature p1 = timeSignature p ∧
         tracks p1 = tracks p ∧ selectedTrackId p1 = selectedTrackId p) ∧
  (∃ p2, TransportBar.onChange parsed p = Some p2 ∧
         40 <= bpm p2 ∧ bpm p2 <= 240 ∧
         secondsToBeats (beatsToSeconds b (bpm p2)) (bpm p2) == b ∧
         (Double.pow2 (-1000) <= b ∧ b <= Double.pow2 1000 →
          ∃ s r, Double.beatsToSeconds b (bpm p2) = Some s ∧
                 Double.secondsToBeats s (bpm p2) = Some r ∧
                 Qabs (r - b) <= 5 * Double.unit_roundoff * b)).
Proof.
  assert (Hclamp : ∀ y, 40 <= Qmax 40 (Qmin 240 y) ∧ Qmax 40 (Qmin 240 y) <= 240).
  { intros y. split; [apply Q.le_max_l |].
    apply Q.max_lub; [lra | apply Q.le_min_l]. }
  split; [reflexivity | split].
  - eexists. split; [reflexivity |]. cbn [bpm projectName timeSignature tracks selectedTrackId].
    unfold JS.Math_max, JS.Math_min. destruct (Hclamp x) as [H1 H2].
    split; [exact H1 | split; [exact H2 | split; [| done]]].
    intros Hlo Hhi. rewrite Q.min_r by exact Hhi. by apply Q.max_r.
  - assert (Hsome : ∃ y, TransportBar.onChange parsed p
                         = Some (mkProject (projectName p) (Qmax 40 (Qmin 240 y))
                                           (timeSignature p) (tracks p)
                                           (selectedTrackId p))).
    { unfold TransportBar.onChange, TransportBar.or_120.
      destruct parsed as [q |]; [destruct (Qeq_bool q 0) |]; by eexists. }
    destruct Hsome as [y ->]. eexists. split; [reflexivity |]. cbn [bpm].
    destruct (Hclamp y) as [H1 H2].
    split; [exact H1 | split; [exact H2 | split]].
    + unfold secondsToBeats, beatsToSeconds. field. lra.
    + intros Hb. destruct (double_round_trip b (Qmax 40 (Qmin 240 y))) as (s & r & Hs & Hr & _ & Hbound);
        [by split | exact Hb |].
      by exists s, r.
Qed.

End TrackActions.

(** ** The history store, alone *)

Section HistoryAlone.
Import History Project Specs MoreSpecs.

(** X18: with an empty [past], undo returns nothing and changes neither
    store; with an empty [future], redo likewise; and saving the state
    empties [future], so that a redo right after a save does nothing. *)
Theorem nothing_to_undo_or_redo (p : ProjectState) (h : HistoryState)
    (c : option NotesSnapshot) :
  (past h = [] →
   History.undo c h = (None, h) ∧ Project.undo (p, h) = (p, h)) ∧
  (future h = [] →
   History.redo c h = (None, h) ∧ Project.redo (p, h) = (p, h)) ∧
  future (snd (saveToHistory (p, h))) = [] ∧
  Project.redo (saveToHistory (p, h)) = saveToHistory (p, h).
Proof.
  split; [| split; [| split]].
  - intros E. unfold Project.undo, History.undo, canUndo. by rewrite E.
  - intros E. unfold Project.redo, History.redo, canRedo. by rewrite E.
  - reflexivity.
  - reflexivity.
Qed.

Lemma nothing_to_undo_or_redo_witness :
  (History.undo None History.initial = (None, History.initial) ∧
   Project.undo (Examples.project Examples.S1, History.initial)
   = (Examples.project Examples.S1, History.initial)) ∧
  (History.redo None History.initial = (None, History.initial) ∧
   Project.redo (Examples.project Examples.S1, History.initial)
   = (Examples.project Examples.S1, History.initial)).
Proof.
  pose proof (nothing_to_undo_or_redo (Examples.project Examples.S1)
                History.initial None) as (Hu & Hr & _).
  split; [apply Hu | apply Hr]; reflexivity.
Defined.

(** X19: on a history with a non-empty [past], undo returns the snapshot
    pushed last and moves the state it is given to the front of
    [future]; the redo that follows returns that very state; and when
    the redo is given the snapshot the undo returned, the history is
    again what it was before the undo. *)
Theorem history_undo_then_redo (h : HistoryState) (c1 c2 : NotesSnapshot) :
  past h ≠ [] →
  ∃ prev older,
    past h = older ++ [prev] ∧
    History.undo (Some c1) h
    = (Some prev, mkHistory older (c1 :: future h) (maxHistory h)) ∧
    History.redo (Some c2) (snd (History.undo (Some c1) h))
    = (Some c1, mkHistory (older ++ [c2]) (future h) (maxHistory h)) ∧
    History.redo (Some prev) (snd (History.undo (Some c1) h)) = (Some c1, h).
Proof.
  intros Hne. destruct (pop_nonempty (past h) Hne) as (prev & older & Hp & Hpop).
  exists prev, older. split; [exact Hp |].
  assert (Hu : History.undo (Some c1) h
               = (Some prev, mkHistory older (c1 :: future h) (maxHistory h))).
  { unfold History.undo. rewrite Hpop.
    replace (length (past h) =? 0)%nat with false; [done |].
    symmetry. apply Nat.eqb_neq. rewrite Hp, length_app. cbn. lia. }
  split; [exact Hu |]. rewrite Hu. cbn [snd].
  split; [reflexivity |].
  unfold History.redo. cbn. rewrite <- Hp. by destruct h.
Qed.

Lemma history_undo_then_redo_witness :
  let h := pushState Examples.S1 History.initial in
  ∃ prev older,
    past h = older ++ [prev] ∧
    History.undo (Some ∅) h
    = (Some prev, mkHistory older (∅ :: future h) (maxHistory h)) ∧
    History.redo (Some ∅) (snd (History.undo (Some ∅) h))
    = (Some ∅, mkHistory (older ++ [∅]) (future h) (maxHistory h)) ∧
    History.redo (Some prev) (snd (History.undo (Some ∅) h)) = (Some ∅, h).
Proof.
  apply (history_undo_then_redo (pushState Examples.S1 History.initial) ∅ ∅).
  discriminate.
Defined.

End HistoryAlone.

(** ** The transport store: loop and position *)

Section TransportMore.
Import Transport MoreSpecs.

Lemma step_loop_ordered (a : Action) (s : TransportState) :
  loop_ordered (loop s) → loop_ordered (loop (step a s)).
Proof.
  unfold loop_ordered. intros H.
  destruct a; cbn [step]; try exact H.
  - unfold togglePlay. by destruct (isPlaying s).
  - unfold setCurrentBeat. by destruct (_ && _).
  - cbn. unfold JS.Math_min, JS.Math_max.
    apply Qle_trans with start_; [apply Q.le_min_l | apply Q.le_max_l].
Qed.

(** X20: a loop region that is not inverted stays so under every
    sequence of actions of the transport store; this holds from the
    initial state when storage held no region or one that is not
    inverted. *)
Theorem loop_stays_ordered (acts : list Action) (st : Stored) :
  (∀ s, loop_ordered (loop s) → loop_ordered (loop (transport_run acts s))) ∧
  (match stored_loop st with
   | Some l => loop_ordered l
   | None => True
   end →
   loop_ordered (loop (transport_run acts (initial st)))).
Proof.
  assert (Hrun : ∀ s, loop_ordered (loop s) →
                      loop_ordered (loop (transport_run acts s))).
  { induction acts as [|a acts IH]; intros s Hs; [exact Hs |].
    cbn. apply IH, step_loop_ordered, Hs. }
  split; [exact Hrun |].
  intros Hst. apply Hrun. unfold initial. cbn [loop].
  destruct (stored_loop st) as [l |]; [exact Hst |].
  unfold loop_ordered. cbn. discriminate.
Qed.

Lemma loop_stays_ordered_witness :
  loop_ordered
    (loop (transport_run [ASetLoopRegion 8 2; AToggleLoop; APlay; ASetCurrentBeat 9]
                         (initial (mkStored (Some (mkLoop 1 4 true)) None None)))).
Proof.
  apply (proj2 (loop_stays_ordered
                  [ASetLoopRegion 8 2; AToggleLoop; APlay; ASetCurrentBeat 9]
                  (mkStored (Some (mkLoop 1 4 true)) None None))).
  unfold loop_ordered. cbn. discriminate.
Defined.

(** X21: the position the store keeps: [seek] never stores a negative
    beat and stores the beat itself when that is not negative; with the
    loop enabled over a region of positive length, the beat stored by
    [setCurrentBeat] lies before the loop end (a beat at or past the end
    becomes the loop start); with the loop disabled it is the beat
    given.  Neither touches the playing flags. *)
Theorem position_setters (b : Q) (s : TransportState) :
  0 <= currentBeat (seek b s) ∧
  (0 <= b → currentBeat (seek b s) == b) ∧
  (loop_enabled (loop s) = true → loop_start (loop s) < loop_end (loop s) →
   currentBeat (setCurrentBeat b s) < loop_end (loop s) ∧
   (loop_end (loop s) <= b → currentBeat (setCurrentBeat b s) = loop_start (loop s))) ∧
  (loop_enabled (loop s) = false → currentBeat (setCurrentBeat b s) = b) ∧
  isPlaying (seek b s) = isPlaying s ∧ isPaused (seek b s) = isPaused s ∧
  isPlaying (setCurrentBeat b s) = isPlaying s ∧
  isPaused (setCurrentBeat b s) = isPaused s.
Proof.
  split; [apply Q.le_max_l |]. split; [intros Hb; by apply Q.max_r |].
  unfold setCurrentBeat, JS.ge.
  split; [| split].
  - intros -> Hlt. cbn [andb].
    destruct (Qle_bool (loop_end (loop s)) b) eqn:E; cbn [currentBeat set_currentBeat].
    + split; [exact Hlt | done].
    + split.
      * apply Qnot_le_lt. intros H. apply Qle_bool_iff in H. congruence.
      * intros H. apply Qle_bool_iff in H. congruence.
  - by intros ->.
  - by destruct (loop_enabled (loop s) && Qle_bool (loop_end (loop s)) b).
Qed.

Lemma position_setters_witness :
  let s := setLoopEnabled true (initial (mkStored None None None)) in
  currentBeat (seek (-3) s) == 0 ∧
  currentBeat (setCurrentBeat 16 s) = 0 ∧
  currentBeat (setCurrentBeat 16 s) < 16.
Proof.
  intros s.
  pose proof (position_setters (-3) s) as (H0 & _).
  pose proof (position_setters 16 s) as (_ & _ & Hloop & _).
  destruct Hloop as [Hlt Hwrap]; [reflexivity | reflexivity |].
  split; [reflexivity | split].
  - apply Hwrap. discriminate.
  - exact Hlt.
Defined.

End TransportMore.

(** ** The scheduler: event ids and voices *)

Section EngineMore.
Import Engine Specs MoreSpecs.

Lemma clear_keeps_next (ids : list nat) (t : ToneTransport) :
  nextEventId (fold_left (fun t id => tone_clear id t) ids t) = nextEventId t.
Proof.
  revert t. induction ids as [|i ids IH]; intros t; [done |].
  cbn [fold_left]. by rewrite IH.
Qed.

Lemma clear_ids (e : EngineState) :
  tracked e →
  ids_between (nextEventId (transport e)) (clearScheduledNotes e) ∧
  nextEventId (transport (clearScheduledNotes e)) = nextEventId (transport e).
Proof.
  intros He. destruct (clear_tracked e He) as (_ & _ & Htr).
  pose proof (clear_keeps_next (scheduledEvents e) (transport e)) as Hn.
  split; [| exact Hn].
  split; [apply NoDup_nil_2 | split; [exact Htr | split; [constructor |]]].
  cbn [clearScheduledNotes transport]. lia.
Qed.

Lemma ids_between_weaken (k k' : nat) (e : EngineState) :
  (k' ≤ k)%nat → ids_between k e → ids_between k' e.
Proof.
  intros Hk (Hnd & Htr & Hlt & Hle).
  split; [exact Hnd | split; [exact Htr | split; [| lia]]].
  eapply Forall_impl; [exact Hlt |]. cbn. intros; lia.
Qed.

Lemma push_id_between (k : nat) (e : EngineState) (ev : Event) :
  ids_between k e →
  tracked (mkEngine (scheduledEvents e ++ [nextEventId (transport e)])
                    (snd (tone_schedule ev (transport e))) (trackSynths e)) →
  ids_between k (mkEngine (scheduledEvents e ++ [nextEventId (transport e)])
                          (snd (tone_schedule ev (transport e))) (trackSynths e)).
Proof.
  intros (Hnd & _ & Hlt & Hle) Htr.
  split; [| split; [exact Htr | split]]; cbn.
  - apply NoDup_app. split; [exact Hnd | split; [| apply NoDup_singleton]].
    intros i Hi Hs. apply list_elem_of_singleton in Hs as ->.
    rewrite Forall_forall in Hlt. specialize (Hlt _ Hi). lia.
  - apply Forall_app. split.
    + eapply Forall_impl; [exact Hlt |]. cbn. intros; lia.
    + repeat constructor; lia.
  - lia.
Qed.

Lemma schedule_note_ids k bpm track e note :
  ids_between k e → ids_between k (schedule_note bpm track e note).
Proof.
  intros He.
  destruct (schedule_note_pending bpm track e note) as (_ & _ & Htr).
  apply (push_id_between k e _ He). apply Htr. by destruct He as (_ & ? & _).
Qed.

Lemma schedule_notes_ids k bpm track (ns : list Note) e :
  ids_between k e → ids_between k (fold_left (schedule_note bpm track) ns e).
Proof.
  revert e. induction ns as [|n ns IH]; intros e He; [done |].
  cbn [fold_left]. by apply IH, schedule_note_ids.
Qed.

Lemma schedule_track_ids k hasSolo bpm e track :
  ids_between k e → ids_between k (schedule_track hasSolo bpm e track).
Proof.
  intros He. unfold schedule_track.
  destruct (muted track); [done |].
  destruct (hasSolo && negb (solo track)); [done |].
  apply schedule_notes_ids.
  unfold updateTrackSynth, createTrackSynth.
  repeat (destruct (_ !! _); cbn [trackSynths scheduledEvents transport]); done.
Qed.

Lemma schedule_tracks_ids k hasSolo bpm (ts : list Track) e :
  ids_between k e → ids_between k (fold_left (schedule_track hasSolo bpm) ts e).
Proof.
  revert e. induction ts as [|t ts IH]; intros e He; [done |].
  cbn [fold_left]. by apply IH, schedule_track_ids.
Qed.

Lemma install_ids k tracks loop bpm e :
  ids_between k e → ids_between k (install tracks loop bpm e).
Proof.
  intros He.
  destruct (install_pending tracks loop bpm e) as [_ Htr].
  assert (Htracked : tracked (install tracks loop bpm e))
    by (apply Htr; by destruct He as (_ & ? & _)).
  revert Htracked. unfold install.
  pose proof (schedule_tracks_ids k (existsb solo tracks) bpm tracks (setBPM bpm e) He)
    as H1.
  set (e1 := fold_left _ tracks (setBPM bpm e)) in *.
  assert (H2 : ids_between k (set_loop loop bpm e1))
    by (unfold set_loop; by destruct (loop_enabled loop)).
  intros Htracked.
  exact (push_id_between k (set_loop loop bpm e1) (BeatTick "16n") H2 Htracked).
Qed.

Lemma step_ids (e : EngineState) (c : Call) :
  ids_between 0 e →
  ids_between 0 (step e c) ∧
  (nextEventId (transport e) ≤ nextEventId (transport (step e c)))%nat.
Proof.
  intros He. destruct He as (Hnd & Htr & Hlt & _).
  destruct (clear_ids e Htr) as [Hc Hn].
  destruct c as [tracks loop bpm |]; cbn [step].
  - unfold scheduleNotes.
    pose proof (install_ids _ tracks loop bpm _ Hc) as H1.
    split; [eapply ids_between_weaken; [| exact H1]; lia |].
    by destruct H1 as (_ & _ & _ & ?).
  - split; [eapply ids_between_weaken; [| exact Hc]; lia | lia].
Qed.

Lemma run_ids (calls : list Call) : ids_between 0 (run calls initial).
Proof.
  induction calls as [|c calls IH] using rev_ind.
  - split; [apply NoDup_nil_2 | split; [reflexivity | split; [constructor | cbn; lia]]].
  - rewrite run_snoc. by apply step_ids.
Qed.

(** X22: in every state the engine reaches through [scheduleNotes] and
    [clearScheduledNotes], the recorded event ids are pairwise different
    and are exactly the ids of the events on the transport; the next id
    of the transport never goes back, and no id of an old schedule is an
    id of the schedule that replaces it: an id is never given out twice,
    so clearing one schedule cannot remove an event of another. *)
Theorem event_ids_never_reused (calls : list Call) (c : Call)
    (tracks : list Track) (loop : LoopRegion) (bpm : Q) :
  let e := run calls initial in
  NoDup (scheduledEvents e) ∧
  map fst (timeline (transport e)) = scheduledEvents e ∧
  (nextEventId (transport e) ≤ nextEventId (transport (step e c)))%nat ∧
  (∀ i, i ∈ scheduledEvents e → i ∉ scheduledEvents (scheduleNotes tracks loop bpm e)).
Proof.
  intros e. pose proof (run_ids calls) as He. fold e in He.
  destruct (step_ids e c He) as [_ Hmono].
  destruct He as (Hnd & Htr & Hlt & _).
  split; [exact Hnd | split; [exact Htr | split; [exact Hmono |]]].
  intros i Hi Hin.
  rewrite Forall_forall in Hlt. specialize (Hlt _ Hi).
  destruct (clear_ids e Htr) as [Hc _].
  pose proof (install_ids _ tracks loop bpm _ Hc) as (_ & _ & Hnew & _).
  rewrite Forall_forall in Hnew. specialize (Hnew _ Hin). lia.
Qed.

Lemma schedule_note_synths bpm track (ns : list Note) e :
  trackSynths (fold_left (schedule_note bpm track) ns e) = trackSynths e.
Proof.
  revert e. induction ns as [|n ns IH]; intros e; [done |].
  cbn [fold_left]. by rewrite IH.
Qed.

Lemma schedule_track_synths hasSolo bpm e track (i : string) :
  (is_Some (trackSynths e !! i) →
   is_Some (trackSynths (schedule_track hasSolo bpm e track) !! i)) ∧
  (plays hasSolo track = true →
   trackSynths (schedule_track hasSolo bpm e track) !! track_id track = Some track).
Proof.
  unfold schedule_track, plays.
  destruct (muted track); cbn [negb andb]; [by split |].
  destruct hasSolo, (solo track); cbn [negb andb orb]; try (by split).
  all: rewrite schedule_note_synths;
    unfold updateTrackSynth, createTrackSynth;
    destruct (trackSynths e !! track_id track) eqn:E;
      cbn [trackSynths]; rewrite ?E, ?lookup_insert_eq; cbn [trackSynths];
      (split; [| intros _; by rewrite ?lookup_insert_eq]);
      intros Hi; rewrite ?lookup_insert; repeat case_decide; done.
Qed.

Lemma schedule_tracks_synths hasSolo bpm (ts : list Track) e (i : string) :
  (is_Some (trackSynths e !! i) ∨
   ∃ t, t ∈ ts ∧ plays hasSolo t = true ∧ track_id t = i) →
  is_Some (trackSynths (fold_left (schedule_track hasSolo bpm) ts e) !! i).
Proof.
  revert e. induction ts as [|t ts IH]; intros e H.
  - destruct H as [H | (t & Ht & _)]; [exact H | by apply elem_of_nil in Ht].
  - cbn [fold_left]. apply IH.
    destruct (schedule_track_synths hasSolo bpm e t i) as [Hkeep Hnew].
    destruct H as [H | (t' & Ht' & Hp & Hid)]; [left; by apply Hkeep |].
    apply elem_of_cons in Ht' as [-> | Ht'].
    + left. rewrite <- Hid, Hnew by done. by eexists.
    + right. by exists t'.
Qed.

(** X23: after [scheduleNotes], whatever came before, every note trigger
    pending on the transport belongs to a track for which a synth is
    registered, so that no trigger fires into the void for lack of one;
    the synths registered before are still registered. *)
Theorem every_trigger_has_a_synth (calls : list Call) (tracks : list Track)
    (loop : LoopRegion) (bpm : Q) :
  let e0 := run calls initial in
  let e := scheduleNotes tracks loop bpm e0 in
  (∀ trackId frequency dur vel startTime,
     NoteTrigger trackId frequency dur vel startTime ∈ pending e →
     is_Some (trackSynths e !! trackId)) ∧
  (∀ i, is_Some (trackSynths e0 !! i) → is_Some (trackSynths e !! i)).
Proof.
  intros e0 e.
  assert (Hreg : ∀ i,
            (is_Some (trackSynths e0 !! i) ∨
             ∃ t, t ∈ tracks ∧ plays (existsb solo tracks) t = true ∧ track_id t = i) →
            is_Some (trackSynths e !! i)).
  { intros i H. subst e. unfold scheduleNotes, install.
    cbn [trackSynths]. unfold set_loop, with_transport. cbn [trackSynths].
    apply schedule_tracks_synths. exact H. }
  split; [| intros i Hi; apply Hreg; by left].
  intros trackId frequency dur vel startTime Hin.
  assert (Hp : pending e = installation tracks bpm)
    by (apply schedule_tracked, run_tracked, initial_tracked).
  rewrite Hp in Hin. unfold installation, triggers in Hin.
  apply elem_of_app in Hin as [Hin | Hin];
    [| apply list_elem_of_singleton in Hin; discriminate].
  rewrite list_elem_of_In in Hin. apply in_flat_map in Hin as (t & Ht & Hin).
  apply in_map_iff in Hin as (n & Hn & _).
  apply Hreg. right. exists t.
  rewrite <- plays_active in Ht. apply List.filter_In in Ht as [Ht Hplays].
  split; [by apply list_elem_of_In | split; [exact Hplays |]].
  unfold note_event in Hn. congruence.
Qed.

End EngineMore.

(** ** The WAV encoding *)

Section WavProperties.
Import Wav MoreSpecs.

Lemma from_to_le (n : nat) (v : Z) : from_le (to_le n v) = (v mod 256 ^ Z.of_nat n)%Z.
Proof.
  revert v. induction n as [|n IH]; intros v.
  - cbn. by rewrite Z.mod_1_r.
  - cbn [to_le from_le]. rewrite IH.
    rewrite Nat2Z.inj_succ, Z.pow_succ_r by lia.
    rewrite Z.rem_mul_r by lia. reflexivity.
Qed.

Lemma to_le_length (n : nat) (v : Z) : length (to_le n v) = n.
Proof. revert v. induction n as [|n IH]; intros v; cbn; [done | by rewrite IH]. Qed.

Lemma to_le_bytes (n : nat) (v : Z) : Forall (fun b => (0 <= b < 256)%Z) (to_le n v).
Proof.
  revert v. induction n as [|n IH]; intros v; cbn; constructor; [| apply IH].
  apply Z.mod_pos_bound. lia.
Qed.

Lemma header_explicit (d c r : Z) :
  createWavHeader d c r
  = Some (codes "RIFF" ++ to_le 4 (36 + d) ++ codes "WAVE" ++ codes "fmt "
          ++ to_le 4 16 ++ to_le 2 1 ++ to_le 2 c ++ to_le 4 r
          ++ to_le 4 (r * c * 2) ++ to_le 2 (c * 2) ++ to_le 2 16
          ++ codes "data" ++ to_le 4 d).
Proof. reflexivity. Qed.

(** X24: [createWavHeader] never fails; it gives 44 bytes that carry the
    tags RIFF, WAVE, [fmt ] and [data] at offsets 0, 8, 12 and 36 and,
    read back lowest byte first, the chunk size 36 + dataLength, the
    format 1 (PCM), the channel count, the sample rate, the byte rate,
    the block alignment, 16 bits per sample and the data length, each
    reduced to the width of its field. *)
Theorem wav_header_fields (d c r : Z) :
  ∃ h,
    createWavHeader d c r = Some h ∧
    length h = 44%nat ∧ Forall (fun b => (0 <= b < 256)%Z) h ∧
    tag_at 0 "RIFF" h ∧ tag_at 8 "WAVE" h ∧ tag_at 12 "fmt " h ∧ tag_at 36 "data" h ∧
    le_field 4 4 h = ((36 + d) mod 2 ^ 32)%Z ∧
    le_field 16 4 h = 16%Z ∧ le_field 20 2 h = 1%Z ∧
    le_field 22 2 h = (c mod 2 ^ 16)%Z ∧
    le_field 24 4 h = (r mod 2 ^ 32)%Z ∧
    le_field 28 4 h = ((r * c * 2) mod 2 ^ 32)%Z ∧
    le_field 32 2 h = ((c * 2) mod 2 ^ 16)%Z ∧
    le_field 34 2 h = 16%Z ∧
    le_field 40 4 h = (d mod 2 ^ 32)%Z.
Proof.
  eexists. split; [apply header_explicit |].
  split; [reflexivity |].
  split.
  { repeat (apply Forall_app; split); try apply to_le_bytes;
      repeat constructor; lia. }
  repeat split; try reflexivity; unfold le_field.
  - apply (from_to_le 4).
  - apply (from_to_le 2).
  - apply (from_to_le 4).
  - apply (from_to_le 4).
  - apply (from_to_le 2).
  - apply (from_to_le 4).
Qed.

Lemma clamp_bounds (x : Q) :
  -1 <= JS.Math_max (-1) (JS.Math_min 1 x) ∧ JS.Math_max (-1) (JS.Math_min 1 x) <= 1.
Proof.
  unfold JS.Math_max, JS.Math_min. split; [apply Q.le_max_l |].
  apply Q.max_lub; [discriminate | apply Q.le_min_l].
Qed.

Lemma int16_small (t : Z) :
  (-32768 <= t <= 32767)%Z → ((t + 32768) mod 65536 - 32768)%Z = t.
Proof. intros H. rewrite Z.mod_small by lia. lia. Qed.

Lemma ceiling_between (v : Q) (a b : Z) :
  inject_Z a <= v → v <= inject_Z b → (a <= Qceiling v <= b)%Z.
Proof.
  intros Ha Hb. split.
  - rewrite <- (Qceiling_Z a). by apply Qceiling_resp_le.
  - rewrite <- (Qceiling_Z b). by apply Qceiling_resp_le.
Qed.

Lemma floor_between (v : Q) (a b : Z) :
  inject_Z a <= v → v <= inject_Z b → (a <= Qfloor v <= b)%Z.
Proof.
  intros Ha Hb. split.
  - rewrite <- (Qfloor_Z a). by apply Qfloor_resp_le.
  - rewrite <- (Qfloor_Z b). by apply Qfloor_resp_le.
Qed.

(** The two branches of the conversion, with the wrap-around gone. *)
Lemma pcm_cases (x : Q) :
  let s := JS.Math_max (-1) (JS.Math_min 1 x) in
  (s < 0 ∧ pcm_sample x = Qceiling (s * 32768) ∧
   (-32768 <= Qceiling (s * 32768) <= 0)%Z) ∨
  (0 <= s ∧ pcm_sample x = Qfloor (s * 32767) ∧
   (0 <= Qfloor (s * 32767) <= 32767)%Z).
Proof.
  intros s. destruct (clamp_bounds x) as [Hlo Hhi]. fold s in Hlo, Hhi.
  unfold pcm_sample. fold s. destruct (JS.gt 0 s) eqn:E.
  - left. apply gt_spec in E. split; [exact E |].
    assert (Hb : (-32768 <= Qceiling (s * 32768) <= 0)%Z).
    { apply ceiling_between.
      - change (inject_Z (-32768)) with (-32768). lra.
      - change (inject_Z 0) with 0. lra. }
    split; [| exact Hb]. unfold to_int16, Grid.truncate.
    replace (Qle_bool 0 (s * 32768)) with false.
    + apply int16_small. lia.
    + symmetry. apply not_true_iff_false. intros H. apply Qle_bool_iff in H. lra.
  - right.
    assert (Hs : 0 <= s).
    { apply Qnot_lt_le. intros H. apply gt_spec in H. congruence. }
    split; [exact Hs |].
    assert (Hb : (0 <= Qfloor (s * 32767) <= 32767)%Z).
    { apply floor_between.
      - change (inject_Z 0) with 0. lra.
      - change (inject_Z 32767) with 32767. lra. }
    split; [| exact Hb]. unfold to_int16, Grid.truncate.
    replace (Qle_bool 0 (s * 32767)) with true.
    + apply int16_small. lia.
    + symmetry. apply Qle_bool_iff. lra.
Qed.

(** X25: a sample converted to 16-bit PCM never wraps around: the result
    lies between -32768 and 32767 and has the sign of the sample; full
    scale and everything beyond it give 32767 and -32768; silence gives
    0. *)
Theorem pcm_sample_saturates (x : Q) :
  (-32768 <= pcm_sample x <= 32767)%Z ∧
  (0 <= x → (0 <= pcm_sample x)%Z) ∧
  (x <= 0 → (pcm_sample x <= 0)%Z) ∧
  (1 <= x → pcm_sample x = 32767%Z) ∧
  (x <= -1 → pcm_sample x = (-32768)%Z) ∧
  (x == 0 → pcm_sample x = 0%Z).
Proof.
  pose proof (pcm_cases x) as Hc. cbv zeta in Hc.
  assert (Hge : 1 <= x → JS.Math_max (-1) (JS.Math_min 1 x) == 1).
  { intros H. unfold JS.Math_max, JS.Math_min.
    rewrite Q.min_l by exact H. apply Q.max_r. discriminate. }
  assert (Hle : x <= -1 → JS.Math_max (-1) (JS.Math_min 1 x) == -1).
  { intros H. unfold JS.Math_max, JS.Math_min.
    rewrite Q.min_r by lra. apply Q.max_l. exact H. }
  split; [| split; [| split; [| split; [| split]]]].
  - destruct Hc as [(_ & -> & ?) | (_ & -> & ?)]; lia.
  - intros Hx. destruct Hc as [(Hs & _ & _) | (_ & -> & ?)]; [| lia].
    assert (0 <= JS.Math_max (-1) (JS.Math_min 1 x)).
    { unfold JS.Math_max, JS.Math_min.
      destruct (Q.max_spec (-1) (Qmin 1 x)) as [[? Em] | [? Em]];
        destruct (Q.min_spec 1 x) as [[? En] | [? En]];
        rewrite Em; try rewrite En; lra. }
    lra.
  - intros Hx. destruct Hc as [(_ & -> & ?) | (Hs & -> & _)]; [lia |].
    assert (Hz : JS.Math_max (-1) (JS.Math_min 1 x) == 0).
    { assert (JS.Math_max (-1) (JS.Math_min 1 x) <= 0); [| lra].
      unfold JS.Math_max, JS.Math_min.
      destruct (Q.max_spec (-1) (Qmin 1 x)) as [[? Em] | [? Em]];
        destruct (Q.min_spec 1 x) as [[? En] | [? En]];
        rewrite Em; try rewrite En; lra. }
    rewrite Hz. reflexivity.
  - intros Hx. specialize (Hge Hx).
    destruct Hc as [(Hs & _ & _) | (_ & -> & _)]; [lra |].
    rewrite Hge. reflexivity.
  - intros Hx. specialize (Hle Hx).
    destruct Hc as [(_ & -> & _) | (Hs & _ & _)]; [| lra].
    rewrite Hle. reflexivity.
  - intros Hx.
    assert (Hz : JS.Math_max (-1) (JS.Math_min 1 x) == 0).
    { unfold JS.Math_max, JS.Math_min.
      rewrite Q.min_r by lra. rewrite Q.max_r by lra. exact Hx. }
    destruct Hc as [(Hs & _ & _) | (_ & -> & _)]; [lra |].
    rewrite Hz. reflexivity.
Qed.

Lemma pcm_sample_saturates_witness :
  pcm_sample 3 = 32767%Z ∧ pcm_sample (-2) = (-32768)%Z ∧ pcm_sample 0 = 0%Z ∧
  (0 <= pcm_sample (1 # 2))%Z ∧ (pcm_sample (-(1 # 3)) <= 0)%Z.
Proof.
  pose proof (pcm_sample_saturates 3) as (_ & _ & _ & H1 & _).
  pose proof (pcm_sample_saturates (-2)) as (_ & _ & _ & _ & H2 & _).
  pose proof (pcm_sample_saturates 0) as (_ & _ & _ & _ & _ & H3).
  pose proof (pcm_sample_saturates (1 # 2)) as (_ & H4 & _).
  pose proof (pcm_sample_saturates (-(1 # 3))) as (_ & _ & H5 & _).
  split; [apply H1; discriminate |].
  split; [apply H2; discriminate |].
  split; [apply H3; reflexivity |].
  split; [apply H4; discriminate | apply H5; discriminate].
Defined.

Lemma interleave_channel_length nc c (data : list Q) (idx : list nat) (buf : list Q) :
  length (fold_left
            (fun interleaved i =>
               match data !! i with
               | Some x => <[(i * nc + c)%nat := x]> interleaved
               | None => interleaved
               end) idx buf)
  = length buf.
Proof.
  revert buf. induction idx as [|i idx IH]; intros buf; [done |].
  cbn [fold_left]. rewrite IH. destruct (data !! i); [apply length_insert | done].
Qed.

Lemma interleave_channel_other nc c (data : list Q) (idx : list nat) (buf : list Q)
    (j : nat) :
  (∀ i, i ∈ idx → j ≠ (i * nc + c)%nat) →
  fold_left
    (fun interleaved i =>
       match data !! i with
       | Some x => <[(i * nc + c)%nat := x]> interleaved
       | None => interleaved
       end) idx buf !! j
  = buf !! j.
Proof.
  revert buf. induction idx as [|i idx IH]; intros buf Hj; [done |].
  cbn [fold_left]. rewrite IH by (intros; apply Hj; by right).
  destruct (data !! i); [| done].
  apply list_lookup_insert_ne. intros E. apply (Hj i); [by left | done].
Qed.

Lemma interleave_channel_written nc c (data : list Q) (idx : list nat) (buf : list Q)
    (i : nat) (x : Q) :
  (0 < nc)%nat → NoDup idx → i ∈ idx → data !! i = Some x →
  (i * nc + c < length buf)%nat →
  fold_left
    (fun interleaved i =>
       match data !! i with
       | Some x => <[(i * nc + c)%nat := x]> interleaved
       | None => interleaved
       end) idx buf !! (i * nc + c)%nat
  = Some x.
Proof.
  intros Hnc. revert buf. induction idx as [|a idx IH]; intros buf Hnd Hin Hx Hlen.
  - by apply elem_of_nil in Hin.
  - apply NoDup_cons in Hnd as [Ha Hnd]. cbn [fold_left].
    apply elem_of_cons in Hin as [-> | Hin].
    + rewrite Hx. rewrite interleave_channel_other.
      * by apply list_lookup_insert_eq.
      * intros i' Hi' E. assert (i' = a) by nia. by subst.
    + apply IH; try done.
      destruct (data !! a); [by rewrite length_insert | done].
Qed.

Lemma interleave_outer (chans : list (list Q)) (len nc : nat) (cs : list nat)
    (buf : list Q) :
  (0 < nc)%nat → NoDup cs → (∀ c, c ∈ cs → (c < nc)%nat) →
  Forall (fun ch => length ch = len) chans →
  length buf = (len * nc)%nat →
  let r := fold_left
             (fun interleaved channel =>
                match chans !! channel with
                | Some data => interleave_channel nc channel data len interleaved
                | None => interleaved
                end) cs buf in
  length r = length buf ∧
  ∀ c i data, c ∈ cs → chans !! c = Some data → (i < len)%nat →
              r !! (i * nc + c)%nat = data !! i.
Proof.
  intros Hnc. revert buf. induction cs as [|a cs IH]; intros buf Hnd Hcs Hwf Hlen r.
  - split; [done |]. intros c i data Hc. by apply elem_of_nil in Hc.
  - apply NoDup_cons in Hnd as [Ha Hnd]. subst r. cbn [fold_left].
    set (buf1 := match chans !! a with
                 | Some data => interleave_channel nc a data len buf
                 | None => buf
                 end).
    assert (Hlen1 : length buf1 = (len * nc)%nat).
    { subst buf1. destruct (chans !! a); [| done].
      unfold interleave_channel. by rewrite interleave_channel_length. }
    assert (Hcs' : ∀ c, c ∈ cs → (c < nc)%nat) by (intros; apply Hcs; by right).
    destruct (IH buf1 Hnd Hcs' Hwf Hlen1) as [Hl Hget].
    split; [rewrite Hl; lia |].
    intros c i data Hc Hdata Hi.
    apply elem_of_cons in Hc as [-> | Hc]; [| by apply Hget].
    (* the later channels leave the places of channel [a] alone *)
    assert (Hkeep : ∀ (cs' : list nat) (b : list Q), a ∉ cs' →
              (∀ c', c' ∈ cs' → (c' < nc)%nat) →
              fold_left
                (fun interleaved channel =>
                   match chans !! channel with
                   | Some data => interleave_channel nc channel data len interleaved
                   | None => interleaved
                   end) cs' b !! (i * nc + a)%nat
              = b !! (i * nc + a)%nat).
    { clear -Hcs Hnc. intros cs'. induction cs' as [|c' cs' IH']; intros b Hna Hlt; [done |].
      apply not_elem_of_cons in Hna as [Hne Hna]. cbn [fold_left].
      rewrite IH' by (try done; intros; apply Hlt; by right).
      destruct (chans !! c'); [| done].
      unfold interleave_channel. apply interleave_channel_other.
      intros i' _ E.
      assert (Ha : (a < nc)%nat) by (apply Hcs; by left).
      assert (Hc' : (c' < nc)%nat) by (apply Hlt; by left).
      assert (i = i') by nia. subst. lia. }
    rewrite Hkeep by (try done; intros; apply Hcs; by right).
    subst buf1. rewrite Hdata.
    assert (Hdl : length data = len).
    { rewrite Forall_forall in Hwf. apply Hwf.
      apply list_elem_of_lookup. by exists a. }
    destruct (data !! i) as [x |] eqn:Hx.
    + unfold interleave_channel. apply interleave_channel_written; try done.
      * apply NoDup_seq.
      * apply elem_of_seq. lia.
      * assert (Halt : (a < nc)%nat) by (apply Hcs; by left). rewrite Hlen. nia.
    + apply lookup_ge_None in Hx. lia.
Qed.

(** The interleaved array has one entry per sample of every channel. *)
Lemma interleave_length (b : AudioBuffer) :
  Forall (fun ch => length ch = buf_length b) (channelData b) →
  length (interleave b) = (buf_length b * numberOfChannels b)%nat.
Proof.
  intros Hwf. unfold interleave.
  destruct (decide (numberOfChannels b = 0%nat)) as [Hz | Hnz].
  - rewrite Hz. cbn [seq fold_left]. by rewrite Nat.mul_0_r.
  - destruct (interleave_outer (channelData b) (buf_length b) (numberOfChannels b)
                (seq 0 (numberOfChannels b))
                (replicate (buf_length b * numberOfChannels b) 0))
      as [Hl _]; try done.
    + lia.
    + apply NoDup_seq.
    + intros c Hc. apply elem_of_seq in Hc. lia.
    + apply length_replicate.
    + by rewrite Hl, length_replicate.
Qed.

(** X26: for a buffer whose channels all have its length, the
    interleaved array has length times channels entries and carries
    sample [i] of channel [c] at place [i * channels + c]: the frames
    follow one another, each with its channels in order. *)
Theorem interleave_layout (b : AudioBuffer) :
  Forall (fun ch => length ch = buf_length b) (channelData b) →
  length (interleave b) = (buf_length b * numberOfChannels b)%nat ∧
  ∀ c i data,
    channelData b !! c = Some data → (i < buf_length b)%nat →
    interleave b !! (i * numberOfChannels b + c)%nat = data !! i.
Proof.
  intros Hwf. unfold interleave.
  destruct (decide (numberOfChannels b = 0%nat)) as [Hz | Hnz].
  - rewrite Hz. cbn [seq fold_left]. rewrite Nat.mul_0_r. split; [done |].
    intros c i data Hc. unfold numberOfChannels in Hz.
    apply nil_length_inv in Hz. rewrite Hz in Hc. done.
  - destruct (interleave_outer (channelData b) (buf_length b) (numberOfChannels b)
                (seq 0 (numberOfChannels b))
                (replicate (buf_length b * numberOfChannels b) 0))
      as [Hl Hget]; try done.
    + lia.
    + apply NoDup_seq.
    + intros c Hc. apply elem_of_seq in Hc. lia.
    + apply length_replicate.
    + split; [by rewrite Hl, length_replicate |].
      intros c i data Hc Hi. apply Hget; try done.
      apply elem_of_seq. apply lookup_lt_Some in Hc. unfold numberOfChannels. lia.
Qed.

Lemma interleave_layout_witness :
  let b := mkAudioBuffer [[1; 2; 3]; [4; 5; 6]] 3 44100 in
  length (interleave b) = 6%nat ∧
  ∀ c i data,
    channelData b !! c = Some data → (i < 3)%nat →
    interleave b !! (i * 2 + c)%nat = data !! i.
Proof.
  apply (interleave_layout (mkAudioBuffer [[1; 2; 3]; [4; 5; 6]] 3 44100)).
  repeat constructor.
Defined.

Lemma flat_le_length (l : list Z) : length (flat_map (to_le 2) l) = (2 * length l)%nat.
Proof.
  induction l as [|v l IH]; [done |].
  change (flat_map (to_le 2) (v :: l)) with (to_le 2 v ++ flat_map (to_le 2) l).
  rewrite length_app, IH, to_le_length. cbn [length]. lia.
Qed.

Lemma flat_le_drop (k : nat) (l : list Z) :
  drop (2 * k) (flat_map (to_le 2) l) = flat_map (to_le 2) (drop k l).
Proof.
  revert l. induction k as [|k IH]; intros l; [done |].
  destruct l as [|v l]; [done |].
  replace (2 * S k)%nat with (S (S (2 * k))) by lia.
  change (flat_map (to_le 2) (v :: l))
    with ((v mod 256)%Z :: ((v / 256) mod 256)%Z :: flat_map (to_le 2) l).
  cbn [drop]. apply IH.
Qed.

Lemma signed16_pcm (x : Q) : signed16 (pcm_sample x mod 2 ^ 16) = pcm_sample x.
Proof.
  assert (H : (-32768 <= pcm_sample x <= 32767)%Z).
  { destruct (pcm_cases x) as [(_ & -> & ?) | (_ & -> & ?)]; lia. }
  unfold signed16. change (2 ^ 16)%Z with 65536%Z.
  rewrite Zplus_mod_idemp_l.
  apply int16_small. exact H.
Qed.

(** X27: for a buffer whose channels all have its length, the encoding
    succeeds and gives the 44 bytes of the header followed by two bytes
    per sample; the data length written in the header is the number of
    bytes that follow it and the chunk size is the file length less 8
    (both reduced to 32 bits); and the two bytes of every sample, read as
    a signed number, lowest byte first, are the PCM value of that entry
    of the interleaved array. *)
Theorem wav_file_consistent (b : AudioBuffer) :
  Forall (fun ch => length ch = buf_length b) (channelData b) →
  ∃ wav,
    audioBufferToWav b = Some wav ∧
    length wav = (44 + 2 * (buf_length b * numberOfChannels b))%nat ∧
    le_field 40 4 wav = ((Z.of_nat (length wav) - 44) mod 2 ^ 32)%Z ∧
    le_field 4 4 wav = ((Z.of_nat (length wav) - 8) mod 2 ^ 32)%Z ∧
    le_field 22 2 wav = (Z.of_nat (numberOfChannels b) mod 2 ^ 16)%Z ∧
    ∀ k x, interleave b !! k = Some x →
           signed16 (le_field (44 + 2 * k) 2 wav) = pcm_sample x.
Proof.
  intros Hwf. pose proof (interleave_length b Hwf) as Hlen.
  unfold audioBufferToWav. rewrite header_explicit. cbn [mbind option_bind].
  eexists. split; [reflexivity |].
  set (pcm := map pcm_sample (interleave b)).
  assert (Hpcm : length pcm = (buf_length b * numberOfChannels b)%nat)
    by (subst pcm; by rewrite length_map).
  set (h := codes "RIFF" ++ _).
  assert (Hh : length h = 44%nat) by reflexivity.
  assert (Hfield : ∀ off n, (off + n ≤ 44)%nat →
            le_field off n (h ++ flat_map (to_le 2) pcm) = le_field off n h).
  { intros off n Hle. unfold le_field. f_equal.
    rewrite drop_app_le by lia. rewrite take_app_le; [done |].
    rewrite length_drop. lia. }
  assert (Hlenw : length (h ++ flat_map (to_le 2) pcm)
                  = (44 + 2 * (buf_length b * numberOfChannels b))%nat)
    by (rewrite length_app, Hh, flat_le_length, Hpcm; done).
  split; [exact Hlenw |]. rewrite Hlenw.
  split; [| split; [| split]].
  - rewrite Hfield by lia.
    transitivity (from_le (to_le 4 (Z.of_nat (length pcm) * 2))); [reflexivity |].
    rewrite (from_to_le 4). change (256 ^ Z.of_nat 4)%Z with (2 ^ 32)%Z.
    f_equal. rewrite Hpcm. lia.
  - rewrite Hfield by lia.
    transitivity (from_le (to_le 4 (36 + Z.of_nat (length pcm) * 2))); [reflexivity |].
    rewrite (from_to_le 4). change (256 ^ Z.of_nat 4)%Z with (2 ^ 32)%Z.
    f_equal. rewrite Hpcm. lia.
  - rewrite Hfield by lia.
    transitivity (from_le (to_le 2 (Z.of_nat (numberOfChannels b)))); [reflexivity |].
    apply (from_to_le 2).
  - intros k x Hk. unfold le_field.
    rewrite drop_app_ge by lia. rewrite Hh.
    replace (44 + 2 * k - 44)%nat with (2 * k)%nat by lia.
    rewrite flat_le_drop. subst pcm. rewrite skipn_map.
    rewrite (drop_S _ _ _ Hk). cbn [map].
    match goal with
    | |- context [flat_map (to_le 2) (pcm_sample x :: ?rest)] =>
        change (take 2 (flat_map (to_le 2) (pcm_sample x :: rest)))
          with (to_le 2 (pcm_sample x))
    end.
    rewrite (from_to_le 2). change (256 ^ Z.of_nat 2)%Z with (2 ^ 16)%Z.
    apply signed16_pcm.
Qed.

Lemma wav_file_consistent_witness :
  let b := mkAudioBuffer [[1; -1]; [0; 1 # 2]] 2 44100 in
  ∃ wav,
    audioBufferToWav b = Some wav ∧
    length wav = 52%nat ∧
    le_field 40 4 wav = ((Z.of_nat (length wav) - 44) mod 2 ^ 32)%Z ∧
    le_field 4 4 wav = ((Z.of_nat (length wav) - 8) mod 2 ^ 32)%Z ∧
    le_field 22 2 wav = 2%Z ∧
    ∀ k x, interleave b !! k = Some x →
           signed16 (le_field (44 + 2 * k) 2 wav) = pcm_sample x.
Proof.
  apply (wav_file_consistent (mkAudioBuffer [[1; -1]; [0; 1 # 2]] 2 44100)).
  repeat constructor.
Defined.

(** X28: the file name offered for a project has as many characters as
    the project name, all of them lower-case letters, digits or
    underscores, followed by [.wav]; a name that is already of that form
    is kept. *)
Theorem download_name_is_plain (projectName : string) :
  download_name projectName = file_stem projectName +:+ ".wav" ∧
  String.length (file_stem projectName) = String.length projectName ∧
  all_chars plain_char (file_stem projectName) = true ∧
  file_stem (file_stem projectName) = file_stem projectName ∧
  (all_chars plain_char projectName = true → file_stem projectName = projectName).
Proof.
  split; [reflexivity |]. unfold file_stem.
  assert (Hplain : ∀ c, plain_char (to_lower (if is_alnum c then c else "_"%char)) = true)
    by (intros [[] [] [] [] [] [] [] []]; reflexivity).
  assert (Hfix : ∀ c, plain_char c = true →
                      to_lower (if is_alnum c then c else "_"%char) = c)
    by (intros [[] [] [] [] [] [] [] []]; (reflexivity || discriminate)).
  assert (Hkeep : ∀ s, all_chars plain_char s = true →
            map_chars to_lower
              (map_chars (fun c => if is_alnum c then c else "_"%char) s) = s).
  { induction s as [|c s IH]; [done |]. cbn [all_chars map_chars].
    intros [Hc Hs]%andb_prop. by rewrite Hfix, IH. }
  assert (Hall : all_chars plain_char
            (map_chars to_lower
               (map_chars (fun c => if is_alnum c then c else "_"%char) projectName))
            = true).
  { induction projectName as [|c s IH]; [done |]. cbn [all_chars map_chars].
    by rewrite Hplain, IH. }
  split; [| split; [exact Hall | split; [by apply Hkeep | apply Hkeep]]].
  induction projectName as [|c s IH]; [done |]. cbn [map_chars String.length].
  f_equal. apply IH. clear IH.
  revert Hall. cbn [all_chars map_chars]. by intros [_ ?]%andb_prop.
Qed.

Lemma download_name_is_plain_witness :
  file_stem "my_song_1" = "my_song_1" ∧ download_name "My Song 1" = "my_song_1.wav".
Proof.
  pose proof (download_name_is_plain "my_song_1") as (_ & _ & _ & _ & Hkeep).
  split; [apply Hkeep; reflexivity | reflexivity].
Defined.

End WavProperties.

(** ** Gestures and selection *)

Section GestureProperties.
Import Grid Gestures ProjectActions MoreSpecs.

Lemma position_bounds (hz vz : Q) (e : Pointer) :
  0 <= fst (getPositionFromEvent hz vz e) ∧
  24 <= snd (getPositionFromEvent hz vz e) ∧
  snd (getPositionFromEvent hz vz e) <= 95.
Proof.
  unfold getPositionFromEvent, JS.Math_max, JS.Math_min. cbn [fst snd].
  split; [apply Q.le_max_l |]. split; [apply Q.le_max_l |].
  apply Q.max_lub; [discriminate | apply Q.le_min_l].
Qed.

(** X29: the gestures of the piano roll keep the ranges of the data
    model.  A note drawn between two pointer positions starts on the
    grid at or after beat 0, lasts at least one grid step and has a pitch
    from 24 to 95; resizing a note leaves it at least one grid step long
    and changes nothing else; dragging a note keeps its start at or after
    beat 0, its pitch between the bounds given and its duration. *)
Theorem gestures_keep_notes_valid (g : GridSnap) (hz vz ppb nh dx dy : Q)
    (down up : Pointer) (id : string) (n : Note) :
  0 < hz → 0 < vz → 0 < ppb → 0 < nh → valid_note n →
  let drawn := note_of id (drawn_note g hz vz down up) in
  let resized := apply_note_updates n (resize_update g ppb n dx) in
  let dragged := apply_note_updates n (drag_update g ppb nh 24 95 n dx dy) in
  (valid_note drawn ∧ gridSnapToBeats g <= duration drawn ∧
   ∃ k : Z, start drawn = inject_Z k * gridSnapToBeats g) ∧
  (valid_note resized ∧ gridSnapToBeats g <= duration resized ∧
   note_id resized = note_id n ∧ start resized = start n ∧ pitch resized = pitch n) ∧
  (valid_note dragged ∧ note_id dragged = note_id n ∧ duration dragged = duration n).
Proof.
  intros _ _ _ _ (Hs & Hd & Hp1 & Hp2) drawn resized dragged.
  pose proof (snap_value_pos g) as Hg.
  split; [| split].
  - subst drawn. unfold drawn_note.
    destruct (position_bounds hz vz down) as (Hb1 & Hq1 & Hq2).
    destruct (position_bounds hz vz up) as (Hb2 & _).
    destruct (getPositionFromEvent hz vz down) as [downBeat downPitch].
    destruct (getPositionFromEvent hz vz up) as [upBeat upPitch].
    cbn [fst snd] in *. unfold note_of, valid_note.
    cbn [f_pitch f_start f_duration f_velocity start duration pitch fst snd].
    unfold JS.Math_max, JS.Math_min.
    pose proof (snap_nonneg downBeat g Hb1) as H1.
    pose proof (snap_nonneg upBeat g Hb2) as H2.
    assert (Hdur : gridSnapToBeats g
                   <= Qmax (gridSnapToBeats g)
                        (Qmax (snapToGrid downBeat g) (snapToGrid upBeat g)
                         - Qmin (snapToGrid downBeat g) (snapToGrid upBeat g)
                         + gridSnapToBeats g)) by apply Q.le_max_l.
    split; [split; [| split; [| split]] | split].
    + apply Q.min_glb; assumption.
    + lra.
    + exact Hq1.
    + exact Hq2.
    + exact Hdur.
    + unfold Qmin, GenericMinMax.gmin.
      destruct (snapToGrid downBeat g ?= snapToGrid upBeat g);
        eexists; apply snap_as_multiple.
  - subst resized. unfold resize_update, apply_note_updates, valid_note.
    cbn [u_id u_pitch u_start u_duration u_velocity default
         note_id start duration pitch].
    unfold JS.Math_max, Datatypes.id.
    assert (Hdur : gridSnapToBeats g
                   <= Qmax (gridSnapToBeats g)
                        (Math_round ((duration n + dx / ppb) / gridSnapToBeats g)
                         * gridSnapToBeats g)) by apply Q.le_max_l.
    repeat split; first [done | lra].
  - subst dragged. unfold drag_update, apply_note_updates, valid_note.
    cbn [u_id u_pitch u_start u_duration u_velocity default
         note_id start duration pitch].
    unfold JS.Math_max, JS.Math_min, Datatypes.id.
    repeat split;
      first [done | lra | apply Q.le_max_l
            | apply Q.max_lub; [discriminate | apply Q.le_min_l]].
Qed.

Lemma gestures_keep_notes_valid_witness :
  let n := Examples.n1 in
  let drawn := note_of "x" (drawn_note snap_8 1 1 (mkPointer 130 45) (mkPointer 50 300)) in
  let resized := apply_note_updates n (resize_update snap_8 40 n (-500)) in
  let dragged := apply_note_updates n (drag_update snap_8 40 20 24 95 n (-90) 4000) in
  (valid_note drawn ∧ gridSnapToBeats snap_8 <= duration drawn ∧
   ∃ k : Z, start drawn = inject_Z k * gridSnapToBeats snap_8) ∧
  (valid_note resized ∧ gridSnapToBeats snap_8 <= duration resized ∧
   note_id resized = note_id n ∧ start resized = start n ∧ pitch resized = pitch n) ∧
  (valid_note dragged ∧ note_id dragged = note_id n ∧ duration dragged = duration n).
Proof.
  apply (gestures_keep_notes_valid snap_8 1 1 40 20 (-500) 4000
           (mkPointer 130 45) (mkPointer 50 300) "x" Examples.n1);
    try reflexivity.
  repeat split; vm_compute; discriminate.
Defined.

End GestureProperties.

Section SelectionProperties.
Import UI MoreSpecs.

Lemma filter_NoDup {A} (f : A → bool) (l : list A) :
  NoDup l → NoDup (List.filter f l).
Proof.
  induction l as [|x l IH]; intros Hnd; [done |].
  apply NoDup_cons in Hnd as [Hx Hnd]. cbn [List.filter].
  destruct (f x); [| by apply IH].
  apply NoDup_cons. split; [| by apply IH].
  intros Hin. apply Hx.
  apply list_elem_of_In, List.filter_In in Hin as [Hin _]. by apply list_elem_of_In.
Qed.

(** What every selection built note by note satisfies. *)
Lemma selection_invariant (ops : list SelectionOp) :
  named_tracks ops →
  let s := selection_run ops in
  NoDup (noteIds s) ∧
  (sel_trackId s = None → noteIds s = []) ∧
  (∀ t, sel_trackId s = Some t → t ≠ EmptyString) ∧
  (∀ n, n ∈ noteIds s → ∃ t, sel_trackId s = Some t ∧ SAdd n t ∈ ops).
Proof.
  induction ops as [|o ops IH] using rev_ind; intros Hnamed.
  - cbn. split; [apply NoDup_nil_2 |]. split; [done |]. split; [done |].
    intros n Hn. by apply elem_of_nil in Hn.
  - assert (Hnamed' : named_tracks ops).
    { intros n t Hin. apply (Hnamed n t). apply elem_of_app. by left. }
    destruct (IH Hnamed') as (Hnd & Hnone & Hne & Hall). clear IH.
    unfold selection_run in *. rewrite fold_left_app. cbn [fold_left].
    set (s := fold_left selection_step ops empty_selection) in *.
    assert (Hweak : ∀ n t, SAdd n t ∈ ops → SAdd n t ∈ ops ++ [o])
      by (intros; apply elem_of_app; by left).
    destruct o as [n t | n |]; cbn [selection_step].
    + assert (Ht : t ≠ EmptyString).
      { apply (Hnamed n t). apply elem_of_app. right. by left. }
      assert (Hlast : SAdd n t ∈ ops ++ [SAdd n t])
        by (apply elem_of_app; right; by left).
      unfold addToSelection.
      destruct (truthy (sel_trackId s) && negb (bool_decide (sel_trackId s = Some t)))
        eqn:E1; cbn [noteIds sel_trackId].
      * split; [apply NoDup_singleton |]. split; [done |].
        split; [by intros ? [= <-] |].
        intros m Hm. apply list_elem_of_singleton in Hm as ->. by exists t.
      * assert (Htrack : sel_trackId s = None ∨ sel_trackId s = Some t).
        { destruct (sel_trackId s) as [t' |] eqn:Et; [| by left]. right.
          specialize (Hne t' eq_refl).
          destruct t' as [|c t']; [done |]. cbn [truthy andb] in E1.
          apply negb_false_iff, bool_decide_eq_true in E1. exact E1. }
        destruct (bool_decide (n ∈ noteIds s)) eqn:E2; cbn [negb noteIds sel_trackId].
        -- apply bool_decide_eq_true in E2.
           split; [exact Hnd |]. split; [exact Hnone |]. split; [exact Hne |].
           intros m Hm. destruct (Hall m Hm) as (t' & Et & Hin).
           exists t'. split; [exact Et | by apply Hweak].
        -- apply bool_decide_eq_false in E2.
           split.
           { apply NoDup_app. split; [exact Hnd |]. split; [| apply NoDup_singleton].
             intros m Hm Hx. apply list_elem_of_singleton in Hx as ->. done. }
           split; [done |]. split; [by intros ? [= <-] |].
           intros m Hm. exists t. split; [done |].
           apply elem_of_app in Hm as [Hm | Hm].
           ++ destruct (Hall m Hm) as (t' & Et & Hin).
              destruct Htrack as [Hn | Hs]; [congruence |].
              assert (t' = t) by congruence. subst. by apply Hweak.
           ++ apply list_elem_of_singleton in Hm as ->. exact Hlast.
    + unfold removeFromSelection. cbn [noteIds sel_trackId].
      split; [by apply filter_NoDup |].
      split; [intros E; by rewrite (Hnone E) |]. split; [exact Hne |].
      intros m Hm. apply list_elem_of_In, List.filter_In in Hm as [Hm _].
      apply list_elem_of_In in Hm.
      destruct (Hall m Hm) as (t' & Et & Hin). exists t'. split; [done | by apply Hweak].
    + cbn. split; [apply NoDup_nil_2 |]. split; [done |]. split; [done |].
      intros m Hm. by apply elem_of_nil in Hm.
Qed.

(** X30: a selection built by adding and removing notes one at a time
    (all under track ids other than the empty string) never lists a note
    twice and is on one track: every note it lists was added under the
    track the selection carries.  Adding a note under another track than
    the one carried replaces the selection by that note alone. *)
Theorem selection_is_on_one_track (ops : list SelectionOp) (n t : string) :
  named_tracks ops → t ≠ EmptyString →
  let s := selection_run ops in
  NoDup (noteIds s) ∧
  (∀ m, m ∈ noteIds s → ∃ t', sel_trackId s = Some t' ∧ SAdd m t' ∈ ops) ∧
  n ∈ noteIds (addToSelection n t s) ∧
  sel_trackId (addToSelection n t s) = Some t ∧
  (sel_trackId s ≠ None → sel_trackId s ≠ Some t →
   addToSelection n t s = mkSelection [n] (Some t)).
Proof.
  intros Hnamed Ht s.
  destruct (selection_invariant ops Hnamed) as (Hnd & Hnone & Hne & Hall).
  fold s in Hnd, Hnone, Hne, Hall.
  split; [exact Hnd | split; [exact Hall |]].
  assert (Hin : n ∈ noteIds (addToSelection n t s)).
  { unfold addToSelection.
    destruct (truthy _ && _); cbn [noteIds]; [by left |].
    destruct (bool_decide (n ∈ noteIds s)) eqn:E; cbn [negb noteIds].
    - by apply bool_decide_eq_true in E.
    - apply elem_of_app. right. by left. }
  split; [exact Hin |]. split.
  - unfold addToSelection.
    destruct (truthy _ && _) eqn:E1; cbn [sel_trackId]; [done |].
    destruct (bool_decide (n ∈ noteIds s)) eqn:E2; cbn [negb sel_trackId]; [| done].
    apply bool_decide_eq_true in E2.
    destruct (Hall n E2) as (t' & Et & _). rewrite Et in E1 |- *.
    specialize (Hne t' Et). destruct t' as [|c t']; [done |].
    cbn [truthy andb] in E1. apply negb_false_iff, bool_decide_eq_true in E1. exact E1.
  - intros Hsome Hother. unfold addToSelection.
    destruct (sel_trackId s) as [t' |] eqn:Et; [| done].
    specialize (Hne t' eq_refl). destruct t' as [|c t']; [done |].
    cbn [truthy andb]. by rewrite bool_decide_false.
Qed.

Lemma selection_is_on_one_track_witness :
  let s := selection_run [SAdd "n1" "A"; SAdd "n2" "A"; SRemove "n1"] in
  NoDup (noteIds s) ∧
  (∀ m, m ∈ noteIds s →
        ∃ t', sel_trackId s = Some t' ∧
              SAdd m t' ∈ [SAdd "n1" "A"; SAdd "n2" "A"; SRemove "n1"]) ∧
  "n9" ∈ noteIds (addToSelection "n9" "B" s) ∧
  sel_trackId (addToSelection "n9" "B" s) = Some "B" ∧
  (sel_trackId s ≠ None → sel_trackId s ≠ Some "B" →
   addToSelection "n9" "B" s = mkSelection ["n9"] (Some "B")).
Proof.
  apply (selection_is_on_one_track [SAdd "n1" "A"; SAdd "n2" "A"; SRemove "n1"] "n9" "B").
  - intros n t Hin.
    apply elem_of_cons in Hin as [[= -> ->] | Hin]; [discriminate |].
    apply elem_of_cons in Hin as [[= -> ->] | Hin]; [discriminate |].
    apply list_elem_of_singleton in Hin. discriminate.
  - discriminate.
Defined.

End SelectionProperties.
